(** * LOTUSim UI front end: parameter serializer, telemetry client, marker size

    A shallow embedding of three pieces of the front end:
    - [generateLotusParamXML] of the add-vessel dialog, which turns the
      dialog state into the [lotus_param] document sent to the backend;
    - the [WebSocketClient] class that receives vessel batches;
    - [getIconSize] of the map marker component.
    Around them: the controls of the dialog that fill the state (thruster
    field, initial-state options, waypoint follower, position), the command
    that spawns the vessel, and the effect of the dashboard that owns the
    client.

    JavaScript strings are sequences of UTF-16 code units; they are modelled
    as lists of code units ([N]).  The regular-expression replacements of the
    source are instances of one left-to-right, non-overlapping [replace_all].
    JavaScript numbers are binary64 floats; their conversion to text is a
    parameter of the serializer.

    The file has two parts: the definitions (the program, then the notions
    used to state its properties and sample inputs), and the facts. *)

From Stdlib Require Import List NArith Bool Arith Lia String Ascii.
From Stdlib Require Import Floats.
Import ListNotations.

Set Implicit Arguments.

(* ------------------------------------------------------------------ *)
(** ** JavaScript strings *)

Module JS.

Definition char := N.
Definition jsstring := list char.

(** An ASCII literal of the source as code units. *)
Definition lit (s : string) : jsstring :=
  map N_of_ascii (list_ascii_of_string s).

Definition nl : jsstring := [10%N].
Definition c_lt : char := 60%N.
Definition c_gt : char := 62%N.
Definition c_amp : char := 38%N.
Definition c_quot : char := 34%N.
Definition c_apos : char := 39%N.
Definition c_sp : char := 32%N.

Definition char_eqb (a b : char) : bool := N.eqb a b.

Fixpoint jsstring_eqb (a b : jsstring) : bool :=
  match a, b with
  | [], [] => true
  | x :: a', y :: b' => char_eqb x y && jsstring_eqb a' b'
  | _, _ => false
  end.

(** The class [\s] of ECMAScript regular expressions, which is also the set
    of code units removed by [String.prototype.trim]: WhiteSpace and
    LineTerminator. *)
Definition is_ws (c : char) : bool :=
  ((9 <=? c) && (c <=? 13) || (c =? 32) || (c =? 160) || (c =? 5760)
   || (8192 <=? c) && (c <=? 8202) || (c =? 8232) || (c =? 8233)
   || (c =? 8239) || (c =? 8287) || (c =? 12288) || (c =? 65279))%N.

(** [str.replace(/re/g, r)] for a regular expression whose matches are never
    empty: [m s] is the length of the match that starts at the head of [s],
    if there is one.  Scanning goes from left to right; after a match it
    resumes behind the match.  [skip] counts the code units of the current
    match that are still to be passed over. *)
Fixpoint replace_from (m : jsstring -> option nat) (r : jsstring)
         (skip : nat) (s : jsstring) : jsstring :=
  match s with
  | [] => []
  | c :: t =>
      match skip with
      | S k => replace_from m r k t
      | O =>
          match m s with
          | Some (S n) => r ++ replace_from m r n t
          | _ => c :: replace_from m r 0 t
          end
      end
  end.

Definition replace_all (m : jsstring -> option nat) (r s : jsstring)
  : jsstring :=
  replace_from m r 0 s.

(** A regular expression that matches one code unit of a class. *)
Definition re_class (p : char -> bool) (s : jsstring) : option nat :=
  match s with
  | c :: _ => if p c then Some 1 else None
  | [] => None
  end.

Fixpoint span_ws (s : jsstring) : nat :=
  match s with
  | c :: t => if is_ws c then S (span_ws t) else 0
  | [] => 0
  end.

(** [/\s{2,}/]: a greedy run of at least two white-space code units. *)
Definition re_ws2 (s : jsstring) : option nat :=
  let k := span_ws s in if 2 <=? k then Some k else None.

(** [/>\s+</]: [>], a non-empty greedy run of white space, [<]. *)
Definition re_gt_ws_lt (s : jsstring) : option nat :=
  match s with
  | c :: t =>
      if char_eqb c c_gt then
        let k := span_ws t in
        match k, skipn k t with
        | S _, d :: _ => if char_eqb d c_lt then Some (k + 2) else None
        | _, _ => None
        end
      else None
  | [] => None
  end.

Fixpoint drop_ws (s : jsstring) : jsstring :=
  match s with
  | c :: t => if is_ws c then drop_ws t else s
  | [] => []
  end.

(** [String.prototype.trim]. *)
Definition trim (s : jsstring) : jsstring :=
  rev (drop_ws (rev (drop_ws s))).

(** [Array.prototype.join]. *)
Fixpoint join (sep : jsstring) (l : list jsstring) : jsstring :=
  match l with
  | [] => []
  | [x] => x
  | x :: rest => x ++ sep ++ join sep rest
  end.

(** Template-literal conversion of a boolean. *)
Definition bool_to_string (b : bool) : jsstring :=
  if b then lit "true" else lit "false".

Fixpoint uint_to_string (d : Decimal.uint) : jsstring :=
  match d with
  | Decimal.Nil => []
  | Decimal.D0 d => 48%N :: uint_to_string d
  | Decimal.D1 d => 49%N :: uint_to_string d
  | Decimal.D2 d => 50%N :: uint_to_string d
  | Decimal.D3 d => 51%N :: uint_to_string d
  | Decimal.D4 d => 52%N :: uint_to_string d
  | Decimal.D5 d => 53%N :: uint_to_string d
  | Decimal.D6 d => 54%N :: uint_to_string d
  | Decimal.D7 d => 55%N :: uint_to_string d
  | Decimal.D8 d => 56%N :: uint_to_string d
  | Decimal.D9 d => 57%N :: uint_to_string d
  end.

(** Template-literal conversion of an array index (a natural number): its
    decimal digits. *)
Definition index_to_string (n : nat) : jsstring :=
  uint_to_string (Nat.to_uint n).

(** [arr.map((x, idx) => f x idx)]. *)
Fixpoint mapi_from {A B} (f : A -> nat -> B) (i : nat) (l : list A) : list B :=
  match l with
  | [] => []
  | x :: t => f x i :: mapi_from f (S i) t
  end.

Definition mapi {A B} (f : A -> nat -> B) (l : list A) : list B :=
  mapi_from f 0 l.

End JS.

Import JS.

(* ------------------------------------------------------------------ *)
(** ** The add-vessel dialog and its serializer *)

Inductive PhysicsMode := aerial | surface | underwater.

Definition mode_key (m : PhysicsMode) : jsstring :=
  match m with
  | aerial => lit "aerial"
  | surface => lit "surface"
  | underwater => lit "underwater"
  end.

Record Plugins := {
  physics_engine : bool;
  rendering_engine : bool
}.

Record ModeConfig := {
  connectionType : jsstring;
  uri : jsstring;
  thrusters : list jsstring
}.

Section Serializer.

(** JavaScript numbers are IEEE 754 doubles.  Their conversion to text in a
    template literal ([Number::toString]) is not modelled: it is a parameter. *)
Definition num := float.
Variable Number_toString : num -> jsstring.

Record Waypoint := { lat : num; lng : num }.
Record Line := { direction : num; length : num }.
Record Circle := { radius : num }.

Record WaypointFollower := {
  enabled : bool;
  loop : bool;
  linearAccLimit : num;
  angularAccLimit : num;
  angularVelLimit : num;
  mode : jsstring;
  waypoints : list Waypoint;
  line : Line;
  circle : Circle
}.

(** The part of the component state that [generateLotusParamXML] reads.
    [physicsModes] and [physicsConfig] are objects with the three keys
    aerial, surface, underwater (in that order of insertion). *)
Record DialogState := {
  plugins : Plugins;
  rendererType : jsstring;
  publishRender : bool;
  physicsModes : PhysicsMode -> bool;
  physicsConfig : PhysicsMode -> ModeConfig;
  initState : jsstring;
  waypointFollower : WaypointFollower
}.

Definition escapeXml (str : jsstring) : jsstring :=
  replace_all (re_class (char_eqb c_apos)) (lit "&apos;")
    (replace_all (re_class (char_eqb c_quot)) (lit "&quot;")
      (replace_all (re_class (char_eqb c_gt)) (lit "&gt;")
        (replace_all (re_class (char_eqb c_lt)) (lit "&lt;")
          (replace_all (re_class (char_eqb c_amp)) (lit "&amp;") str)))).

Definition renderInterface (st : DialogState) : jsstring :=
  if rendering_engine (plugins st) then
    nl ++
    lit "      <render_interface>" ++ nl ++
    lit "        <publish_render>" ++ bool_to_string (publishRender st)
      ++ lit "</publish_render>" ++ nl ++
    lit "        <renderer_type_name>" ++ escapeXml (rendererType st)
      ++ lit "</renderer_type_name>" ++ nl ++
    lit "      </render_interface>"
  else [].

Definition thrusterLine (thruster : jsstring) (idx : nat) : jsstring :=
  lit "        <thrusters" ++ index_to_string (idx + 1) ++ lit ">"
    ++ escapeXml thruster
    ++ lit "</thrusters" ++ index_to_string (idx + 1) ++ lit ">".

Definition physicsPart (st : DialogState) (m : PhysicsMode) : jsstring :=
  let config := physicsConfig st m in
  let thrusters := join nl (mapi thrusterLine (thrusters config)) in
  nl ++
  lit "        <" ++ mode_key m ++ lit ">" ++ nl ++
  lit "          <ConnectionType>" ++ escapeXml (connectionType config)
    ++ lit "</ConnectionType>                        " ++ nl ++
  lit "          <uri>" ++ escapeXml (uri config) ++ lit "</uri>" ++ nl ++
  lit "          <thrusters>" ++ nl ++
  lit "    " ++ thrusters ++ nl ++
  lit "          </thrusters>" ++ nl ++
  lit "        </" ++ mode_key m ++ lit ">".

(** [Object.entries(physicsModes)] *)
Definition physicsModes_entries (st : DialogState)
  : list (PhysicsMode * bool) :=
  map (fun m => (m, physicsModes st m)) [aerial; surface; underwater].

Definition physicsParts (st : DialogState) : jsstring :=
  join [] (map (fun e => physicsPart st (fst e))
             (filter (fun e => snd e) (physicsModes_entries st))).

Definition physicsEngineInterface (st : DialogState) : jsstring :=
  if physics_engine (plugins st) then
    nl ++
    lit "      <physics_engine_interface>" ++ physicsParts st ++ nl ++
    lit "        <init_state>" ++ escapeXml (initState st)
      ++ lit "</init_state>" ++ nl ++
    lit "      </physics_engine_interface>"
  else [].

Definition commonLimits (wf : WaypointFollower) : jsstring :=
  nl ++
  lit "      <loop>" ++ bool_to_string (loop wf) ++ lit "</loop>" ++ nl ++
  lit "      <linear_acceleration_limit>"
    ++ Number_toString (linearAccLimit wf)
    ++ lit "</linear_acceleration_limit>" ++ nl ++
  lit "      <angular_acceleration_limit>"
    ++ Number_toString (angularAccLimit wf)
    ++ lit "</angular_acceleration_limit>" ++ nl ++
  lit "      <angular_velocity_limit>"
    ++ Number_toString (angularVelLimit wf)
    ++ lit "</angular_velocity_limit>" ++ nl ++
  lit "    ".

Definition waypointXml (wp : Waypoint) : jsstring :=
  lit "<waypoint>" ++ Number_toString (lat wp) ++ lit " "
    ++ Number_toString (lng wp) ++ lit "</waypoint>".

Definition waypointsFollower (wf : WaypointFollower) : jsstring :=
  let waypointsXml := join [] (map waypointXml (waypoints wf)) in
  nl ++
  lit "        <follower>" ++ nl ++
  lit "          " ++ commonLimits wf ++ nl ++
  lit "          <waypoints>" ++ nl ++
  lit "            " ++ waypointsXml ++ nl ++
  lit "          </waypoints>" ++ nl ++
  lit "        </follower>".

Definition lineFollower (wf : WaypointFollower) : jsstring :=
  nl ++
  lit "        <follower>" ++ nl ++
  lit "          " ++ commonLimits wf ++ nl ++
  lit "          <line>" ++ nl ++
  lit "            <direction>" ++ Number_toString (direction (line wf))
    ++ lit "</direction>" ++ nl ++
  lit "            <length>" ++ Number_toString (length (line wf))
    ++ lit "</length>" ++ nl ++
  lit "          </line>" ++ nl ++
  lit "        </follower>".

Definition circleFollower (wf : WaypointFollower) : jsstring :=
  nl ++
  lit "        <follower>" ++ nl ++
  lit "          " ++ commonLimits wf ++ nl ++
  lit "          <circle>" ++ nl ++
  lit "            <radius>" ++ Number_toString (radius (circle wf))
    ++ lit "</radius>" ++ nl ++
  lit "          </circle>" ++ nl ++
  lit "        </follower>".

(** The array [followers] after the three pushes, none of which ends the
    function. *)
Definition followers (wf : WaypointFollower) : list jsstring :=
  (if jsstring_eqb (mode wf) (lit "waypoints")
      && (0 <? List.length (waypoints wf))
   then [waypointsFollower wf] else [])
  ++ (if jsstring_eqb (mode wf) (lit "line") then [lineFollower wf] else [])
  ++ (if jsstring_eqb (mode wf) (lit "circle")
      then [circleFollower wf] else []).

Definition waypointFollowerInterface (st : DialogState) : jsstring :=
  let wf := waypointFollower st in
  if enabled wf then
    nl ++
    lit "      <waypoint_follower>" ++ nl ++
    lit "        " ++ join [] (followers wf) ++ nl ++
    lit "      </waypoint_follower>"
  else [].

(** The document before the final chain of replacements. *)
Definition assembled (st : DialogState) : jsstring :=
  lit "<lotus_param>" ++ renderInterface st ++ physicsEngineInterface st
    ++ waypointFollowerInterface st ++ lit "</lotus_param>".

Definition strip_breaks (s : jsstring) : jsstring :=
  replace_all
    (re_class (fun c => char_eqb c 10 || char_eqb c 13 || char_eqb c 9)%N)
    [] s.

Definition collapse_ws (s : jsstring) : jsstring :=
  replace_all re_ws2 (lit " ") s.

Definition close_tags (s : jsstring) : jsstring :=
  replace_all re_gt_ws_lt (lit "><") s.

(** The chain [.replace(/[\n\r\t]/g, '').replace(/\s{2,}/g, ' ')
    .replace(/>\s+</g, '><').trim()] at the end of the function. *)
Definition replacements (s : jsstring) : jsstring :=
  close_tags (collapse_ws (strip_breaks s)).

Definition normalize (s : jsstring) : jsstring :=
  trim (replacements s).

Definition generateLotusParamXML (st : DialogState) : jsstring :=
  normalize (assembled st).

End Serializer.

(* ------------------------------------------------------------------ *)
(** ** Notions used to state and prove the properties of the serializer *)

Module Text.

(** The class [[\n\r\t]] of the first replacement. *)
Definition is_break (c : char) : bool :=
  (char_eqb c 10 || char_eqb c 13 || char_eqb c 9)%N.

(** Neither [<] nor [>] occurs. *)
Definition no_angle (p : jsstring) : bool :=
  forallb (fun c => negb (char_eqb c c_lt) && negb (char_eqb c c_gt)) p.

(** What is left of the text between [>] and [<] after [close_tags]. *)
Definition gap (p : jsstring) : jsstring :=
  if forallb is_ws p then [] else p.

(** The text between two tags after the three replacements. *)
Definition text_content (p : jsstring) : jsstring :=
  gap (collapse_ws (strip_breaks p)).

(** No white space and no [>]. *)
Definition solid (n : jsstring) : bool :=
  forallb (fun c => negb (is_ws c) && negb (char_eqb c c_gt)) n.

(** What stands between [<] and [>] in a tag: no white space, [<] or [>]. *)
Definition tag_name_ok (n : jsstring) : bool :=
  forallb (fun c => negb (is_ws c) && negb (char_eqb c c_lt)
                    && negb (char_eqb c c_gt)) n.

(** A document as a sequence of tags [<n>] and texts. *)
Inductive token :=
| Tag (n : jsstring)
| Txt (s : jsstring).

Fixpoint render (ts : list token) : jsstring :=
  match ts with
  | [] => []
  | Tag n :: r => c_lt :: n ++ c_gt :: render r
  | Txt s :: r => s ++ render r
  end.

Definition token_ok (t : token) : bool :=
  match t with
  | Tag n => tag_name_ok n
  | Txt s => no_angle s
  end.

(** The tokens after the replacements: the texts between two tags are
    joined and normalised; [pending] is the text behind the last tag. *)
Fixpoint compact (acc : jsstring) (ts : list token) : list token :=
  match ts with
  | [] => []
  | Tag n :: r => Txt (text_content acc) :: Tag n :: compact [] r
  | Txt s :: r => compact (acc ++ s) r
  end.

Fixpoint pending (acc : jsstring) (ts : list token) : jsstring :=
  match ts with
  | [] => acc
  | Tag n :: r => pending [] r
  | Txt s :: r => pending (acc ++ s) r
  end.

(** No line break and no tab. *)
Definition no_break (s : jsstring) : bool :=
  forallb (fun c => negb (is_break c)) s.

(** No two adjacent white-space code units. *)
Fixpoint no_ws_run (s : jsstring) : bool :=
  match s with
  | [] => true
  | c :: t => negb (is_ws c && (0 <? span_ws t)) && no_ws_run t
  end.

(** [/>\s+</] matches at the head of [c :: t]. *)
Definition gap_at (c : char) (t : jsstring) : bool :=
  match drop_ws t with
  | d :: _ => char_eqb c c_gt && (0 <? span_ws t) && char_eqb d c_lt
  | [] => false
  end.

(** [/>\s+</] matches nowhere. *)
Fixpoint no_tag_gap (s : jsstring) : bool :=
  match s with
  | [] => true
  | c :: t => negb (gap_at c t) && no_tag_gap t
  end.

(** [s.startsWith(p)]. *)
Fixpoint prefixb (p s : jsstring) : bool :=
  match p, s with
  | [], _ => true
  | x :: p', y :: s' => char_eqb x y && prefixb p' s'
  | _ :: _, [] => false
  end.

(** The number of positions of [s] at which the non-empty string [p]
    occurs. *)
Fixpoint occurrences (p s : jsstring) : nat :=
  match s with
  | [] => 0
  | _ :: t => (if prefixb p s then 1 else 0) + occurrences p t
  end.

(** [contains p s]: [s.includes(p)]. *)
Fixpoint contains (p s : jsstring) : bool :=
  prefixb p s || match s with [] => false | _ :: t => contains p t end.

(** The number of tags named [n]. *)
Fixpoint count_tag (n : jsstring) (ts : list token) : nat :=
  match ts with
  | [] => 0
  | Tag m :: r => (if jsstring_eqb n m then 1 else 0) + count_tag n r
  | Txt _ :: r => count_tag n r
  end.

(** [ws_edit s s']: [s'] is [s] with some white-space code units removed or
    turned into a space. *)
Inductive ws_edit : jsstring -> jsstring -> Prop :=
| we_nil : ws_edit [] []
| we_keep c s s' : ws_edit s s' -> ws_edit (c :: s) (c :: s')
| we_drop c s s' : is_ws c = true -> ws_edit s s' -> ws_edit (c :: s) s'
| we_space c s s' :
    is_ws c = true -> ws_edit s s' -> ws_edit (c :: s) (c_sp :: s').

(** The number of occurrences of a code unit. *)
Definition count (c : char) (s : jsstring) : nat := count_occ N.eq_dec s c.

Definition entity_tails : list jsstring :=
  [lit "amp;"; lit "lt;"; lit "gt;"; lit "quot;"; lit "apos;"].

(** Every [&] of the string starts one of the five entities. *)
Fixpoint amp_ok (s : jsstring) : bool :=
  match s with
  | [] => true
  | c :: t =>
      (negb (char_eqb c c_amp) || existsb (fun e => prefixb e t) entity_tails)
      && amp_ok t
  end.

(** No [&] occurs. *)
Definition no_amp (s : jsstring) : bool :=
  forallb (fun c => negb (char_eqb c c_amp)) s.

End Text.

Import Text.

Section DocumentModel.

Variable Number_toString : num -> jsstring.

(** The assembled document cut into tags and texts: [render (doc_tokens st)]
    is what stands between [<lotus_param>] and [</lotus_param>].  [ind k] is
    a line break followed by [k] spaces, [sp k] is [k] spaces, and
    [elem n payload] is [<n>payload</n>]. *)
Definition ind (k : nat) : token := Txt (nl ++ repeat c_sp k).
Definition sp (k : nat) : token := Txt (repeat c_sp k).
Definition close_name (n : jsstring) : jsstring := 47%N :: n.
Definition elem (n payload : jsstring) : list token :=
  [Tag n; Txt payload; Tag (close_name n)].

Fixpoint join_tokens (sep : list token) (l : list (list token)) : list token :=
  match l with
  | [] => []
  | [x] => x
  | x :: rest => x ++ sep ++ join_tokens sep rest
  end.

Definition render_tokens (st : DialogState) : list token :=
  if rendering_engine (plugins st) then
    [ind 6; Tag (lit "render_interface"); ind 8]
    ++ elem (lit "publish_render") (bool_to_string (publishRender st))
    ++ [ind 8]
    ++ elem (lit "renderer_type_name") (escapeXml (rendererType st))
    ++ [ind 6; Tag (lit "/render_interface")]
  else [].

Definition thruster_name (idx : nat) : jsstring :=
  lit "thrusters" ++ index_to_string (idx + 1).

Definition thruster_tokens (thruster : jsstring) (idx : nat) : list token :=
  sp 8 :: elem (thruster_name idx) (escapeXml thruster).

Definition mode_tokens (st : DialogState) (m : PhysicsMode) : list token :=
  let config := physicsConfig st m in
  [ind 8; Tag (mode_key m); ind 10]
  ++ elem (lit "ConnectionType") (escapeXml (connectionType config))
  ++ [sp 24; ind 10]
  ++ elem (lit "uri") (escapeXml (uri config))
  ++ [ind 10; Tag (lit "thrusters"); ind 4]
  ++ join_tokens [Txt nl] (mapi thruster_tokens (thrusters config))
  ++ [ind 10; Tag (lit "/thrusters"); ind 8; Tag (close_name (mode_key m))].

Definition enabled_modes (st : DialogState) : list PhysicsMode :=
  map fst (filter (fun e => snd e) (physicsModes_entries st)).

Definition physics_tokens (st : DialogState) : list token :=
  if physics_engine (plugins st) then
    [ind 6; Tag (lit "physics_engine_interface")]
    ++ List.concat (map (mode_tokens st) (enabled_modes st))
    ++ [ind 8]
    ++ elem (lit "init_state") (escapeXml (initState st))
    ++ [ind 6; Tag (lit "/physics_engine_interface")]
  else [].

Definition limits_tokens (wf : WaypointFollower) : list token :=
  [ind 6]
  ++ elem (lit "loop") (bool_to_string (loop wf))
  ++ [ind 6]
  ++ elem (lit "linear_acceleration_limit")
       (Number_toString (linearAccLimit wf))
  ++ [ind 6]
  ++ elem (lit "angular_acceleration_limit")
       (Number_toString (angularAccLimit wf))
  ++ [ind 6]
  ++ elem (lit "angular_velocity_limit")
       (Number_toString (angularVelLimit wf))
  ++ [ind 4].

Definition waypoint_tokens (wp : Waypoint) : list token :=
  elem (lit "waypoint")
    (Number_toString (lat wp) ++ lit " " ++ Number_toString (lng wp)).

Definition waypoints_follower_tokens (wf : WaypointFollower) : list token :=
  [ind 8; Tag (lit "follower"); ind 10]
  ++ limits_tokens wf
  ++ [ind 10; Tag (lit "waypoints"); ind 12]
  ++ List.concat (map waypoint_tokens (waypoints wf))
  ++ [ind 10; Tag (lit "/waypoints"); ind 8; Tag (lit "/follower")].

Definition line_follower_tokens (wf : WaypointFollower) : list token :=
  [ind 8; Tag (lit "follower"); ind 10]
  ++ limits_tokens wf
  ++ [ind 10; Tag (lit "line"); ind 12]
  ++ elem (lit "direction") (Number_toString (direction (line wf)))
  ++ [ind 12]
  ++ elem (lit "length") (Number_toString (length (line wf)))
  ++ [ind 10; Tag (lit "/line"); ind 8; Tag (lit "/follower")].

Definition circle_follower_tokens (wf : WaypointFollower) : list token :=
  [ind 8; Tag (lit "follower"); ind 10]
  ++ limits_tokens wf
  ++ [ind 10; Tag (lit "circle"); ind 12]
  ++ elem (lit "radius") (Number_toString (radius (circle wf)))
  ++ [ind 10; Tag (lit "/circle"); ind 8; Tag (lit "/follower")].

Definition followers_tokens (wf : WaypointFollower) : list token :=
  (if jsstring_eqb (mode wf) (lit "waypoints")
      && (0 <? List.length (waypoints wf))
   then waypoints_follower_tokens wf else [])
  ++ (if jsstring_eqb (mode wf) (lit "line")
      then line_follower_tokens wf else [])
  ++ (if jsstring_eqb (mode wf) (lit "circle")
      then circle_follower_tokens wf else []).

Definition follower_block_tokens (st : DialogState) : list token :=
  let wf := waypointFollower st in
  if enabled wf then
    [ind 6; Tag (lit "waypoint_follower"); ind 8]
    ++ followers_tokens wf
    ++ [ind 6; Tag (lit "/waypoint_follower")]
  else [].

Definition doc_tokens (st : DialogState) : list token :=
  render_tokens st ++ physics_tokens st ++ follower_block_tokens st.

Definition is_reserved (c : char) : bool :=
  char_eqb c c_amp || char_eqb c c_lt || char_eqb c c_gt
  || char_eqb c c_quot || char_eqb c c_apos.

(** The entity that stands for a reserved code unit. *)
Definition escape_char (c : char) : jsstring :=
  if char_eqb c c_amp then lit "&amp;"
  else if char_eqb c c_lt then lit "&lt;"
  else if char_eqb c c_gt then lit "&gt;"
  else if char_eqb c c_quot then lit "&quot;"
  else if char_eqb c c_apos then lit "&apos;"
  else [c].

(** A follower is pushed: one of the three tests on [mode] succeeds. *)
Definition follower_emitted (wf : WaypointFollower) : bool :=
  jsstring_eqb (mode wf) (lit "waypoints") && (0 <? List.length (waypoints wf))
  || jsstring_eqb (mode wf) (lit "line")
  || jsstring_eqb (mode wf) (lit "circle").

Definition with_follower_enabled (b : bool) (st : DialogState) : DialogState :=
  let wf := waypointFollower st in
  {| plugins := plugins st;
     rendererType := rendererType st;
     publishRender := publishRender st;
     physicsModes := physicsModes st;
     physicsConfig := physicsConfig st;
     initState := initState st;
     waypointFollower :=
       {| enabled := b;
          loop := loop wf;
          linearAccLimit := linearAccLimit wf;
          angularAccLimit := angularAccLimit wf;
          angularVelLimit := angularVelLimit wf;
          mode := mode wf;
          waypoints := waypoints wf;
          line := line wf;
          circle := circle wf |} |}.

(** Text that escaping and the replacements leave as it is: no reserved
    code unit, no line break or tab, no two adjacent white-space code
    units, and not made of white space only. *)
Definition text_plain (t : jsstring) : bool :=
  forallb (fun c => negb (is_reserved c)) t
  && no_break t && no_ws_run t
  && match t with [] => true | _ => negb (forallb is_ws t) end.

Definition thruster_element (thruster : jsstring) (idx : nat) : jsstring :=
  lit "<thrusters" ++ index_to_string (idx + 1) ++ lit ">"
  ++ text_content (escapeXml thruster)
  ++ lit "</thrusters" ++ index_to_string (idx + 1) ++ lit ">".

Definition mode_element (st : DialogState) (m : PhysicsMode) : jsstring :=
  let config := physicsConfig st m in
  lit "<" ++ mode_key m ++ lit ">"
  ++ lit "<ConnectionType>" ++ text_content (escapeXml (connectionType config))
  ++ lit "</ConnectionType>"
  ++ lit "<uri>" ++ text_content (escapeXml (uri config)) ++ lit "</uri>"
  ++ lit "<thrusters>"
  ++ List.concat (mapi thruster_element (thrusters config))
  ++ lit "</thrusters>"
  ++ lit "</" ++ mode_key m ++ lit ">".

(** The state with every string field emptied (thruster lists keep their
    lengths). *)
Definition blank_strings (st : DialogState) : DialogState :=
  {| plugins := plugins st;
     rendererType := [];
     publishRender := publishRender st;
     physicsModes := physicsModes st;
     physicsConfig := fun m =>
       {| connectionType := [];
          uri := [];
          thrusters := map (fun _ => []) (thrusters (physicsConfig st m)) |};
     initState := [];
     waypointFollower := waypointFollower st |}.

Definition mode_strings (st : DialogState) (m : PhysicsMode) : list jsstring :=
  let config := physicsConfig st m in
  connectionType config :: uri config :: thrusters config.

(** The string fields that are embedded in the document, in document
    order. *)
Definition string_fields (st : DialogState) : list jsstring :=
  (if rendering_engine (plugins st) then [rendererType st] else [])
  ++ (if physics_engine (plugins st)
      then flat_map (mode_strings st) (enabled_modes st) ++ [initState st]
      else []).

Definition limit_numbers (wf : WaypointFollower) : list num :=
  [linearAccLimit wf; angularAccLimit wf; angularVelLimit wf].

Definition follower_numbers (wf : WaypointFollower) : list num :=
  (if jsstring_eqb (mode wf) (lit "waypoints")
      && (0 <? List.length (waypoints wf))
   then limit_numbers wf ++ flat_map (fun wp => [lat wp; lng wp]) (waypoints wf)
   else [])
  ++ (if jsstring_eqb (mode wf) (lit "line")
      then limit_numbers wf ++ [direction (line wf); length (line wf)]
      else [])
  ++ (if jsstring_eqb (mode wf) (lit "circle")
      then limit_numbers wf ++ [radius (circle wf)]
      else []).

(** The number fields that are embedded in the document, in document
    order. *)
Definition number_fields (st : DialogState) : list num :=
  if enabled (waypointFollower st)
  then follower_numbers (waypointFollower st) else [].

(** A stand-in for [Number::toString] that prints nothing. *)
Definition no_text : num -> jsstring := fun _ => [].

Definition token_amp_ok (t : token) : bool :=
  match t with
  | Tag n => no_amp n
  | Txt s => amp_ok s
  end.

End DocumentModel.

(** *** Sample dialog states *)

Module Samples.

(** A stand-in for [Number::toString] that prints every number as [0]. *)
Definition zero_text : num -> jsstring := fun _ => lit "0".

Definition sample_config (names : list jsstring) : ModeConfig :=
  {| connectionType := lit "TCPIP";
     uri := lit "tcp://host:1234/?a=1&b=<2>";
     thrusters := names |}.

Definition sample_follower (on : bool) (m : jsstring) (wps : list Waypoint)
  : WaypointFollower :=
  {| enabled := on;
     loop := true;
     linearAccLimit := 0.5%float;
     angularAccLimit := 0.125%float;
     angularVelLimit := 0.25%float;
     mode := m;
     waypoints := wps;
     line := {| direction := 90%float; length := 100%float |};
     circle := {| radius := 25%float |} |}.

Definition sample_state (render physics : bool) (names : list jsstring)
           (wf : WaypointFollower) : DialogState :=
  {| plugins := {| physics_engine := physics; rendering_engine := render |};
     rendererType := lit "Unity <HD> & 'co'";
     publishRender := true;
     physicsModes := fun m => match m with surface => true | _ => false end;
     physicsConfig := fun _ => sample_config names;
     initState := lit "Surface";
     waypointFollower := wf |}.

(** Every block disabled, with the fields of the blocks filled in. *)
Definition st_all_off : DialogState :=
  sample_state false false [lit "A"; lit "B"]
    (sample_follower false (lit "circle")
       [{| lat := 1.25%float; lng := 103.75%float |}]).

(** The follower enabled in waypoints mode, without a waypoint. *)
Definition st_empty_waypoints : DialogState :=
  sample_state false false [] (sample_follower true (lit "waypoints") []).

(** The follower enabled, no mode chosen (the initial value of [mode]). *)
Definition st_no_mode : DialogState :=
  sample_state true true [lit "A"; lit "B"; lit "C"]
    (sample_follower true [] []).

Definition st_circle : DialogState :=
  sample_state true true [lit "A"; lit "B"; lit "C"]
    (sample_follower true (lit "circle") []).

(** A thruster name with two spaces in a row. *)
Definition st_spaced_name : DialogState :=
  sample_state false true [lit "a  b"] (sample_follower false [] []).

End Samples.

(* ------------------------------------------------------------------ *)
(** ** The telemetry client ([WebSocketClient]) *)

Module WebSocket.

(** Values produced by [JSON.parse]. *)
#[local] Set Warnings "-register-all".
Inductive json :=
| JNull
| JBool (b : bool)
| JNumber (x : float)
| JString (s : jsstring)
| JArray (items : list json)
| JObject (props : list (jsstring * json)).

Fixpoint assoc (key : jsstring) (props : list (jsstring * json))
  : option json :=
  match props with
  | [] => None
  | (k, v) :: rest => if jsstring_eqb key k then Some v else assoc key rest
  end.

(** The completion of an evaluation: a value or a thrown error. *)
Inductive completion (A : Type) :=
| Normal (a : A)
| Thrown (error : jsstring).
Arguments Normal {A} a.
Arguments Thrown {A} error.

(** [item.key] for a key that is neither [length] nor an index (such keys
    are not own properties of arrays and strings).  [None] is
    [undefined]; reading a property of [null] throws a TypeError. *)
Definition member (item : json) (key : jsstring) : completion (option json) :=
  match item with
  | JNull => Thrown (lit "TypeError")
  | JObject props => Normal (assoc key props)
  | _ => Normal None
  end.

(** ToBoolean. *)
Definition truthy (v : option json) : bool :=
  match v with
  | None => false
  | Some JNull => false
  | Some (JBool b) => b
  | Some (JNumber x) => negb (PrimFloat.eqb x 0 || PrimFloat.is_nan x)
  | Some (JString s) => negb (jsstring_eqb s [])
  | Some (JArray _) => true
  | Some (JObject _) => true
  end.

(** [item => item.vessel_name && item.pose], reduced to its truth value. *)
Definition item_test (item : json) : completion bool :=
  match member item (lit "vessel_name") with
  | Thrown e => Thrown e
  | Normal a =>
      if truthy a then
        match member item (lit "pose") with
        | Thrown e => Thrown e
        | Normal b => Normal (truthy b)
        end
      else Normal false
  end.

(** [data.every(test)]: stops at the first falsy result, and at the first
    error. *)
Fixpoint every (test : json -> completion bool) (data : list json)
  : completion bool :=
  match data with
  | [] => Normal true
  | item :: rest =>
      match test item with
      | Thrown e => Thrown e
      | Normal true => every test rest
      | Normal false => Normal false
      end
  end.

Inductive level := Log | Warn | Error.

Definition is_diagnostic (l : level) : bool :=
  match l with Log => false | _ => true end.

Inductive ReadyState := CONNECTING | OPEN | CLOSING | CLOSED.

Record Socket := {
  url : jsstring;
  readyState : ReadyState;
  sent : list jsstring
}.

(** What the client acts on: the sockets it has created, the console, the
    calls of the vessel-data callback, and [localStorage]. *)
Record World := {
  sockets : list Socket;
  console : list (level * jsstring);
  calls : list (list json);
  storage : jsstring -> option jsstring
}.

(** The private field [ws]: [None] is [null], otherwise the index of the
    socket in [sockets]. *)
Record Client := { ws : option nat }.

Definition new_client : Client := {| ws := None |}.

Definition log (l : level) (msg : jsstring) (w : World) : World :=
  {| sockets := sockets w;
     console := console w ++ [(l, msg)];
     calls := calls w;
     storage := storage w |}.

(** The callback given to the constructor, [updateVesselData] in the
    dashboard, is called with [data]. *)
Definition vesselDataCallback (data : list json) (w : World) : World :=
  {| sockets := sockets w;
     console := console w;
     calls := calls w ++ [data];
     storage := storage w |}.

(** The dashboard state [vesselData]: [useState([])], set by each call. *)
Definition vesselData (w : World) : list json := last (calls w) [].

Definition set_sockets (l : list Socket) (w : World) : World :=
  {| sockets := l;
     console := console w;
     calls := calls w;
     storage := storage w |}.

Fixpoint update_socket (i : nat) (f : Socket -> Socket) (l : list Socket)
  : list Socket :=
  match l, i with
  | [], _ => []
  | s :: r, O => f s :: r
  | s :: r, S j => s :: update_socket j f r
  end.

Definition set_state (r : ReadyState) (s : Socket) : Socket :=
  {| url := url s; readyState := r; sent := sent s |}.

Definition send (msg : jsstring) (s : Socket) : Socket :=
  {| url := url s; readyState := readyState s; sent := sent s ++ [msg] |}.

(** [localStorage.getItem(key) || dflt]. *)
Definition stored_or (key dflt : jsstring) (w : World) : jsstring :=
  match storage w key with
  | Some (_ :: _ as v) => v
  | _ => dflt
  end.

(** What the browser provides and is not modelled: [JSON.parse] ([None]: a
    SyntaxError is thrown), [JSON.stringify] of an object with the single
    key [instance], and the check of the URL by the [WebSocket]
    constructor. *)
Record Host := {
  JSON_parse : jsstring -> option json;
  JSON_stringify_instance : jsstring -> jsstring;
  url_valid : jsstring -> bool
}.

Section Client.

Variable host : Host.

Definition getAddress_ip (w : World) : jsstring :=
  stored_or (lit "ip") (lit "localhost") w.

Definition getInstance (w : World) : jsstring :=
  stored_or (lit "instance") [] w.

Definition connect (c : Client) (w : World)
  : completion unit * Client * World :=
  let w := log Log (lit "WebSocket connecting.") w in
  match ws c with
  | Some _ =>
      (Normal tt, c, log Log (lit "WebSocket is already connected.") w)
  | None =>
      let u := lit "ws://" ++ getAddress_ip w ++ lit ":5000" in
      if url_valid host u then
        (Normal tt,
         {| ws := Some (List.length (sockets w)) |},
         set_sockets
           (sockets w ++ [{| url := u; readyState := CONNECTING; sent := [] |}])
           w)
      else (Thrown (lit "SyntaxError"), c, w)
  end.

(** [ws.close()] starts the closing handshake of a socket that is not
    already closing or closed. *)
Definition close (s : Socket) : Socket :=
  match readyState s with
  | CONNECTING | OPEN => set_state CLOSING s
  | _ => s
  end.

Definition disconnect (c : Client) (w : World) : Client * World :=
  match ws c with
  | Some i =>
      (c, log Log (lit "WebSocket connection closed.")
            (set_sockets (update_socket i close (sockets w)) w))
  | None => (c, w)
  end.

Definition is_open (c : Client) (w : World) : bool :=
  match ws c with
  | Some i =>
      match nth_error (sockets w) i with
      | Some s => match readyState s with OPEN => true | _ => false end
      | None => false
      end
  | None => false
  end.

Definition sendClientName (c : Client) (w : World) : World :=
  match ws c with
  | Some i =>
      if is_open c w then
        let instance := getInstance w in
        log Log (lit "Sent client name: " ++ instance)
          (set_sockets
             (update_socket i (send (JSON_stringify_instance host instance))
                (sockets w)) w)
      else log Error (lit "WebSocket connection is not open.") w
  | None => log Error (lit "WebSocket connection is not open.") w
  end.

Definition handleMessage (data : jsstring) (w : World) : World :=
  match JSON_parse host data with
  | None => log Error (lit "Error parsing incoming data:") w
  | Some parsed =>
      match parsed with
      | JArray items =>
          match every item_test items with
          | Thrown _ => log Error (lit "Error parsing incoming data:") w
          | Normal true => vesselDataCallback items w
          | Normal false => log Warn (lit "Received unexpected data format:") w
          end
      | _ => log Warn (lit "Received unexpected data format:") w
      end
  end.

(** What can happen to a client: calls of its public methods, the events of
    its socket, and changes of [localStorage] made elsewhere. *)
Inductive action :=
| Connect
| Disconnect
| SendClientName
| OnOpen
| OnMessage (data : jsstring)
| OnError
| OnClose (wasClean : bool)
| SetItem (key value : jsstring).

Definition set_item (key value : jsstring) (w : World) : World :=
  {| sockets := sockets w;
     console := console w;
     calls := calls w;
     storage := fun k =>
       if jsstring_eqb k key then Some value else storage w k |}.

(** The state of the socket the client holds. *)
Definition state_of (i : nat) (w : World) : option ReadyState :=
  option_map readyState (nth_error (sockets w) i).

Definition onopen (c : Client) (w : World) : World :=
  sendClientName c (log Log (lit "Connected to WebSocket server") w).

Definition onclose (wasClean : bool) (w : World) : World :=
  if wasClean then log Log (lit "Closed cleanly") w
  else log Error (lit "Connection died") w.

(** One action.  The handlers exist only once [connect] has created the
    socket; the browser opens a socket that is connecting, delivers messages
    until the socket is closed, and closes a socket once. *)
Definition step (a : action) (cw : Client * World) : Client * World :=
  let (c, w) := cw in
  match a with
  | Connect => let '(_, c', w') := connect c w in (c', w')
  | Disconnect => disconnect c w
  | SendClientName => (c, sendClientName c w)
  | SetItem k v => (c, set_item k v w)
  | OnOpen =>
      match ws c with
      | Some i =>
          match state_of i w with
          | Some CONNECTING =>
              (c, onopen c
                    (set_sockets
                       (update_socket i (set_state OPEN) (sockets w)) w))
          | _ => (c, w)
          end
      | None => (c, w)
      end
  | OnMessage data =>
      match ws c with
      | Some i =>
          match state_of i w with
          | Some OPEN | Some CLOSING => (c, handleMessage data w)
          | _ => (c, w)
          end
      | None => (c, w)
      end
  | OnError =>
      match ws c with
      | Some _ => (c, log Error (lit "WebSocket error:") w)
      | None => (c, w)
      end
  | OnClose wasClean =>
      match ws c with
      | Some i =>
          match state_of i w with
          | Some CLOSED | None => (c, w)
          | Some _ =>
              (c, onclose wasClean
                    (set_sockets
                       (update_socket i (set_state CLOSED) (sockets w)) w))
          end
      | None => (c, w)
      end
  end.

Definition run (trace : list action) (cw : Client * World) : Client * World :=
  fold_left (fun s a => step a s) trace cw.

(** A client just constructed, in a world where it has no socket yet. *)
Definition fresh (w : World) : bool :=
  match sockets w with [] => true | _ => false end.

Definition diagnostics (w : World) : nat :=
  List.length (filter (fun e => is_diagnostic (fst e)) (console w)).

(** An element of a valid batch: an object whose [vessel_name] and [pose]
    are truthy. *)
Definition has_truthy (key : jsstring) (item : json) : bool :=
  match item with
  | JObject props => truthy (assoc key props)
  | _ => false
  end.

Definition valid_item (item : json) : bool :=
  has_truthy (lit "vessel_name") item && has_truthy (lit "pose") item.

Definition active (s : Socket) : bool :=
  match readyState s with
  | CONNECTING | OPEN => true
  | _ => false
  end.

Definition valid_message (data : jsstring) : bool :=
  match JSON_parse host data with
  | Some (JArray items) => forallb valid_item items
  | _ => false
  end.

Definition one_socket (cw : Client * World) : Prop :=
  match ws (fst cw) with
  | None => sockets (snd cw) = []
  | Some _ => List.length (sockets (snd cw)) = 1
  end.

End Client.

(** *** Sample messages and worlds *)

Definition sample_pose : json :=
  JObject [(lit "latitude", JNumber 1.25%float);
           (lit "longitude", JNumber 103.75%float);
           (lit "elevation", JNumber 0%float);
           (lit "heading", JNumber 90%float)].

Definition sample_batch : list json :=
  [JObject [(lit "vessel_name", JString (lit "v1"));
            (lit "pose", sample_pose)]].

(** A batch whose element has no [vessel_name]. *)
Definition sample_bad_batch : list json :=
  [JObject [(lit "pose", sample_pose)]].

(** A parser that knows two messages. *)
Definition sample_parse (data : jsstring) : option json :=
  if jsstring_eqb data (lit "batch") then Some (JArray sample_batch)
  else if jsstring_eqb data (lit "bad") then Some (JArray sample_bad_batch)
  else None.

Definition empty_world : World :=
  {| sockets := []; console := []; calls := []; storage := fun _ => None |}.

Definition sample_stringify (instance : jsstring) : jsstring :=
  lit "{'instance':'" ++ instance ++ lit "'}".

Definition sample_host : Host :=
  {| JSON_parse := sample_parse;
     JSON_stringify_instance := sample_stringify;
     url_valid := fun _ => true |}.

Definition connected_client : Client := {| ws := Some 0 |}.

Definition connected_world : World :=
  {| sockets := [{| url := lit "ws://localhost:5000";
                    readyState := OPEN; sent := [] |}];
     console := []; calls := []; storage := fun _ => None |}.

End WebSocket.

(* ------------------------------------------------------------------ *)
(** ** The size of a marker icon ([getIconSize]) *)

Module Marker.

#[local] Open Scope float_scope.

(** JavaScript numbers are IEEE 754 doubles, as are the primitive floats
    used here, with the same rounding of [+] and [*]. *)
Definition getIconSize (zoomLevel : float) : list float :=
  let baseSize := 0.5 in
  let scaledSize := baseSize + zoomLevel in
  [scaledSize; scaledSize * 1.625].

(** [getIconSize(zoomLevel)[0]] and [getIconSize(zoomLevel)[1]]. *)
Definition icon_width (zoomLevel : float) : float :=
  nth 0 (getIconSize zoomLevel) nan.

Definition icon_height (zoomLevel : float) : float :=
  nth 1 (getIconSize zoomLevel) nan.

Definition float_of_nat (k : nat) : float :=
  PrimFloat.of_uint63 (Uint63.of_Z (BinInt.Z.of_nat k)).

(** At the whole zoom level [k] no rounding takes place: twice the width is
    the integer [2k+1], and sixteen times the height is [13(2k+1)], that is,
    the height is exactly 1.625 times the width [k + 0.5]. *)
Definition exact_at (k : nat) : bool :=
  PrimFloat.eqb (icon_width (float_of_nat k) * 2) (float_of_nat (2 * k + 1))
  && PrimFloat.eqb (icon_height (float_of_nat k) * 16)
       (float_of_nat (13 * (2 * k + 1))).

End Marker.

(* ------------------------------------------------------------------ *)
(** ** The nesting of the document, and what is counted in it *)

Module Markup.

Definition c_slash : char := 47%N.

(** A check of the nesting of a document, read from left to right.  [stack]
    holds the names of the open elements, the innermost first; [cur] is the
    text of the tag that is being read, if any.  A tag whose text starts
    with [/] closes the innermost open element and must carry its name; any
    other tag opens an element.  There is no [>] outside a tag, no [<]
    inside a tag, no empty tag, and at the end every element is closed. *)
Fixpoint well_nested_from (stack : list jsstring) (cur : option jsstring)
         (s : jsstring) : bool :=
  match s with
  | [] =>
      match cur, stack with
      | None, [] => true
      | _, _ => false
      end
  | c :: t =>
      match cur with
      | None =>
          if char_eqb c c_lt then well_nested_from stack (Some []) t
          else if char_eqb c c_gt then false
          else well_nested_from stack None t
      | Some n =>
          if char_eqb c c_gt then
            match n with
            | [] => false
            | d :: m =>
                if char_eqb d c_slash then
                  match stack with
                  | top :: rest =>
                      jsstring_eqb m top && well_nested_from rest None t
                  | [] => false
                  end
                else well_nested_from (n :: stack) None t
            end
          else if char_eqb c c_lt then false
          else well_nested_from stack (Some (n ++ [c])) t
      end
  end.

Definition well_nested (s : jsstring) : bool := well_nested_from [] None s.

(** The same check on tokens: the stack after the tokens, if they nest. *)
Fixpoint nest (stack : list jsstring) (ts : list token)
  : option (list jsstring) :=
  match ts with
  | [] => Some stack
  | Txt _ :: r => nest stack r
  | Tag n :: r =>
      match n with
      | [] => None
      | d :: m =>
          if char_eqb d c_slash then
            match stack with
            | top :: rest => if jsstring_eqb m top then nest rest r else None
            | [] => None
            end
          else nest (n :: stack) r
      end
  end.

(** The name of an element: not empty, and not starting with [/]. *)
Definition opens (n : jsstring) : bool :=
  match n with
  | d :: _ => negb (char_eqb d c_slash)
  | [] => false
  end.

(** A section of the document as the source writes it: nothing, or white
    space, then text from a [<] to a [>]. *)
Definition is_section (s : jsstring) : Prop :=
  s = [] \/ exists w b, forallb is_ws w = true /\ s = w ++ c_lt :: b ++ [c_gt].

(** Tokens that leave every stack as they found it. *)
Definition neutral (ts : list token) : Prop :=
  forall stack, nest stack ts = Some stack.

(** The tags of the element of a physics mode, without its thruster
    elements. *)
Definition mode_frame (m : PhysicsMode) : list token :=
  [Tag (mode_key m); Tag (lit "ConnectionType"); Tag (lit "/ConnectionType");
   Tag (lit "uri"); Tag (lit "/uri"); Tag (lit "thrusters");
   Tag (lit "/thrusters"); Tag (close_name (mode_key m))].

(** A name that is not the name of a thruster element or of its end tag. *)
Definition not_thruster (n : jsstring) : Prop :=
  forall idx, jsstring_eqb n (thruster_name idx) = false
              /\ jsstring_eqb n (close_name (thruster_name idx)) = false.

(** The code units of a string that are not white space, in order. *)
Definition ink (s : jsstring) : jsstring :=
  filter (fun c => negb (is_ws c)) s.

(** [b] as a number: 1 for [true]. *)
Definition b2n (b : bool) : nat := if b then 1 else 0.

End Markup.

(* ------------------------------------------------------------------ *)
(** ** The controls of the add-vessel dialog *)

Module Dialog.

Definition c_comma : char := 44%N.

(** [s.split(",")]: the pieces of [s] between its commas. *)
Fixpoint split_comma (s : jsstring) : list jsstring :=
  match s with
  | [] => [[]]
  | c :: t =>
      if char_eqb c c_comma then [] :: split_comma t
      else
        match split_comma t with
        | piece :: rest => (c :: piece) :: rest
        | [] => [[c]]
        end
  end.

(** What the thruster field stores when its text changes:
    [e.target.value.split(",").map((t) => t.trim())]. *)
Definition thrusters_of_input (value : jsstring) : list jsstring :=
  map trim (split_comma value).

(** What the thruster field shows: [thrusters.join(", ")]. *)
Definition thrusters_value (thrusters : list jsstring) : jsstring :=
  join (lit ", ") thrusters.

Definition no_comma (t : jsstring) : bool :=
  forallb (fun c => negb (char_eqb c c_comma)) t.

(** A thruster name as the field stores it. *)
Definition stored_name (t : jsstring) : Prop :=
  trim t = t /\ no_comma t = true.

(** A lower-case letter of the Basic Latin block. *)
Definition is_lower (c : char) : bool := ((97 <=? c) && (c <=? 122))%N.

(** What is used of [String.prototype.toUpperCase], which is not modelled:
    its value on a lower-case letter of the Basic Latin block. *)
Definition upper_latin (toUpperCase : jsstring -> jsstring) : Prop :=
  forall c, is_lower c = true -> toUpperCase [c] = [(c - 32)%N].

Section Options.

Variable toUpperCase : jsstring -> jsstring.

(** [s.charAt(0)] and [s.slice(1)]. *)
Definition charAt0 (s : jsstring) : jsstring :=
  match s with
  | c :: _ => [c]
  | [] => []
  end.

Definition slice1 (s : jsstring) : jsstring := tl s.

(** The options of the select [Initial State]. *)
Definition initStateOptions (st : DialogState) : list jsstring :=
  map (fun e => toUpperCase (charAt0 (mode_key (fst e)))
                ++ slice1 (mode_key (fst e)))
    (filter (fun e => snd e) (physicsModes_entries st)).

End Options.

Definition mode_label (m : PhysicsMode) : jsstring :=
  match m with
  | aerial => lit "Aerial"
  | surface => lit "Surface"
  | underwater => lit "Underwater"
  end.

(** [toUpperCase] on the Basic Latin block, one code unit at a time. *)
Definition toUpperCase_latin (s : jsstring) : jsstring :=
  map (fun c => if is_lower c then (c - 32)%N else c) s.

(** *** The inputs of the waypoint follower and of the position *)

#[local] Set Warnings "-inexact-float".

(** [useState] of [waypointFollower]. *)
Definition initial_follower : WaypointFollower :=
  {| enabled := false;
     loop := true;
     linearAccLimit := 0.5%float;
     angularAccLimit := 0.005%float;
     angularVelLimit := 0.01%float;
     mode := [];
     waypoints := [];
     line := {| direction := 0%float; length := 0%float |};
     circle := {| radius := 0%float |} |}.

(** A change of one control of the waypoint follower; [value] is the text
    of the input, [checked] the state of the check box. *)
Inductive follower_input :=
| SetEnabled (checked : bool)
| SetLoop (checked : bool)
| SetLinearAccLimit (value : jsstring)
| SetAngularAccLimit (value : jsstring)
| SetAngularVelLimit (value : jsstring)
| SetMode (value : jsstring)
| SetWaypointLat (idx : nat) (value : jsstring)
| SetWaypointLng (idx : nat) (value : jsstring)
| AddWaypoint
| SetDirection (value : jsstring)
| SetLength (value : jsstring)
| SetRadius (value : jsstring).

(** [waypoints[idx] = f(waypoints[idx])] on a copy of the array; without an
    element at [idx] the assignment to a property of [undefined] throws
    ([None]). *)
Fixpoint set_waypoint (idx : nat) (f : Waypoint -> Waypoint)
         (l : list Waypoint) : option (list Waypoint) :=
  match l, idx with
  | [], _ => None
  | wp :: r, O => Some (f wp :: r)
  | wp :: r, S k => option_map (cons wp) (set_waypoint k f r)
  end.








Section Inputs.

(** [parseFloat] is not modelled. *)
Variable parseFloat : jsstring -> num.

(** [parseFloat(value) || 0]: zero and NaN are falsy. *)
Definition parsed_or_zero (value : jsstring) : num :=
  let x := parseFloat value in
  if PrimFloat.eqb x 0%float || PrimFloat.is_nan x then 0%float else x.

(** The updaters given to [setWaypointFollower]. *)
Definition setWaypointFollower (i : follower_input) (prev : WaypointFollower)
  : option WaypointFollower :=
  let with_waypoints l :=
    {| enabled := enabled prev; loop := loop prev;
       linearAccLimit := linearAccLimit prev;
       angularAccLimit := angularAccLimit prev;
       angularVelLimit := angularVelLimit prev;
       mode := mode prev; waypoints := l;
       line := line prev; circle := circle prev |} in
  let with_line l :=
    {| enabled := enabled prev; loop := loop prev;
       linearAccLimit := linearAccLimit prev;
       angularAccLimit := angularAccLimit prev;
       angularVelLimit := angularVelLimit prev;
       mode := mode prev; waypoints := waypoints prev;
       line := l; circle := circle prev |} in
  match i with
  | SetEnabled checked =>
      Some {| enabled := checked; loop := loop prev;
              linearAccLimit := linearAccLimit prev;
              angularAccLimit := angularAccLimit prev;
              angularVelLimit := angularVelLimit prev;
              mode := mode prev; waypoints := waypoints prev;
              line := line prev; circle := circle prev |}
  | SetLoop checked =>
      Some {| enabled := enabled prev; loop := checked;
              linearAccLimit := linearAccLimit prev;
              angularAccLimit := angularAccLimit prev;
              angularVelLimit := angularVelLimit prev;
              mode := mode prev; waypoints := waypoints prev;
              line := line prev; circle := circle prev |}
  | SetLinearAccLimit value =>
      Some {| enabled := enabled prev; loop := loop prev;
              linearAccLimit := parsed_or_zero value;
              angularAccLimit := angularAccLimit prev;
              angularVelLimit := angularVelLimit prev;
              mode := mode prev; waypoints := waypoints prev;
              line := line prev; circle := circle prev |}
  | SetAngularAccLimit value =>
      Some {| enabled := enabled prev; loop := loop prev;
              linearAccLimit := linearAccLimit prev;
              angularAccLimit := parsed_or_zero value;
              angularVelLimit := angularVelLimit prev;
              mode := mode prev; waypoints := waypoints prev;
              line := line prev; circle := circle prev |}
  | SetAngularVelLimit value =>
      Some {| enabled := enabled prev; loop := loop prev;
              linearAccLimit := linearAccLimit prev;
              angularAccLimit := angularAccLimit prev;
              angularVelLimit := parsed_or_zero value;
              mode := mode prev; waypoints := waypoints prev;
              line := line prev; circle := circle prev |}
  | SetMode value =>
      Some {| enabled := enabled prev; loop := loop prev;
              linearAccLimit := linearAccLimit prev;
              angularAccLimit := angularAccLimit prev;
              angularVelLimit := angularVelLimit prev;
              mode := value; waypoints := waypoints prev;
              line := line prev; circle := circle prev |}
  | SetWaypointLat idx value =>
      let val := parsed_or_zero value in
      option_map with_waypoints
        (set_waypoint idx (fun wp => {| lat := val; lng := lng wp |})
           (waypoints prev))
  | SetWaypointLng idx value =>
      let val := parsed_or_zero value in
      option_map with_waypoints
        (set_waypoint idx (fun wp => {| lat := lat wp; lng := val |})
           (waypoints prev))
  | AddWaypoint =>
      Some (with_waypoints
              (waypoints prev ++ [{| lat := 0%float; lng := 0%float |}]))
  | SetDirection value =>
      Some (with_line {| direction := parsed_or_zero value;
                         length := length (line prev) |})
  | SetLength value =>
      Some (with_line {| direction := direction (line prev);
                         length := parsed_or_zero value |})
  | SetRadius value =>
      Some {| enabled := enabled prev; loop := loop prev;
              linearAccLimit := linearAccLimit prev;
              angularAccLimit := angularAccLimit prev;
              angularVelLimit := angularVelLimit prev;
              mode := mode prev; waypoints := waypoints prev;
              line := line prev;
              circle := {| radius := parsed_or_zero value |} |}
  end.

(** The inputs one after the other; [None] once an updater has thrown. *)
Fixpoint follower_after (inputs : list follower_input)
         (wf : WaypointFollower) : option WaypointFollower :=
  match inputs with
  | [] => Some wf
  | i :: rest =>
      match setWaypointFollower i wf with
      | Some wf' => follower_after rest wf'
      | None => None
      end
  end.



End Inputs.

(** Every number that the follower holds. *)
Definition all_numbers (wf : WaypointFollower) : list num :=
  [linearAccLimit wf; angularAccLimit wf; angularVelLimit wf;
   direction (line wf); length (line wf); radius (circle wf)]
  ++ flat_map (fun wp => [lat wp; lng wp]) (waypoints wf).

(** None of the numbers of the follower is NaN. *)
Definition numbers_ok (wf : WaypointFollower) : Prop :=
  Forall (fun x => PrimFloat.is_nan x = false) (all_numbers wf).

Definition is_add (i : follower_input) : bool :=
  match i with
  | AddWaypoint => true
  | _ => false
  end.

(** The input edits a waypoint that the list does not have. *)
Definition out_of_range (i : follower_input) (wf : WaypointFollower) : bool :=
  match i with
  | SetWaypointLat idx _ | SetWaypointLng idx _ =>
      List.length (waypoints wf) <=? idx
  | _ => false
  end.



(** *** The command that spawns the vessel *)

Import WebSocket.






End Dialog.

(* ------------------------------------------------------------------ *)
(** ** The dashboard: the effect that owns the telemetry client *)

Module Dashboard.

Import WebSocket.

(** An event of a socket, delivered to the handlers that [connect] has set
    on it. *)
Inductive socket_event :=
| Opened
| Received (data : jsstring)
| Failed
| Closed (wasClean : bool).

Definition to_action (e : socket_event) : action :=
  match e with
  | Opened => OnOpen
  | Received data => OnMessage data
  | Failed => OnError
  | Closed wasClean => OnClose wasClean
  end.

Inductive lifecycle :=
| Effect
| Cleanup
| SocketEvent (i : nat) (e : socket_event)
| StorageSet (key value : jsstring).

Section Lifecycle.

Variable host : Host.

(** The effect of [HomeDashboard] on the ref [ws_client] and the world.
    [fetchData] only sends HTTP requests and is left out. *)
Definition effect (ws_client : option Client) (w : World)
  : option Client * World :=
  match ws_client with
  | Some c => (Some c, w)
  | None => let '(_, c, w') := connect host new_client w in (Some c, w')
  end.

(** The clean-up of the effect: [ws_client.current?.disconnect()], then the
    ref is set to [null]. *)
Definition cleanup (ws_client : option Client) (w : World)
  : option Client * World :=
  match ws_client with
  | Some c => (None, snd (disconnect c w))
  | None => (None, w)
  end.

(** One step of the life of the dashboard.  The handlers of socket [i]
    belong to the client that created it, whose field [ws] is that
    socket. *)
Definition dashboard_step (e : lifecycle) (s : option Client * World)
  : option Client * World :=
  let (ws_client, w) := s in
  match e with
  | Effect => effect ws_client w
  | Cleanup => cleanup ws_client w
  | SocketEvent i ev =>
      (ws_client, snd (step host (to_action ev) ({| ws := Some i |}, w)))
  | StorageSet key value => (ws_client, set_item key value w)
  end.

Definition dashboard_run (trace : list lifecycle) (s : option Client * World)
  : option Client * World :=
  fold_left (fun s e => dashboard_step e s) trace s.

(** The sockets that are connecting or open. *)
Definition live (w : World) : list Socket := filter active (sockets w).

(** Every live socket is the one the current client holds. *)
Definition owned (s : option Client * World) : Prop :=
  forall j x, nth_error (sockets (snd s)) j = Some x -> active x = true ->
              exists c, fst s = Some c /\ ws c = Some j.

(** The messages received one after the other. *)
Definition receive (msgs : list jsstring) (w : World) : World :=
  fold_left (fun w data => handleMessage host data w) msgs w.

(** The batch of the last valid message, if there is one. *)
Definition latest_valid (msgs : list jsstring) : option (list json) :=
  fold_left
    (fun acc data =>
       match JSON_parse host data with
       | Some (JArray items) =>
           if forallb valid_item items then Some items else acc
       | _ => acc
       end)
    msgs None.

(** The number of messages that are not valid. *)
Definition invalid_count (msgs : list jsstring) : nat :=
  List.length (filter (fun data => negb (valid_message host data)) msgs).

(** The first element of a batch that is not valid, if there is one. *)
Definition first_invalid (items : list json) : option json :=
  find (fun item => negb (valid_item item)) items.

(** The level at which a message that is not valid is reported:
    [console.error] when [JSON.parse] throws or when the test of the
    elements throws, which it does at an element [null] reached before any
    other element that is not valid; [console.warn] otherwise. *)
Definition dropped_level (data : jsstring) : level :=
  match JSON_parse host data with
  | None => Error
  | Some (JArray items) =>
      match first_invalid items with
      | Some JNull => Error
      | _ => Warn
      end
  | Some _ => Warn
  end.


End Lifecycle.

(** [mono w w']: every socket that is live in [w'] was live in [w]. *)
Definition mono (w w' : World) : Prop :=
  forall j x', nth_error (sockets w') j = Some x' -> active x' = true ->
               exists x, nth_error (sockets w) j = Some x /\ active x = true.

End Dashboard.

(** *** More sample states, inputs and traces *)

Module MoreSamples.

Import Samples Dialog WebSocket Dashboard.

#[local] Set Warnings "-inexact-float".

(** The surface mode with the thruster list of an emptied field. *)
Definition st_blank_thruster : DialogState :=
  sample_state false true [[]] (sample_follower false [] []).

(** A [parseFloat] that reads no number. *)
Definition parse_nothing : jsstring -> num := fun _ => nan.

Definition sample_inputs : list follower_input :=
  [SetEnabled true; SetMode (lit "waypoints"); AddWaypoint;
   SetLinearAccLimit (lit "abc"); AddWaypoint; SetWaypointLat 1 (lit "x")].

(** The follower after [sample_inputs], read with [parse_nothing]. *)
Definition sample_follower_after : WaypointFollower :=
  {| enabled := true;
     loop := true;
     linearAccLimit := 0%float;
     angularAccLimit := 0.005%float;
     angularVelLimit := 0.01%float;
     mode := lit "waypoints";
     waypoints := [{| lat := 0%float; lng := 0%float |};
                   {| lat := 0%float; lng := 0%float |}];
     line := {| direction := 0%float; length := 0%float |};
     circle := {| radius := 0%float |} |}.

Definition st_two_waypoints : DialogState :=
  sample_state false false [] sample_follower_after.



Definition sample_lifecycle : list lifecycle :=
  [Effect; SocketEvent 0 Opened; Cleanup; SocketEvent 0 (Closed true);
   Effect; SocketEvent 0 Opened; SocketEvent 1 Opened].

(** A host whose parser also knows a batch that starts with [null]. *)
Definition sample_host_null : Host :=
  {| JSON_parse := fun data =>
       if jsstring_eqb data (lit "nulls")
       then Some (JArray (JNull :: sample_bad_batch))
       else sample_parse data;
     JSON_stringify_instance := sample_stringify;
     url_valid := fun _ => true |}.

(** The connected client after [disconnect] and the close of its socket. *)
Definition closed_world : World :=
  snd (run sample_host [Disconnect; OnClose true]
         (connected_client, connected_world)).

End MoreSamples.

(* ------------------------------------------------------------------ *)
(** ** Facts about the string operations *)

Module JSFacts.

Lemma replace_from_skipn m r n s :
  replace_from m r n s = replace_from m r 0 (skipn n s).
Proof.
  revert n; induction s as [|c t IH]; intros [|n]; simpl; auto.
Qed.

Lemma replace_all_nil m r : replace_all m r [] = [].
Proof. reflexivity. Qed.

Lemma replace_all_cons m r c t :
  replace_all m r (c :: t) =
  match m (c :: t) with
  | Some (S n) => r ++ replace_all m r (skipn n t)
  | _ => c :: replace_all m r t
  end.
Proof.
  unfold replace_all; simpl.
  destruct (m (c :: t)) as [[|n]|]; auto.
  now rewrite replace_from_skipn.
Qed.

(** Replacing a one-unit class is a [flat_map]. *)
Lemma replace_class p r s :
  replace_all (re_class p) r s = flat_map (fun c => if p c then r else [c]) s.
Proof.
  induction s as [|c t IH]; [reflexivity|].
  rewrite replace_all_cons; simpl.
  destruct (p c); simpl; now rewrite IH.
Qed.

Lemma drop_ws_skipn s : drop_ws s = skipn (span_ws s) s.
Proof.
  induction s as [|c t IH]; simpl; auto.
  destruct (is_ws c); simpl; auto.
Qed.

Lemma drop_ws_length s : List.length (drop_ws s) <= List.length s.
Proof.
  induction s as [|c t IH]; simpl; auto.
  destruct (is_ws c); simpl; lia.
Qed.

Lemma span_ws_app_stop a c b :
  is_ws c = false -> span_ws (a ++ c :: b) = span_ws a.
Proof.
  intros Hc; induction a as [|x a IH]; simpl.
  - now rewrite Hc.
  - destruct (is_ws x); auto.
Qed.

Lemma drop_ws_app_stop a c b :
  is_ws c = false -> drop_ws (a ++ c :: b) = drop_ws a ++ c :: b.
Proof.
  intros Hc; induction a as [|x a IH]; simpl.
  - now rewrite Hc.
  - destruct (is_ws x); auto.
Qed.

Lemma span_ws_all a : forallb is_ws a = true -> span_ws a = List.length a.
Proof.
  induction a as [|x a IH]; simpl; auto.
  destruct (is_ws x); simpl; [intros; f_equal; auto | discriminate].
Qed.

Lemma drop_ws_all a : forallb is_ws a = true -> drop_ws a = [].
Proof.
  induction a as [|x a IH]; simpl; auto.
  destruct (is_ws x); simpl; [auto | discriminate].
Qed.

(** *** The three replacements, as equations *)

Lemma strip_breaks_filter s :
  strip_breaks s = filter (fun c => negb (is_break c)) s.
Proof.
  unfold strip_breaks; rewrite replace_class.
  induction s as [|c t IH]; simpl; auto.
  fold (is_break c). destruct (is_break c); simpl; now rewrite IH.
Qed.

Lemma strip_breaks_app a b :
  strip_breaks (a ++ b) = strip_breaks a ++ strip_breaks b.
Proof. rewrite !strip_breaks_filter; apply filter_app. Qed.

Lemma collapse_ws_cons c t :
  collapse_ws (c :: t) =
  if is_ws c && (0 <? span_ws t) then c_sp :: collapse_ws (drop_ws t)
  else c :: collapse_ws t.
Proof.
  unfold collapse_ws; rewrite replace_all_cons.
  unfold re_ws2; simpl span_ws.
  destruct (is_ws c); simpl; auto.
  destruct (span_ws t) as [|k] eqn:E; simpl; auto.
  rewrite drop_ws_skipn, E; reflexivity.
Qed.

Lemma close_tags_cons c t :
  close_tags (c :: t) =
  match drop_ws t with
  | d :: u =>
      if char_eqb c c_gt && (0 <? span_ws t) && char_eqb d c_lt
      then c_gt :: c_lt :: close_tags u
      else c :: close_tags t
  | [] => c :: close_tags t
  end.
Proof.
  unfold close_tags; rewrite replace_all_cons.
  unfold re_gt_ws_lt. rewrite drop_ws_skipn.
  destruct (span_ws t) as [|k] eqn:E.
  - rewrite andb_false_r.
    destruct (char_eqb c c_gt); destruct (skipn 0 t); auto.
  - destruct (skipn (S k) t) as [|d u] eqn:E2.
    + destruct (char_eqb c c_gt); auto.
    + destruct (char_eqb c c_gt); [|reflexivity].
      destruct (char_eqb d c_lt); [|reflexivity].
      replace (S k + 2) with (S (S (S k))) by lia.
      assert (skipn (S (S k)) t = u) as ->; [|reflexivity].
      replace (S (S k)) with (1 + S k) by lia.
      rewrite <- skipn_skipn, E2. reflexivity.
Qed.

(** *** Induction on the length of a string *)

Lemma length_ind (P : list char -> Prop) :
  (forall s, (forall u, List.length u < List.length s -> P u) -> P s) ->
  forall s : list char, P s.
Proof.
  intros H s.
  assert (forall n u, List.length u < n -> P u) as G.
  { induction n as [|n IH]; intros u Hu; [lia|].
    apply H; intros v Hv; apply IH; lia. }
  apply (G (S (List.length s))); lia.
Qed.

(** *** How the replacements act on a concatenation *)

Lemma collapse_ws_app_stop a c b :
  is_ws c = false ->
  collapse_ws (a ++ c :: b) = collapse_ws a ++ c :: collapse_ws b.
Proof.
  intros Hc; induction a as [a IH] using length_ind.
  destruct a as [|x a]; simpl app.
  - rewrite collapse_ws_cons, Hc; reflexivity.
  - rewrite !collapse_ws_cons, span_ws_app_stop, drop_ws_app_stop by assumption.
    destruct (is_ws x && (0 <? span_ws a)); simpl; f_equal; apply IH; simpl.
    + pose proof (drop_ws_length a); lia.
    + lia.
Qed.

Lemma close_tags_app_gt a z :
  close_tags (a ++ c_gt :: z) = close_tags a ++ close_tags (c_gt :: z).
Proof.
  induction a as [a IH] using length_ind.
  destruct a as [|x a]; [reflexivity|]. simpl app.
  rewrite (close_tags_cons x (a ++ _)), (close_tags_cons x a).
  rewrite span_ws_app_stop, drop_ws_app_stop by reflexivity.
  destruct (drop_ws a) as [|d u] eqn:E; simpl app.
  - cbv iota. change (char_eqb c_gt c_lt) with false.
    rewrite andb_false_r. simpl; f_equal; apply IH; simpl; lia.
  - cbv iota.
    destruct (char_eqb x c_gt && (0 <? span_ws a) && char_eqb d c_lt); simpl.
    + do 2 f_equal. apply IH. simpl.
      pose proof (drop_ws_length a) as L; rewrite E in L; simpl in L; lia.
    + f_equal; apply IH; simpl; lia.
Qed.

Lemma close_tags_keep c t :
  char_eqb c c_gt = false -> close_tags (c :: t) = c :: close_tags t.
Proof.
  intros H; rewrite close_tags_cons, H; simpl. now destruct (drop_ws t).
Qed.

Lemma no_angle_app a b : no_angle (a ++ b) = no_angle a && no_angle b.
Proof. apply forallb_app. Qed.

Lemma close_tags_text p z :
  no_angle p = true -> close_tags (p ++ z) = p ++ close_tags z.
Proof.
  induction p as [|c p IH]; simpl; intros H; [reflexivity|].
  apply andb_true_iff in H as [H1 H2]. apply andb_true_iff in H1 as [_ H1].
  rewrite close_tags_keep, IH; auto. now destruct (char_eqb c c_gt).
Qed.

Lemma no_angle_drop_ws p : no_angle p = true -> no_angle (drop_ws p) = true.
Proof.
  induction p as [|c p IH]; simpl; auto.
  destruct (is_ws c); simpl; auto. intros H; apply IH.
  now apply andb_true_iff in H as [_ H].
Qed.

Lemma drop_ws_nil_all p : drop_ws p = [] -> forallb is_ws p = true.
Proof.
  induction p as [|c p IH]; simpl; auto.
  destruct (is_ws c); simpl; auto. discriminate.
Qed.

Lemma drop_ws_head c u p : drop_ws p = c :: u -> is_ws c = false.
Proof.
  induction p as [|x p IH]; simpl; [discriminate|].
  destruct (is_ws x) eqn:E; auto. intros [= -> _]; exact E.
Qed.

Lemma drop_ws_not_all c u p : drop_ws p = c :: u -> forallb is_ws p = false.
Proof.
  induction p as [|x p IH]; simpl; [discriminate|].
  destruct (is_ws x) eqn:E; simpl; auto.
Qed.

Lemma close_tags_gap p y :
  no_angle p = true ->
  close_tags (c_gt :: p ++ c_lt :: y) = c_gt :: gap p ++ c_lt :: close_tags y.
Proof.
  intros Hp. rewrite close_tags_cons.
  rewrite span_ws_app_stop, drop_ws_app_stop by reflexivity.
  unfold gap. destruct (drop_ws p) as [|d u] eqn:E; simpl app.
  - rewrite (drop_ws_nil_all _ E).
    destruct p as [|x p].
    + simpl. now rewrite close_tags_keep.
    + assert ((0 <? span_ws (x :: p)) = true) as ->.
      { simpl in *. destruct (is_ws x); [reflexivity | discriminate]. }
      reflexivity.
  - rewrite (drop_ws_not_all _ E).
    assert (char_eqb d c_lt = false) as ->.
    { apply no_angle_drop_ws in Hp. rewrite E in Hp. simpl in Hp.
      destruct (char_eqb d c_lt); [discriminate | reflexivity]. }
    rewrite andb_false_r.
    rewrite close_tags_text by assumption. now rewrite close_tags_keep.
Qed.

Lemma no_angle_strip p : no_angle p = true -> no_angle (strip_breaks p) = true.
Proof.
  rewrite strip_breaks_filter. unfold no_angle. rewrite !forallb_forall.
  intros H c Hc. apply filter_In in Hc as [Hc _]. auto.
Qed.

Lemma no_angle_collapse p :
  no_angle p = true -> no_angle (collapse_ws p) = true.
Proof.
  induction p as [p IH] using length_ind. destruct p as [|c p]; auto.
  intros H. rewrite collapse_ws_cons.
  simpl in H. apply andb_true_iff in H as [H1 H2].
  destruct (is_ws c && (0 <? span_ws p)); simpl.
  - apply IH; [simpl; pose proof (drop_ws_length p); lia|].
    now apply no_angle_drop_ws.
  - rewrite H1. apply IH; simpl; auto.
Qed.

Lemma no_angle_gap p : no_angle p = true -> no_angle (gap p) = true.
Proof. unfold gap. now destruct (forallb is_ws p). Qed.

Lemma no_angle_text_content p :
  no_angle p = true -> no_angle (text_content p) = true.
Proof.
  intros H. apply no_angle_gap, no_angle_collapse, no_angle_strip, H.
Qed.

(** The text between a [>] and the next [<] is normalised on its own. *)
Lemma replacements_between a p y :
  no_angle p = true ->
  replacements (a ++ c_gt :: p ++ c_lt :: y)
  = replacements a ++ c_gt :: text_content p ++ c_lt :: replacements y.
Proof.
  intros Hp. unfold replacements, text_content.
  rewrite strip_breaks_app.
  change (c_gt :: p ++ c_lt :: y) with ([c_gt] ++ p ++ [c_lt] ++ y).
  rewrite !strip_breaks_app.
  change (strip_breaks [c_gt]) with [c_gt].
  change (strip_breaks [c_lt]) with [c_lt].
  simpl app.
  rewrite collapse_ws_app_stop by reflexivity.
  rewrite collapse_ws_app_stop by reflexivity.
  rewrite close_tags_app_gt, close_tags_gap; auto.
  apply no_angle_collapse, no_angle_strip, Hp.
Qed.

Lemma tag_name_solid n : tag_name_ok n = true -> solid n = true.
Proof.
  unfold tag_name_ok, solid. rewrite !forallb_forall.
  intros H c Hc. specialize (H c Hc).
  destruct (is_ws c), (char_eqb c c_gt); simpl in *; auto.
  now rewrite andb_false_r in H.
Qed.

Lemma is_break_ws c : is_break c = true -> is_ws c = true.
Proof.
  unfold is_break, char_eqb. rewrite !orb_true_iff, !N.eqb_eq.
  intros [[->| ->]| ->]; reflexivity.
Qed.

Lemma replacements_cons_solid c z :
  is_ws c = false -> char_eqb c c_gt = false ->
  replacements (c :: z) = c :: replacements z.
Proof.
  intros Hw Hg. unfold replacements.
  change (c :: z) with ([c] ++ z). rewrite strip_breaks_app.
  assert (strip_breaks [c] = [c]) as ->.
  { rewrite strip_breaks_filter; simpl.
    destruct (is_break c) eqn:E; [|reflexivity].
    apply is_break_ws in E; congruence. }
  simpl app. rewrite collapse_ws_cons, Hw. simpl.
  now rewrite close_tags_keep.
Qed.

(** A string without white space and [>] goes through unchanged. *)
Lemma replacements_solid n z :
  solid n = true -> replacements (n ++ z) = n ++ replacements z.
Proof.
  induction n as [|c n IH]; simpl; intros H; [reflexivity|].
  apply andb_true_iff in H as [H1 H2]. apply andb_true_iff in H1 as [H1 H3].
  rewrite replacements_cons_solid, IH; auto.
  - now destruct (is_ws c).
  - now destruct (char_eqb c c_gt).
Qed.

Lemma replacements_solid_id n : solid n = true -> replacements n = n.
Proof.
  intros H. rewrite <- (app_nil_r n) at 1.
  rewrite replacements_solid by assumption. apply app_nil_r.
Qed.

Lemma replacements_snoc_gt a :
  replacements (a ++ [c_gt]) = replacements a ++ [c_gt].
Proof.
  unfold replacements. rewrite strip_breaks_app.
  change (strip_breaks [c_gt]) with [c_gt].
  rewrite collapse_ws_app_stop by reflexivity.
  now rewrite close_tags_app_gt.
Qed.

Lemma drop_ws_solid c s : is_ws c = false -> drop_ws (c :: s) = c :: s.
Proof. intros H; simpl; now rewrite H. Qed.

Lemma trim_id c x d :
  is_ws c = false -> is_ws d = false -> trim (c :: x ++ [d]) = c :: x ++ [d].
Proof.
  intros Hc Hd. unfold trim. rewrite drop_ws_solid by assumption.
  assert (rev (c :: x ++ [d]) = d :: rev (c :: x)) as E.
  { change (c :: x ++ [d]) with ((c :: x) ++ [d]).
    now rewrite rev_app_distr. }
  rewrite E, drop_ws_solid, <- E by assumption.
  apply rev_involutive.
Qed.

(** *** Documents as sequences of tags and texts *)

Lemma render_app a b : render (a ++ b) = render a ++ render b.
Proof.
  induction a as [|[n|s] a IH]; simpl; auto.
  - rewrite IH, <- app_assoc; reflexivity.
  - rewrite IH, app_assoc; reflexivity.
Qed.

Lemma compact_app acc a b :
  compact acc (a ++ b) = compact acc a ++ compact (pending acc a) b.
Proof.
  revert acc; induction a as [|[n|s] a IH]; intros acc; simpl; auto.
  now rewrite IH.
Qed.

Lemma pending_app acc a b :
  pending acc (a ++ b) = pending (pending acc a) b.
Proof.
  revert acc; induction a as [|[n|s] a IH]; intros acc; simpl; auto.
Qed.

Theorem replacements_render a acc ts y :
  forallb token_ok ts = true -> no_angle acc = true ->
  replacements (a ++ c_gt :: acc ++ render ts ++ c_lt :: y)
  = replacements a ++ c_gt :: render (compact acc ts)
      ++ text_content (pending acc ts) ++ c_lt :: replacements y.
Proof.
  revert a acc; induction ts as [|[n|s] r IH]; intros a acc Hts Hacc.
  - simpl. now apply replacements_between.
  - simpl in Hts. apply andb_true_iff in Hts as [Hn Hr].
    simpl render. simpl compact. simpl pending.
    replace (acc ++ (c_lt :: n ++ c_gt :: render r) ++ c_lt :: y)
      with (acc ++ c_lt :: (n ++ c_gt :: [] ++ render r ++ c_lt :: y)).
    2:{ simpl. now rewrite <- app_assoc. }
    rewrite replacements_between by assumption.
    rewrite (IH n []) by auto.
    rewrite (replacements_solid_id n) by now apply tag_name_solid.
    rewrite <- !app_assoc. simpl. rewrite <- ?app_assoc. reflexivity.
  - simpl in Hts. apply andb_true_iff in Hts as [Hs Hr].
    simpl. rewrite <- app_assoc, (app_assoc acc s).
    apply IH; auto. rewrite no_angle_app, Hacc, Hs; reflexivity.
Qed.

(** *** Strings that the replacements leave alone *)

Lemma strip_breaks_id s : no_break s = true -> strip_breaks s = s.
Proof.
  rewrite strip_breaks_filter. induction s as [|c t IH]; simpl; auto.
  intros H; apply andb_true_iff in H as [H1 H2].
  rewrite H1; f_equal; auto.
Qed.

Lemma collapse_ws_id s : no_ws_run s = true -> collapse_ws s = s.
Proof.
  induction s as [|c t IH]; simpl; auto.
  intros H; apply andb_true_iff in H as [H1 H2].
  rewrite collapse_ws_cons. apply negb_true_iff in H1; rewrite H1.
  f_equal; auto.
Qed.

Lemma close_tags_gap_at c t :
  close_tags (c :: t) =
  if gap_at c t then c_gt :: c_lt :: close_tags (tl (drop_ws t))
  else c :: close_tags t.
Proof.
  rewrite close_tags_cons; unfold gap_at.
  destruct (drop_ws t); reflexivity.
Qed.

Lemma close_tags_id s : no_tag_gap s = true -> close_tags s = s.
Proof.
  induction s as [|c t IH]; simpl; auto.
  intros H; apply andb_true_iff in H as [H1 H2].
  rewrite close_tags_gap_at. apply negb_true_iff in H1; rewrite H1.
  f_equal; auto.
Qed.

(** Each replacement only emits code units of its input, a space, [>] or
    [<]. *)
Lemma forallb_drop_ws p s : forallb p s = true -> forallb p (drop_ws s) = true.
Proof.
  induction s as [|c t IH]; simpl; auto.
  destruct (is_ws c); simpl; auto.
  intros H; apply andb_true_iff in H as [_ H]; auto.
Qed.

Lemma forallb_collapse_ws p s :
  p c_sp = true -> forallb p s = true -> forallb p (collapse_ws s) = true.
Proof.
  intros Hsp. induction s as [s IH] using length_ind.
  destruct s as [|c t]; auto. intros H.
  simpl in H; apply andb_true_iff in H as [H1 H2].
  rewrite collapse_ws_cons.
  destruct (is_ws c && (0 <? span_ws t)); simpl.
  - rewrite Hsp. apply IH; [simpl; pose proof (drop_ws_length t); lia|].
    now apply forallb_drop_ws.
  - rewrite H1. apply IH; simpl; auto.
Qed.

Lemma forallb_close_tags p s :
  p c_gt = true -> p c_lt = true ->
  forallb p s = true -> forallb p (close_tags s) = true.
Proof.
  intros Hg Hl. induction s as [s IH] using length_ind.
  destruct s as [|c t]; auto. intros H.
  simpl in H; apply andb_true_iff in H as [H1 H2].
  rewrite close_tags_gap_at.
  destruct (gap_at c t); simpl.
  - rewrite Hg, Hl. apply IH.
    + pose proof (drop_ws_length t). destruct (drop_ws t); simpl in *; lia.
    + apply (forallb_drop_ws p) in H2. destruct (drop_ws t); simpl in *; auto.
      now apply andb_true_iff in H2 as [_ H2].
  - rewrite H1. apply IH; simpl; auto.
Qed.

Lemma no_break_strip s : no_break (strip_breaks s) = true.
Proof.
  rewrite strip_breaks_filter. unfold no_break. apply forallb_forall.
  intros c Hc. now apply filter_In in Hc as [_ Hc].
Qed.

Lemma span_ws_drop_ws s : span_ws (drop_ws s) = 0.
Proof.
  induction s as [|c t IH]; simpl; auto.
  destruct (is_ws c) eqn:E; simpl; auto. now rewrite E.
Qed.

Lemma span_ws_collapse s : (0 <? span_ws (collapse_ws s)) = (0 <? span_ws s).
Proof.
  destruct s as [|c t]; auto. rewrite collapse_ws_cons.
  destruct (is_ws c) eqn:E; simpl; rewrite ?E;
    destruct (0 <? span_ws t); simpl; rewrite ?E; reflexivity.
Qed.

Lemma span_ws_collapse_drop s : span_ws (collapse_ws (drop_ws s)) = 0.
Proof.
  pose proof (span_ws_collapse (drop_ws s)) as H.
  rewrite span_ws_drop_ws in H. simpl in H.
  destruct (span_ws (collapse_ws (drop_ws s))); [reflexivity | discriminate].
Qed.

Lemma no_ws_run_collapse s : no_ws_run (collapse_ws s) = true.
Proof.
  induction s as [s IH] using length_ind.
  destruct s as [|c t]; auto.
  rewrite collapse_ws_cons.
  destruct (is_ws c && (0 <? span_ws t)) eqn:E; cbn [no_ws_run].
  - rewrite span_ws_collapse_drop. rewrite andb_false_r.
    apply IH. simpl; pose proof (drop_ws_length t); lia.
  - rewrite span_ws_collapse, E. apply IH; simpl; lia.
Qed.

Lemma no_ws_run_tail c t : no_ws_run (c :: t) = true -> no_ws_run t = true.
Proof. simpl; intros H; now apply andb_true_iff in H as [_ H]. Qed.

Lemma no_ws_run_drop_ws s : no_ws_run s = true -> no_ws_run (drop_ws s) = true.
Proof.
  induction s as [|c t IH]; cbn [drop_ws]; auto.
  destruct (is_ws c) eqn:E; auto.
  intros H; apply IH. now apply no_ws_run_tail in H.
Qed.

Lemma span_ws_close_tags s :
  (0 <? span_ws (close_tags s)) = (0 <? span_ws s).
Proof.
  destruct s as [|c t]; auto. rewrite close_tags_gap_at.
  destruct (gap_at c t) eqn:E; simpl.
  - unfold gap_at in E. destruct (drop_ws t); [discriminate|].
    apply andb_true_iff in E as [E _]. apply andb_true_iff in E as [E _].
    unfold char_eqb in E. apply N.eqb_eq in E. subst c. reflexivity.
  - destruct (is_ws c); reflexivity.
Qed.

Lemma no_ws_run_close_tags s :
  no_ws_run s = true -> no_ws_run (close_tags s) = true.
Proof.
  induction s as [s IH] using length_ind.
  destruct s as [|c t]; auto. intros H.
  rewrite close_tags_gap_at.
  destruct (gap_at c t) eqn:E.
  - change (no_ws_run (c_gt :: c_lt :: ?x)) with (no_ws_run x).
    apply IH.
    + simpl. pose proof (drop_ws_length t).
      destruct (drop_ws t); simpl in *; lia.
    + apply no_ws_run_tail in H. apply no_ws_run_drop_ws in H.
      destruct (drop_ws t); auto. now apply no_ws_run_tail in H.
  - cbn [no_ws_run] in *. apply andb_true_iff in H as [H1 H2].
    rewrite span_ws_close_tags, H1. apply IH; simpl; auto.
Qed.

Lemma gap_at_gt c t : gap_at c t = true -> c = c_gt.
Proof.
  unfold gap_at. destruct (drop_ws t); [discriminate|]. intros E.
  apply andb_true_iff in E as [E _]. apply andb_true_iff in E as [E _].
  now apply N.eqb_eq in E.
Qed.

Lemma close_tags_head d u : exists v, close_tags (d :: u) = d :: v.
Proof.
  rewrite close_tags_gap_at. destruct (gap_at d u) eqn:E; eauto.
  apply gap_at_gt in E; subst d; eauto.
Qed.

Lemma hd_drop_ws_close_tags t :
  hd_error (drop_ws (close_tags t)) = hd_error (drop_ws t).
Proof.
  induction t as [|c t IH]; auto.
  destruct (is_ws c) eqn:E.
  - rewrite close_tags_keep.
    + simpl. now rewrite E.
    + destruct (char_eqb c c_gt) eqn:G; auto.
      apply N.eqb_eq in G; subst c; discriminate.
  - destruct (close_tags_head c t) as [v ->]. simpl. now rewrite E.
Qed.

Lemma gap_at_hd c t :
  gap_at c t =
  match hd_error (drop_ws t) with
  | Some d => char_eqb c c_gt && (0 <? span_ws t) && char_eqb d c_lt
  | None => false
  end.
Proof. unfold gap_at. now destruct (drop_ws t). Qed.

Lemma gap_at_close_tags c t : gap_at c (close_tags t) = gap_at c t.
Proof.
  now rewrite !gap_at_hd, hd_drop_ws_close_tags, span_ws_close_tags.
Qed.

Lemma no_tag_gap_close_tags s : no_tag_gap (close_tags s) = true.
Proof.
  induction s as [s IH] using length_ind.
  destruct s as [|c t]; auto.
  rewrite close_tags_gap_at.
  destruct (gap_at c t) eqn:E.
  - change (no_tag_gap (c_gt :: c_lt :: ?x)) with
      (negb (gap_at c_gt (c_lt :: x))
       && (negb (gap_at c_lt x) && no_tag_gap x)).
    assert (forall x, gap_at c_lt x = false) as ->.
    { intros x. destruct (gap_at c_lt x) eqn:G; auto.
      apply gap_at_gt in G; discriminate. }
    change (gap_at c_gt (c_lt :: ?x)) with false. simpl.
    apply IH. simpl.
    pose proof (drop_ws_length t). destruct (drop_ws t); simpl in *; lia.
  - cbn [no_tag_gap]. rewrite gap_at_close_tags, E. apply IH; simpl; lia.
Qed.

(** *** Prefixes and suffixes *)

Lemma span_ws_app_pos a b :
  (0 <? span_ws a) = true -> (0 <? span_ws (a ++ b)) = true.
Proof.
  destruct a as [|c a]; simpl; [discriminate|].
  destruct (is_ws c); auto.
Qed.

Lemma no_ws_run_app_l a b : no_ws_run (a ++ b) = true -> no_ws_run a = true.
Proof.
  induction a as [|c a IH]; auto. cbn [app no_ws_run].
  intros H; apply andb_true_iff in H as [H1 H2].
  rewrite (IH H2), andb_true_r.
  destruct (is_ws c); auto. simpl in *.
  destruct (0 <? span_ws a) eqn:E; auto.
  now rewrite (span_ws_app_pos a b E) in H1.
Qed.

Lemma drop_ws_app_cons a b d u :
  drop_ws a = d :: u -> drop_ws (a ++ b) = d :: u ++ b.
Proof.
  induction a as [|c a IH]; simpl; [discriminate|].
  destruct (is_ws c); auto. intros [= -> ->]; reflexivity.
Qed.

Lemma gap_at_app c a b : gap_at c a = true -> gap_at c (a ++ b) = true.
Proof.
  unfold gap_at. destruct (drop_ws a) as [|d u] eqn:E; [discriminate|].
  rewrite (drop_ws_app_cons _ b E). intros H.
  apply andb_true_iff in H as [H H3]. apply andb_true_iff in H as [H1 H2].
  now rewrite H1, H3, (span_ws_app_pos a b H2).
Qed.

Lemma no_tag_gap_app_l a b : no_tag_gap (a ++ b) = true -> no_tag_gap a = true.
Proof.
  induction a as [|c a IH]; auto. cbn [app no_tag_gap].
  intros H; apply andb_true_iff in H as [H1 H2].
  rewrite (IH H2), andb_true_r.
  destruct (gap_at c a) eqn:E; auto.
  now rewrite (gap_at_app c a b E) in H1.
Qed.

Lemma no_tag_gap_drop_ws s :
  no_tag_gap s = true -> no_tag_gap (drop_ws s) = true.
Proof.
  induction s as [|c t IH]; cbn [drop_ws]; auto.
  destruct (is_ws c); auto. cbn [no_tag_gap].
  intros H; apply andb_true_iff in H as [_ H]; auto.
Qed.

Lemma drop_ws_split z :
  exists w, z = w ++ drop_ws z /\ forallb is_ws w = true.
Proof.
  induction z as [|c z [w [E Hw]]]; [now exists []|].
  simpl. destruct (is_ws c) eqn:Ec.
  - exists (c :: w). simpl. now rewrite Ec, Hw, <- E.
  - now exists [].
Qed.

(** What [trim] removes at the end is a suffix. *)
Lemma drop_end_split x : exists w, x = rev (drop_ws (rev x)) ++ w.
Proof.
  destruct (drop_ws_split (rev x)) as [w [E _]].
  exists (rev w). rewrite <- rev_app_distr, <- E. now rewrite rev_involutive.
Qed.

Lemma drop_ws_idem s : drop_ws (drop_ws s) = drop_ws s.
Proof.
  induction s as [|c t IH]; simpl; auto.
  destruct (is_ws c) eqn:E; auto. simpl. now rewrite E.
Qed.

Lemma trim_idem x : trim (trim x) = trim x.
Proof.
  unfold trim. destruct (drop_ws x) as [|c x'] eqn:E; [reflexivity|].
  pose proof (drop_ws_head _ E) as Hc.
  assert (drop_ws (rev (c :: x')) = drop_ws (rev x') ++ [c]) as ->.
  { cbn [rev]. now apply drop_ws_app_stop. }
  set (u := drop_ws (rev x')).
  assert (rev (u ++ [c]) = c :: rev u) as -> by now rewrite rev_app_distr.
  rewrite drop_ws_solid by assumption.
  cbn [rev]. rewrite rev_involutive.
  rewrite drop_ws_app_stop by assumption.
  subst u. rewrite drop_ws_idem.
  now rewrite rev_app_distr.
Qed.

Lemma replacements_fixed s :
  no_break s = true -> no_ws_run s = true -> no_tag_gap s = true ->
  replacements s = s.
Proof.
  intros H1 H2 H3. unfold replacements.
  now rewrite strip_breaks_id, collapse_ws_id, close_tags_id.
Qed.

Lemma replacements_clean s :
  no_break (replacements s) = true
  /\ no_ws_run (replacements s) = true
  /\ no_tag_gap (replacements s) = true.
Proof.
  unfold replacements. repeat split.
  - apply forallb_close_tags; try reflexivity.
    apply forallb_collapse_ws; try reflexivity.
    apply no_break_strip.
  - apply no_ws_run_close_tags, no_ws_run_collapse.
  - apply no_tag_gap_close_tags.
Qed.

Lemma trim_clean x :
  no_break x = true -> no_ws_run x = true -> no_tag_gap x = true ->
  no_break (trim x) = true /\ no_ws_run (trim x) = true
  /\ no_tag_gap (trim x) = true.
Proof.
  intros H1 H2 H3. unfold trim.
  apply (forallb_drop_ws _ x) in H1.
  apply no_ws_run_drop_ws in H2. apply no_tag_gap_drop_ws in H3.
  destruct (drop_end_split (drop_ws x)) as [w E].
  rewrite E in H1, H2, H3. repeat split.
  - unfold no_break in *. rewrite forallb_app in H1.
    now apply andb_true_iff in H1 as [H1 _].
  - now apply no_ws_run_app_l in H2.
  - now apply no_tag_gap_app_l in H3.
Qed.

(** *** Occurrences of a tag in a document *)

Lemma jsstring_eqb_eq a b : jsstring_eqb a b = true -> a = b.
Proof.
  revert b; induction a as [|x a IH]; intros [|y b]; simpl;
    try discriminate; auto.
  intros H; apply andb_true_iff in H as [H1 H2].
  apply N.eqb_eq in H1. f_equal; auto.
Qed.

Lemma tag_name_no_angle n : tag_name_ok n = true -> no_angle n = true.
Proof.
  unfold tag_name_ok, no_angle. rewrite !forallb_forall.
  intros H c Hc. specialize (H c Hc).
  destruct (is_ws c), (char_eqb c c_lt), (char_eqb c c_gt); auto.
Qed.

Lemma occurrences_text q s z :
  no_angle s = true ->
  occurrences (c_lt :: q) (s ++ z) = occurrences (c_lt :: q) z.
Proof.
  induction s as [|c s IH]; auto. intros H.
  cbn [no_angle forallb] in H.
  apply andb_true_iff in H as [H1 H2]. apply andb_true_iff in H1 as [H1 _].
  cbn [app occurrences prefixb].
  unfold char_eqb in *. rewrite N.eqb_sym.
  destruct (c =? c_lt)%N; [discriminate|]. cbn [andb]. now apply IH.
Qed.

Lemma prefixb_name n m z :
  tag_name_ok n = true -> tag_name_ok m = true ->
  prefixb (n ++ [c_gt]) (m ++ c_gt :: z) = jsstring_eqb n m.
Proof.
  revert m; induction n as [|x n IH]; intros [|y m] Hn Hm;
    cbn [tag_name_ok forallb app prefixb jsstring_eqb] in *.
  - reflexivity.
  - apply andb_true_iff in Hm as [Hy _].
    unfold char_eqb in *. rewrite N.eqb_sym.
    destruct (y =? c_gt)%N; [now rewrite andb_false_r in Hy | reflexivity].
  - apply andb_true_iff in Hn as [Hx _].
    unfold char_eqb in *.
    destruct (x =? c_gt)%N; [now rewrite andb_false_r in Hx | reflexivity].
  - apply andb_true_iff in Hn as [_ Hn]. apply andb_true_iff in Hm as [_ Hm].
    now rewrite IH.
Qed.

Lemma occurrences_render n ts :
  tag_name_ok n = true -> forallb token_ok ts = true ->
  occurrences (c_lt :: n ++ [c_gt]) (render ts) = count_tag n ts.
Proof.
  intros Hn. induction ts as [|[m|s] r IH]; intros H; auto.
  - simpl in H. apply andb_true_iff in H as [Hm Hr].
    cbn [render occurrences prefixb count_tag].
    change (char_eqb c_lt c_lt) with true. cbn [andb].
    rewrite prefixb_name by assumption.
    rewrite occurrences_text by now apply tag_name_no_angle.
    cbn [occurrences prefixb]. change (char_eqb c_lt c_gt) with false.
    cbn [andb]. now rewrite IH.
  - simpl in H. apply andb_true_iff in H as [Hs Hr].
    cbn [render count_tag]. rewrite occurrences_text by assumption. auto.
Qed.

Lemma count_tag_app n a b :
  count_tag n (a ++ b) = count_tag n a + count_tag n b.
Proof.
  induction a as [|[m|s] a IH]; simpl; auto. rewrite IH. lia.
Qed.

Lemma count_tag_compact n acc ts :
  count_tag n (compact acc ts) = count_tag n ts.
Proof.
  revert acc; induction ts as [|[m|s] r IH]; intros acc; simpl; auto.
Qed.

Lemma compact_ok acc ts :
  no_angle acc = true -> forallb token_ok ts = true ->
  forallb token_ok (compact acc ts) = true.
Proof.
  revert acc; induction ts as [|[m|s] r IH]; intros acc Ha H; simpl in *; auto.
  - apply andb_true_iff in H as [Hm Hr].
    now rewrite no_angle_text_content, Hm, IH.
  - apply andb_true_iff in H as [Hs Hr]. apply IH; auto.
    now rewrite no_angle_app, Ha, Hs.
Qed.

Lemma pending_ok acc ts :
  no_angle acc = true -> forallb token_ok ts = true ->
  no_angle (pending acc ts) = true.
Proof.
  revert acc; induction ts as [|[m|s] r IH]; intros acc Ha H; simpl in *; auto.
  - apply andb_true_iff in H as [Hm Hr]. now apply IH.
  - apply andb_true_iff in H as [Hs Hr]. apply IH; auto.
    now rewrite no_angle_app, Ha, Hs.
Qed.

(** *** The replacements only touch white space *)

Lemma ws_edit_refl s : ws_edit s s.
Proof. induction s; constructor; auto. Qed.

Lemma ws_edit_trans a b c : ws_edit a b -> ws_edit b c -> ws_edit a c.
Proof.
  intros H; revert c; induction H as [|x a b H IH|x a b Hx H IH|x a b Hx H IH];
    intros c Hc.
  - assumption.
  - inversion Hc; subst.
    + apply we_keep; auto.
    + apply we_drop; auto.
    + apply we_space; auto.
  - apply we_drop; auto.
  - inversion Hc; subst.
    + apply we_space; auto.
    + apply we_drop; auto.
    + apply we_space; auto.
Qed.

Lemma ws_edit_drop_ws s u : ws_edit (drop_ws s) u -> ws_edit s u.
Proof.
  induction s as [|c s IH]; simpl; auto.
  destruct (is_ws c) eqn:E; auto. intros H. apply we_drop; auto.
Qed.

Lemma ws_edit_strip s : ws_edit s (strip_breaks s).
Proof.
  rewrite strip_breaks_filter. induction s as [|c s IH]; simpl.
  - constructor.
  - destruct (is_break c) eqn:E; simpl.
    + apply we_drop; auto. now apply is_break_ws.
    + now apply we_keep.
Qed.

Lemma ws_edit_collapse s : ws_edit s (collapse_ws s).
Proof.
  induction s as [s IH] using length_ind. destruct s as [|c t].
  - constructor.
  - rewrite collapse_ws_cons.
    destruct (is_ws c) eqn:E; cbn [andb].
    + destruct (0 <? span_ws t).
      * apply we_space; auto. apply ws_edit_drop_ws, IH.
        simpl; pose proof (drop_ws_length t); lia.
      * apply we_keep, IH. simpl; lia.
    + apply we_keep, IH. simpl; lia.
Qed.

Lemma ws_edit_close s : ws_edit s (close_tags s).
Proof.
  induction s as [s IH] using length_ind. destruct s as [|c t].
  - constructor.
  - rewrite close_tags_cons.
    destruct (drop_ws t) as [|d u] eqn:E.
    + apply we_keep, IH. simpl; lia.
    + destruct (char_eqb c c_gt && (0 <? span_ws t) && char_eqb d c_lt) eqn:G.
      * apply andb_true_iff in G as [G G3].
        apply andb_true_iff in G as [G1 _].
        apply N.eqb_eq in G1, G3. subst c d.
        apply we_keep, ws_edit_drop_ws. rewrite E.
        apply we_keep, IH.
        pose proof (drop_ws_length t) as L. rewrite E in L. simpl in *; lia.
      * apply we_keep, IH. simpl; lia.
Qed.

Lemma ws_edit_replacements s : ws_edit s (replacements s).
Proof.
  unfold replacements.
  eapply ws_edit_trans; [apply ws_edit_strip|].
  eapply ws_edit_trans; [apply ws_edit_collapse|apply ws_edit_close].
Qed.

Lemma count_cons_ne c x s : x <> c -> count c (x :: s) = count c s.
Proof. intros H. unfold count. now apply count_occ_cons_neq. Qed.

Lemma count_app c a b : count c (a ++ b) = count c a + count c b.
Proof. apply count_occ_app. Qed.

Lemma count_ws_edit c s s' :
  is_ws c = false -> ws_edit s s' -> count c s' = count c s.
Proof.
  intros Hc H. induction H as [|x a b H IH|x a b Hx H IH|x a b Hx H IH].
  - reflexivity.
  - unfold count in *. simpl. destruct (N.eq_dec x c); auto.
  - rewrite (count_cons_ne a) by congruence. assumption.
  - rewrite (count_cons_ne a) by congruence.
    rewrite count_cons_ne; [assumption|].
    intros <-. discriminate.
Qed.

Lemma prefixb_ws_edit e t t' :
  forallb (fun c => negb (is_ws c)) e = true ->
  ws_edit t t' -> prefixb e t = true -> prefixb e t' = true.
Proof.
  intros He H; revert e He.
  induction H as [|x a b H IH|x a b Hx H IH|x a b Hx H IH];
    intros [|y e] He Hp; auto; cbn [prefixb forallb] in *;
    apply andb_true_iff in He as [Hy He];
    apply andb_true_iff in Hp as [Hxy Hp].
  - rewrite Hxy. cbn [andb]. auto.
  - apply N.eqb_eq in Hxy; subst y. now rewrite Hx in Hy.
  - apply N.eqb_eq in Hxy; subst y. now rewrite Hx in Hy.
Qed.

Lemma amp_ok_ws_edit s s' : ws_edit s s' -> amp_ok s = true -> amp_ok s' = true.
Proof.
  intros H. induction H as [|x a b H IH|x a b Hx H IH|x a b Hx H IH];
    cbn [amp_ok]; intros Hs; auto.
  - apply andb_true_iff in Hs as [H1 H2]. rewrite (IH H2), andb_true_r.
    destruct (char_eqb x c_amp); auto. cbn [negb orb] in *.
    apply existsb_exists in H1 as [e [He1 He2]].
    apply existsb_exists. exists e. split; auto.
    apply (@prefixb_ws_edit e a b); auto.
    cbn in He1.
    repeat (destruct He1 as [<-|He1]; [reflexivity|]). destruct He1.
  - apply andb_true_iff in Hs as [_ H2]. auto.
  - apply andb_true_iff in Hs as [_ H2]. now rewrite (IH H2).
Qed.

Lemma prefixb_app e t b : prefixb e t = true -> prefixb e (t ++ b) = true.
Proof.
  revert t; induction e as [|x e IH]; intros [|y t]; simpl; auto;
    try discriminate.
  intros H. apply andb_true_iff in H as [H1 H2]. now rewrite H1, IH.
Qed.

Lemma amp_ok_app a b :
  amp_ok a = true -> amp_ok b = true -> amp_ok (a ++ b) = true.
Proof.
  intros Ha Hb. induction a as [|c a IH]; auto.
  cbn [amp_ok app] in *. apply andb_true_iff in Ha as [H1 H2].
  rewrite (IH H2), andb_true_r.
  destruct (char_eqb c c_amp); auto. cbn [negb orb] in *.
  apply existsb_exists in H1 as [e [He1 He2]].
  apply existsb_exists. exists e. split; auto. now apply prefixb_app.
Qed.

Lemma no_amp_amp_ok s : no_amp s = true -> amp_ok s = true.
Proof.
  induction s as [|c s IH]; auto. cbn [no_amp forallb amp_ok].
  intros H. apply andb_true_iff in H as [H1 H2].
  now rewrite H1, (IH H2).
Qed.

End JSFacts.

Import JSFacts.

(* ------------------------------------------------------------------ *)
(** ** The serializer *)

Section SerializerFacts.

Variable Number_toString : num -> jsstring.

(** *** The assembled document as tokens *)

Lemma render_join_tokens sep l :
  render (join_tokens sep l) = join (render sep) (map render l).
Proof.
  induction l as [|x [|y r] IH]; auto.
  change (join_tokens sep (x :: y :: r))
    with (x ++ sep ++ join_tokens sep (y :: r)).
  rewrite !render_app, IH. reflexivity.
Qed.

Lemma join_nil_concat l : join [] l = List.concat l.
Proof.
  induction l as [|x [|y r] IH]; auto.
  - simpl. now rewrite app_nil_r.
  - change (join [] (x :: y :: r)) with (x ++ [] ++ join [] (y :: r)).
    now rewrite IH.
Qed.

Lemma render_concat l : render (List.concat l) = List.concat (map render l).
Proof.
  induction l as [|x r IH]; auto. simpl. now rewrite render_app, IH.
Qed.

Ltac flatten_app :=
  repeat (progress (cbn [app render]; rewrite <- ?app_assoc)).

Lemma render_render_tokens st :
  render (render_tokens st) = renderInterface st.
Proof.
  unfold render_tokens, renderInterface.
  destruct (rendering_engine (plugins st)); [|reflexivity].
  rewrite <- ?app_assoc. reflexivity.
Qed.

Lemma map_mapi_from {A B C} (g : B -> C) (f : A -> nat -> B) i l :
  map g (mapi_from f i l) = mapi_from (fun x k => g (f x k)) i l.
Proof.
  revert i; induction l as [|x l IH]; intros i; simpl; auto. now rewrite IH.
Qed.

Lemma mapi_from_ext {A B} (f g : A -> nat -> B) i l :
  (forall x k, f x k = g x k) -> mapi_from f i l = mapi_from g i l.
Proof.
  intros H; revert i; induction l as [|x l IH]; intros i; simpl; auto.
  now rewrite H, IH.
Qed.

Lemma render_thruster_tokens t idx :
  render (thruster_tokens t idx) = thrusterLine t idx.
Proof.
  unfold thruster_tokens, thrusterLine, elem, thruster_name, close_name.
  cbn [render sp]. flatten_app. reflexivity.
Qed.

Lemma render_mode_tokens st m :
  render (mode_tokens st m) = physicsPart st m.
Proof.
  unfold mode_tokens, physicsPart.
  rewrite !render_app, render_join_tokens.
  unfold mapi. rewrite map_mapi_from.
  rewrite (mapi_from_ext _ thrusterLine) by apply render_thruster_tokens.
  unfold elem, close_name. cbn [render ind sp].
  flatten_app. reflexivity.
Qed.

Lemma physicsParts_concat st :
  physicsParts st = List.concat (map (physicsPart st) (enabled_modes st)).
Proof.
  unfold physicsParts, enabled_modes.
  now rewrite join_nil_concat, map_map.
Qed.

Lemma render_physics_tokens st :
  render (physics_tokens st) = physicsEngineInterface st.
Proof.
  unfold physics_tokens, physicsEngineInterface.
  destruct (physics_engine (plugins st)); [|reflexivity].
  rewrite physicsParts_concat.
  rewrite !render_app, render_concat, map_map.
  rewrite (map_ext _ _ (render_mode_tokens st)).
  unfold elem, close_name. cbn [render ind sp].
  flatten_app. reflexivity.
Qed.

Lemma render_limits_tokens wf :
  render (limits_tokens Number_toString wf) = commonLimits Number_toString wf.
Proof.
  unfold limits_tokens, commonLimits, elem, close_name.
  cbn [render ind sp]. flatten_app. reflexivity.
Qed.

Lemma render_waypoint_tokens wp :
  render (waypoint_tokens Number_toString wp) = waypointXml Number_toString wp.
Proof.
  unfold waypoint_tokens, waypointXml, elem, close_name.
  cbn [render]. flatten_app. reflexivity.
Qed.

Lemma render_waypoints_follower_tokens wf :
  render (waypoints_follower_tokens Number_toString wf)
    = waypointsFollower Number_toString wf.
Proof.
  unfold waypoints_follower_tokens, waypointsFollower.
  rewrite join_nil_concat.
  rewrite !render_app, render_concat, map_map, render_limits_tokens.
  rewrite (map_ext _ _ render_waypoint_tokens).
  cbn [render ind sp]. flatten_app. reflexivity.
Qed.

Lemma render_line_follower_tokens wf :
  render (line_follower_tokens Number_toString wf)
    = lineFollower Number_toString wf.
Proof.
  unfold line_follower_tokens, lineFollower.
  rewrite !render_app, render_limits_tokens.
  unfold elem, close_name. cbn [render ind sp]. flatten_app. reflexivity.
Qed.

Lemma render_circle_follower_tokens wf :
  render (circle_follower_tokens Number_toString wf)
    = circleFollower Number_toString wf.
Proof.
  unfold circle_follower_tokens, circleFollower.
  rewrite !render_app, render_limits_tokens.
  unfold elem, close_name. cbn [render ind sp]. flatten_app. reflexivity.
Qed.

Lemma render_followers_tokens wf :
  render (followers_tokens Number_toString wf)
    = join [] (followers Number_toString wf).
Proof.
  unfold followers_tokens, followers.
  rewrite join_nil_concat, !render_app.
  destruct (jsstring_eqb (mode wf) (lit "waypoints")
            && (0 <? List.length (waypoints wf)));
    destruct (jsstring_eqb (mode wf) (lit "line"));
    destruct (jsstring_eqb (mode wf) (lit "circle"));
    cbn [app List.concat render];
    rewrite ?render_waypoints_follower_tokens, ?render_line_follower_tokens,
      ?render_circle_follower_tokens, ?app_nil_r; reflexivity.
Qed.

Lemma render_follower_block_tokens st :
  render (follower_block_tokens Number_toString st)
  = waypointFollowerInterface Number_toString st.
Proof.
  unfold follower_block_tokens, waypointFollowerInterface.
  destruct (enabled (waypointFollower st)); [|reflexivity].
  rewrite !render_app, render_followers_tokens.
  cbn [render ind sp]. flatten_app. reflexivity.
Qed.

Lemma assembled_tokens st :
  assembled Number_toString st
  = lit "<lotus_param" ++ c_gt :: [] ++ render (doc_tokens Number_toString st)
      ++ c_lt :: lit "/lotus_param>".
Proof.
  unfold assembled, doc_tokens.
  rewrite !render_app, render_render_tokens, render_physics_tokens,
    render_follower_block_tokens.
  flatten_app. reflexivity.
Qed.

(** *** [escapeXml] *)

Lemma flat_map_flat_map {A B C} (f : A -> list B) (g : B -> list C) l :
  flat_map g (flat_map f l) = flat_map (fun x => flat_map g (f x)) l.
Proof.
  induction l as [|x l IH]; simpl; auto. now rewrite flat_map_app, IH.
Qed.

(** The five successive replacements amount to one pass that replaces each
    reserved code unit by its entity. *)
Lemma escapeXml_flat_map s : escapeXml s = flat_map escape_char s.
Proof.
  unfold escapeXml. rewrite !replace_class, !flat_map_flat_map.
  apply flat_map_ext. intros c. unfold escape_char.
  destruct (char_eqb c c_amp) eqn:E1;
    [apply N.eqb_eq in E1; subst c; reflexivity|].
  destruct (char_eqb c c_lt) eqn:E2;
    [apply N.eqb_eq in E2; subst c; reflexivity|].
  destruct (char_eqb c c_gt) eqn:E3;
    [apply N.eqb_eq in E3; subst c; reflexivity|].
  destruct (char_eqb c c_quot) eqn:E4;
    [apply N.eqb_eq in E4; subst c; reflexivity|].
  destruct (char_eqb c c_apos) eqn:E5;
    [apply N.eqb_eq in E5; subst c; reflexivity|].
  unfold char_eqb in *. rewrite N.eqb_sym in E1, E2, E3, E4, E5.
  cbn [flat_map]. unfold char_eqb. rewrite E1. cbn [flat_map app].
  rewrite E2. cbn [flat_map app]. rewrite E3. cbn [flat_map app].
  rewrite E4. cbn [flat_map app]. rewrite E5. reflexivity.
Qed.

Lemma forallb_flat_map {A B} (p : B -> bool) (f : A -> list B) l :
  (forall x, forallb p (f x) = true) -> forallb p (flat_map f l) = true.
Proof.
  intros H; induction l as [|x l IH]; simpl; auto.
  now rewrite forallb_app, H, IH.
Qed.

Lemma escape_char_clean c :
  forallb (fun d => negb (char_eqb d c_lt) && negb (char_eqb d c_gt)
                    && negb (char_eqb d c_quot) && negb (char_eqb d c_apos))
    (escape_char c) = true.
Proof.
  unfold escape_char.
  destruct (char_eqb c c_amp); [reflexivity|].
  destruct (char_eqb c c_lt) eqn:E2; [reflexivity|].
  destruct (char_eqb c c_gt) eqn:E3; [reflexivity|].
  destruct (char_eqb c c_quot) eqn:E4; [reflexivity|].
  destruct (char_eqb c c_apos) eqn:E5; [reflexivity|].
  simpl. now rewrite E2, E3, E4, E5.
Qed.

Lemma no_angle_escapeXml s : no_angle (escapeXml s) = true.
Proof.
  rewrite escapeXml_flat_map. unfold no_angle.
  apply forallb_flat_map. intros c.
  pose proof (escape_char_clean c) as H.
  rewrite forallb_forall in *. intros d Hd. specialize (H d Hd).
  destruct (char_eqb d c_lt), (char_eqb d c_gt); auto.
Qed.

(** The assembled document starts with [<] and ends with [>], so the final
    [trim] removes nothing. *)
Lemma generate_replacements_any np st :
  generateLotusParamXML np st = replacements (assembled np st).
Proof.
  unfold generateLotusParamXML, normalize, assembled.
  set (mid := renderInterface st ++ physicsEngineInterface st
              ++ waypointFollowerInterface np st).
  assert (exists z, lit "<lotus_param>" ++ renderInterface st
            ++ physicsEngineInterface st
            ++ waypointFollowerInterface np st
            ++ lit "</lotus_param>" = c_lt :: z ++ [c_gt]) as [z ->].
  { exists (lit "lotus_param>" ++ mid ++ lit "</lotus_param").
    subst mid. change (lit "<lotus_param>") with (c_lt :: lit "lotus_param>").
    change (lit "</lotus_param>") with (lit "</lotus_param" ++ [c_gt]).
    simpl. rewrite <- !app_assoc. reflexivity. }
  rewrite replacements_cons_solid by reflexivity.
  rewrite replacements_snoc_gt.
  now apply trim_id.
Qed.

Lemma generate_replacements st :
  generateLotusParamXML Number_toString st
    = replacements (assembled Number_toString st).
Proof. apply generate_replacements_any. Qed.

(** *** The tokens of the document are well formed *)

Lemma tag_name_ok_app a b :
  tag_name_ok (a ++ b) = tag_name_ok a && tag_name_ok b.
Proof. apply forallb_app. Qed.

Lemma tag_name_ok_uint d : tag_name_ok (uint_to_string d) = true.
Proof. induction d; simpl; auto. Qed.

Lemma tag_name_ok_thruster idx : tag_name_ok (thruster_name idx) = true.
Proof.
  unfold thruster_name, index_to_string.
  now rewrite tag_name_ok_app, tag_name_ok_uint.
Qed.

Lemma tag_name_ok_mode m : tag_name_ok (mode_key m) = true.
Proof. now destruct m. Qed.

Lemma tag_name_ok_close n :
  tag_name_ok (close_name n) = tag_name_ok n.
Proof. reflexivity. Qed.

Lemma no_angle_bool b : no_angle (bool_to_string b) = true.
Proof. now destruct b. Qed.

Lemma no_angle_spaces k : no_angle (repeat c_sp k) = true.
Proof. induction k; simpl; auto. Qed.

Lemma token_ok_ind k : token_ok (ind k) = true.
Proof.
  unfold ind. cbn [token_ok]. now rewrite no_angle_app, no_angle_spaces.
Qed.

Lemma token_ok_sp k : token_ok (sp k) = true.
Proof. apply no_angle_spaces. Qed.

Lemma forallb_concat {A} (p : A -> bool) l :
  forallb (forallb p) l = true -> forallb p (List.concat l) = true.
Proof.
  induction l as [|x l IH]; simpl; auto. intros H.
  apply andb_true_iff in H as [H1 H2]. now rewrite forallb_app, H1, IH.
Qed.

Lemma forallb_join_tokens p sep l :
  forallb p sep = true -> forallb (forallb p) l = true ->
  forallb p (join_tokens sep l) = true.
Proof.
  intros Hs. induction l as [|x [|y r] IH]; auto.
  - simpl. intros H. now apply andb_true_iff in H as [H _].
  - intros H. change (forallb (forallb p) (x :: y :: r))
      with (forallb p x && forallb (forallb p) (y :: r)) in H.
    apply andb_true_iff in H as [H1 H2].
    change (join_tokens sep (x :: y :: r))
      with (x ++ sep ++ join_tokens sep (y :: r)).
    now rewrite !forallb_app, H1, Hs, IH.
Qed.

Lemma forallb_mapi_from {A B} (p : B -> bool) (f : A -> nat -> B) i l :
  (forall x k, p (f x k) = true) -> forallb p (mapi_from f i l) = true.
Proof.
  intros H; revert i; induction l as [|x l IH]; intros i; simpl; auto.
  now rewrite H, IH.
Qed.

Ltac tokens_ok :=
  cbn [forallb app elem token_ok];
  rewrite ?forallb_app; cbn [forallb app elem token_ok];
  rewrite ?token_ok_ind, ?token_ok_sp, ?tag_name_ok_close,
    ?tag_name_ok_mode, ?tag_name_ok_thruster, ?no_angle_escapeXml,
    ?no_angle_bool;
  try reflexivity.

Lemma render_tokens_ok st : forallb token_ok (render_tokens st) = true.
Proof.
  unfold render_tokens. destruct (rendering_engine (plugins st)); tokens_ok.
Qed.

Lemma thruster_tokens_ok t idx :
  forallb token_ok (thruster_tokens t idx) = true.
Proof. unfold thruster_tokens. tokens_ok. Qed.

Lemma mode_tokens_ok st m : forallb token_ok (mode_tokens st m) = true.
Proof.
  unfold mode_tokens. rewrite !forallb_app.
  rewrite forallb_join_tokens;
    [| reflexivity | apply forallb_mapi_from, thruster_tokens_ok].
  tokens_ok.
Qed.

Lemma physics_tokens_ok st : forallb token_ok (physics_tokens st) = true.
Proof.
  unfold physics_tokens. destruct (physics_engine (plugins st)); auto.
  rewrite !forallb_app. rewrite forallb_concat.
  - tokens_ok.
  - apply forallb_forall. intros x Hx. apply in_map_iff in Hx as [m [<- _]].
    apply mode_tokens_ok.
Qed.

(** *** Where the [follower] tags are *)

Lemma count_tag_concat n l :
  Forall (fun ts => count_tag n ts = 0) l -> count_tag n (List.concat l) = 0.
Proof.
  induction 1 as [|x l Hx _ IH]; simpl; auto.
  now rewrite count_tag_app, Hx, IH.
Qed.

Lemma count_follower_thrusters i l :
  count_tag (lit "follower")
    (join_tokens [Txt nl] (mapi_from thruster_tokens i l)) = 0.
Proof.
  revert i; induction l as [|x [|y r] IH]; intros i; auto.
  change (mapi_from thruster_tokens i (x :: y :: r))
    with (thruster_tokens x i :: mapi_from thruster_tokens (S i) (y :: r)).
  change (join_tokens [Txt nl] (?a :: ?b))
    with (a ++ [Txt nl]
          ++ join_tokens [Txt nl] (mapi_from thruster_tokens (S i) (y :: r))).
  rewrite !count_tag_app, IH. reflexivity.
Qed.

Lemma count_follower_mode st m :
  count_tag (lit "follower") (mode_tokens st m) = 0.
Proof.
  unfold mode_tokens, mapi. rewrite !count_tag_app, count_follower_thrusters.
  now destruct m.
Qed.

Lemma count_follower_physics st :
  count_tag (lit "follower") (physics_tokens st) = 0.
Proof.
  unfold physics_tokens. destruct (physics_engine (plugins st)); auto.
  rewrite !count_tag_app, count_tag_concat; [reflexivity|].
  apply Forall_forall. intros x Hx. apply in_map_iff in Hx as [m [<- _]].
  apply count_follower_mode.
Qed.

Lemma count_follower_render st :
  count_tag (lit "follower") (render_tokens st) = 0.
Proof.
  unfold render_tokens. now destruct (rendering_engine (plugins st)).
Qed.

Lemma count_follower_waypoints l :
  count_tag (lit "follower")
    (List.concat (map (waypoint_tokens Number_toString) l)) = 0.
Proof.
  apply count_tag_concat, Forall_forall.
  intros x Hx. now apply in_map_iff in Hx as [w [<- _]].
Qed.

Lemma count_follower_followers wf :
  count_tag (lit "follower") (followers_tokens Number_toString wf)
  = if follower_emitted wf then 1 else 0.
Proof.
  unfold followers_tokens, follower_emitted.
  destruct (jsstring_eqb (mode wf) (lit "waypoints")) eqn:E1;
    destruct (jsstring_eqb (mode wf) (lit "line")) eqn:E2;
    destruct (jsstring_eqb (mode wf) (lit "circle")) eqn:E3;
    try (apply jsstring_eqb_eq in E1; rewrite E1 in *; discriminate);
    try (apply jsstring_eqb_eq in E2; rewrite E2 in *; discriminate);
    cbn [andb orb app]; rewrite ?app_nil_r.
  - destruct (0 <? List.length (waypoints wf)); [|reflexivity].
    unfold waypoints_follower_tokens.
    rewrite !count_tag_app, count_follower_waypoints. reflexivity.
  - reflexivity.
  - reflexivity.
  - reflexivity.
Qed.

Lemma count_follower_doc st :
  count_tag (lit "follower") (doc_tokens Number_toString st)
  = if enabled (waypointFollower st) && follower_emitted (waypointFollower st)
    then 1 else 0.
Proof.
  unfold doc_tokens, follower_block_tokens.
  rewrite !count_tag_app, count_follower_render, count_follower_physics.
  destruct (enabled (waypointFollower st)); [|reflexivity].
  rewrite !count_tag_app, count_follower_followers. cbn [andb].
  destruct (follower_emitted (waypointFollower st)); reflexivity.
Qed.

(** The output, in closed form: the tags of the document with the texts
    between them normalised. *)
Lemma generate_tokens st :
  forallb token_ok (doc_tokens Number_toString st) = true ->
  generateLotusParamXML Number_toString st
  = lit "<lotus_param>" ++ render (compact [] (doc_tokens Number_toString st))
      ++ text_content (pending [] (doc_tokens Number_toString st))
      ++ lit "</lotus_param>".
Proof.
  intros Hok. rewrite generate_replacements, assembled_tokens.
  rewrite replacements_render by auto.
  reflexivity.
Qed.

Lemma occurrences_follower_of st :
  forallb token_ok (doc_tokens Number_toString st) = true ->
  occurrences (lit "<follower>") (generateLotusParamXML Number_toString st)
  = if enabled (waypointFollower st) && follower_emitted (waypointFollower st)
    then 1 else 0.
Proof.
  intros Hok. rewrite generate_tokens by assumption.
  set (ts := compact [] (doc_tokens Number_toString st)).
  set (p := text_content (pending [] (doc_tokens Number_toString st))).
  assert (lit "<lotus_param>" ++ render ts ++ p ++ lit "</lotus_param>"
          = render (Tag (lit "lotus_param") :: ts
                    ++ [Txt p; Tag (lit "/lotus_param")])) as ->.
  { cbn [render]. rewrite render_app. cbn [render]. flatten_app.
    reflexivity. }
  change (lit "<follower>") with (c_lt :: lit "follower" ++ [c_gt]).
  rewrite occurrences_render; [|reflexivity|].
  - cbn [count_tag]. rewrite count_tag_app. subst ts.
    rewrite count_tag_compact, count_follower_doc. cbn. lia.
  - cbn [forallb token_ok]. rewrite forallb_app. subst ts p.
    rewrite compact_ok by auto.
    cbn [forallb token_ok].
    rewrite no_angle_text_content by (apply pending_ok; auto).
    reflexivity.
Qed.

(** Without a follower there is no number in the document. *)
Lemma doc_tokens_ok_no_follower st :
  enabled (waypointFollower st) && follower_emitted (waypointFollower st)
  = false ->
  forallb token_ok (doc_tokens Number_toString st) = true.
Proof.
  intros H. unfold doc_tokens, follower_block_tokens.
  rewrite !forallb_app, render_tokens_ok, physics_tokens_ok.
  destruct (enabled (waypointFollower st)); [|reflexivity].
  cbn [andb] in H. unfold follower_emitted in H. unfold followers_tokens.
  destruct (jsstring_eqb (mode (waypointFollower st)) (lit "waypoints")
            && (0 <? List.length (waypoints (waypointFollower st))));
    [discriminate|].
  destruct (jsstring_eqb (mode (waypointFollower st)) (lit "line"));
    [discriminate|].
  destruct (jsstring_eqb (mode (waypointFollower st)) (lit "circle"));
    [discriminate|].
  reflexivity.
Qed.

(** *** The waypoint-follower section without a follower *)

Lemma pending_tag_end acc ts n : pending acc (ts ++ [Tag n]) = [].
Proof. now rewrite pending_app. Qed.

Lemma pending_render_tokens st : pending [] (render_tokens st) = [].
Proof.
  unfold render_tokens. now destruct (rendering_engine (plugins st)).
Qed.

Lemma pending_physics_tokens acc st :
  pending acc (physics_tokens st)
  = if physics_engine (plugins st) then [] else acc.
Proof.
  unfold physics_tokens. destruct (physics_engine (plugins st)); auto.
  change [ind 6; Tag (lit "/physics_engine_interface")]
    with ([ind 6] ++ [Tag (lit "/physics_engine_interface")]).
  rewrite !app_assoc. apply pending_tag_end.
Qed.

Lemma pending_before_follower st :
  pending [] (render_tokens st ++ physics_tokens st) = [].
Proof.
  rewrite pending_app, pending_render_tokens, pending_physics_tokens.
  now destruct (physics_engine (plugins st)).
Qed.

Lemma empty_follower_section st :
  enabled (waypointFollower st) = true ->
  follower_emitted (waypointFollower st) = false ->
  exists prefix,
    generateLotusParamXML Number_toString (with_follower_enabled false st)
      = prefix ++ lit "</lotus_param>"
    /\ generateLotusParamXML Number_toString st
       = prefix ++ lit "<waypoint_follower></waypoint_follower></lotus_param>".
Proof.
  intros He Hf.
  exists (lit "<lotus_param>"
          ++ render (compact [] (render_tokens st ++ physics_tokens st))).
  split.
  - rewrite generate_tokens
      by (apply doc_tokens_ok_no_follower; reflexivity).
    unfold doc_tokens.
    change (follower_block_tokens Number_toString
              (with_follower_enabled false st))
      with (@nil token).
    change (render_tokens (with_follower_enabled false st))
      with (render_tokens st).
    change (physics_tokens (with_follower_enabled false st))
      with (physics_tokens st).
    rewrite !app_nil_r, pending_before_follower.
    flatten_app. reflexivity.
  - rewrite generate_tokens
      by (apply doc_tokens_ok_no_follower; now rewrite He, Hf).
    unfold doc_tokens, follower_block_tokens, followers_tokens.
    rewrite He. unfold follower_emitted in Hf.
    destruct (jsstring_eqb (mode (waypointFollower st)) (lit "waypoints")
            && (0 <? List.length (waypoints (waypointFollower st))));
      [discriminate|].
    destruct (jsstring_eqb (mode (waypointFollower st)) (lit "line"));
      [discriminate|].
    destruct (jsstring_eqb (mode (waypointFollower st)) (lit "circle"));
      [discriminate|].
    rewrite (app_assoc (render_tokens st)).
    rewrite compact_app.
    rewrite (pending_app _ (render_tokens st ++ physics_tokens st)).
    rewrite pending_before_follower.
    rewrite render_app. flatten_app. reflexivity.
Qed.

(** C2 (as amended). With the waypoint follower enabled, the mode set to
    [waypoints] and no waypoint, the output has no [<follower>] element, but
    it is not the output of the disabled block: it is that output with an
    empty [<waypoint_follower></waypoint_follower>] element added in front
    of the closing [</lotus_param>]. *)
Theorem empty_waypoints_empty_section st :
  enabled (waypointFollower st) = true ->
  mode (waypointFollower st) = lit "waypoints" ->
  waypoints (waypointFollower st) = [] ->
  occurrences (lit "<follower>") (generateLotusParamXML Number_toString st) = 0
  /\ exists prefix,
       generateLotusParamXML Number_toString (with_follower_enabled false st)
       = prefix ++ lit "</lotus_param>"
       /\ generateLotusParamXML Number_toString st
          = prefix
            ++ lit "<waypoint_follower></waypoint_follower></lotus_param>".
Proof.
  intros He Hm Hw.
  assert (follower_emitted (waypointFollower st) = false) as Hf.
  { unfold follower_emitted. now rewrite Hm, Hw. }
  split.
  - rewrite occurrences_follower_of
      by (apply doc_tokens_ok_no_follower; now rewrite He, Hf).
    now rewrite He, Hf.
  - now apply empty_follower_section.
Qed.

(** *** The element of a physics mode *)

Lemma text_content_ws w : forallb is_ws w = true -> text_content w = [].
Proof.
  intros H. unfold text_content, gap.
  assert (forallb is_ws (collapse_ws (strip_breaks w)) = true) as ->;
    [|reflexivity].
  apply forallb_collapse_ws; [reflexivity|].
  rewrite strip_breaks_filter. rewrite forallb_forall in *.
  intros c Hc. apply filter_In in Hc as [Hc _]. auto.
Qed.

Lemma escapeXml_plain t :
  forallb (fun c => negb (is_reserved c)) t = true -> escapeXml t = t.
Proof.
  rewrite escapeXml_flat_map. induction t as [|c t IH]; simpl; auto.
  intros H. apply andb_true_iff in H as [Hc Ht]. rewrite (IH Ht).
  unfold is_reserved in Hc. unfold escape_char.
  destruct (char_eqb c c_amp); [discriminate|].
  destruct (char_eqb c c_lt); [discriminate|].
  destruct (char_eqb c c_gt); [discriminate|].
  destruct (char_eqb c c_quot); [discriminate|].
  destruct (char_eqb c c_apos); [discriminate|]. reflexivity.
Qed.

Lemma text_content_plain t :
  text_plain t = true -> text_content (escapeXml t) = t.
Proof.
  unfold text_plain. intros H.
  apply andb_true_iff in H as [H H4]. apply andb_true_iff in H as [H H3].
  apply andb_true_iff in H as [H1 H2].
  rewrite escapeXml_plain by assumption.
  unfold text_content. rewrite strip_breaks_id, collapse_ws_id by assumption.
  unfold gap. destruct t as [|c t]; [reflexivity|].
  apply negb_true_iff in H4. now rewrite H4.
Qed.

Lemma compact_thrusters acc i l :
  forallb is_ws acc = true ->
  render (compact acc (join_tokens [Txt nl] (mapi_from thruster_tokens i l)))
  = List.concat (mapi_from thruster_element i l)
  /\ forallb is_ws
       (pending acc (join_tokens [Txt nl] (mapi_from thruster_tokens i l)))
     = true.
Proof.
  revert acc i; induction l as [|x [|y r] IH]; intros acc i Hacc.
  - now split.
  - split; [|reflexivity].
    cbn [mapi_from join_tokens thruster_tokens elem compact sp render
         List.concat].
    rewrite text_content_ws
      by (rewrite forallb_app, Hacc; reflexivity).
    unfold thruster_element, thruster_name, close_name.
    flatten_app. rewrite ?app_nil_r. reflexivity.
  - change (mapi_from thruster_tokens i (x :: y :: r))
      with (thruster_tokens x i :: mapi_from thruster_tokens (S i) (y :: r)).
    change (join_tokens [Txt nl] (?a :: ?b))
      with (a ++ Txt nl
            :: join_tokens [Txt nl] (mapi_from thruster_tokens (S i) (y :: r))).
    rewrite compact_app, pending_app, render_app.
    change (pending acc (thruster_tokens x i)) with (@nil char).
    cbn [compact pending app].
    destruct (IH nl (S i) eq_refl) as [IH1 IH2].
    rewrite IH1, IH2. split; [|reflexivity].
    change (mapi_from thruster_element i (x :: y :: r))
      with (thruster_element x i
            :: mapi_from thruster_element (S i) (y :: r)).
    cbn [List.concat]. f_equal.
    cbn [thruster_tokens elem compact sp render].
    rewrite text_content_ws
      by (rewrite forallb_app, Hacc; reflexivity).
    unfold thruster_element, thruster_name, close_name.
    flatten_app. rewrite ?app_nil_r. reflexivity.
Qed.

Lemma compact_mode_tokens st m :
  render (compact [] (mode_tokens st m ++ [ind 8])) = mode_element st m
  /\ text_content (pending [] (mode_tokens st m ++ [ind 8])) = [].
Proof.
  unfold mode_tokens.
  set (cfg := physicsConfig st m).
  set (head := [ind 8; Tag (mode_key m); ind 10]
               ++ elem (lit "ConnectionType") (escapeXml (connectionType cfg))
               ++ [sp 24; ind 10]
               ++ elem (lit "uri") (escapeXml (uri cfg))
               ++ [ind 10; Tag (lit "thrusters"); ind 4]).
  set (j := join_tokens [Txt nl] (mapi thruster_tokens (thrusters cfg))).
  set (tail := [ind 10; Tag (lit "/thrusters"); ind 8;
                Tag (close_name (mode_key m))]).
  assert ((([ind 8; Tag (mode_key m); ind 10]
            ++ elem (lit "ConnectionType") (escapeXml (connectionType cfg))
            ++ [sp 24; ind 10]
            ++ elem (lit "uri") (escapeXml (uri cfg))
            ++ [ind 10; Tag (lit "thrusters"); ind 4] ++ j ++ tail)
           ++ [ind 8])
          = head ++ j ++ (tail ++ [ind 8])) as ->.
  { subst head. rewrite <- !app_assoc. reflexivity. }
  destruct (compact_thrusters (nl ++ repeat c_sp 4) 0 (thrusters cfg) eq_refl)
    as [J1 J2].
  fold (mapi thruster_tokens (thrusters cfg)) in J1, J2. fold j in J1, J2.
  fold (mapi thruster_element (thrusters cfg)) in J1.
  assert (pending [] head = nl ++ repeat c_sp 4) as Hh by reflexivity.
  split.
  - rewrite compact_app, Hh, compact_app, !render_app, J1.
    subst tail. cbn [compact app ind sp render].
    rewrite text_content_ws by (rewrite forallb_app, J2; reflexivity).
    subst head. unfold elem, close_name. cbn [compact app ind sp render].
    unfold mode_element. fold cfg. flatten_app. reflexivity.
  - rewrite !pending_app. reflexivity.
Qed.

Lemma replacements_render_middle pre n ts n2 post :
  forallb token_ok ts = true ->
  replacements (render (pre ++ Tag n :: ts ++ Tag n2 :: post))
  = replacements (render pre ++ c_lt :: n) ++ c_gt :: render (compact [] ts)
      ++ text_content (pending [] ts)
      ++ c_lt :: replacements (n2 ++ c_gt :: render post).
Proof.
  intros Hts.
  rewrite <- (replacements_render (render pre ++ c_lt :: n) []
                ts (n2 ++ c_gt :: render post)) by auto.
  f_equal. rewrite render_app. cbn [render]. rewrite render_app.
  cbn [render app]. rewrite <- !app_assoc. reflexivity.
Qed.

Lemma mode_tokens_first st m :
  exists rest, mode_tokens st m = ind 8 :: Tag (mode_key m) :: rest.
Proof. unfold mode_tokens. eexists. reflexivity. Qed.

Lemma mode_tokens_last st m :
  exists front, mode_tokens st m = front ++ [Tag (close_name (mode_key m))].
Proof.
  unfold mode_tokens.
  change [ind 10; Tag (lit "/thrusters"); ind 8; Tag (close_name (mode_key m))]
    with ([ind 10; Tag (lit "/thrusters"); ind 8]
          ++ [Tag (close_name (mode_key m))]).
  eexists. rewrite !app_assoc. reflexivity.
Qed.

Lemma modes_before st l front n0 :
  exists pre n,
    (front ++ [Tag n0]) ++ List.concat (map (mode_tokens st) l)
    = pre ++ [Tag n].
Proof.
  destruct l as [|m l _] using rev_ind.
  - exists front, n0. apply app_nil_r.
  - destruct (mode_tokens_last st m) as [x Hx].
    rewrite map_app, concat_app. cbn [map List.concat].
    rewrite app_nil_r, Hx.
    eexists _, _. rewrite !app_assoc. reflexivity.
Qed.

Lemma modes_after st l n3 rest :
  exists n2 post,
    List.concat (map (mode_tokens st) l) ++ ind 8 :: Tag n3 :: rest
    = ind 8 :: Tag n2 :: post.
Proof.
  destruct l as [|m l].
  - now exists n3, rest.
  - destruct (mode_tokens_first st m) as [y Hy].
    cbn [map List.concat]. rewrite Hy.
    eexists _, _. reflexivity.
Qed.

Lemma enabled_modes_split st m :
  physicsModes st m = true ->
  exists l1 l2, enabled_modes st = l1 ++ m :: l2.
Proof.
  intros H. apply in_split.
  unfold enabled_modes, physicsModes_entries. cbn [map filter].
  destruct m; rewrite ?H;
    destruct (physicsModes st aerial) eqn:Ea;
    destruct (physicsModes st surface) eqn:Es;
    destruct (physicsModes st underwater) eqn:Eu;
    try discriminate; cbn; auto.
Qed.

Lemma mode_element_in_output st m :
  physics_engine (plugins st) = true ->
  physicsModes st m = true ->
  exists pre post,
    generateLotusParamXML Number_toString st
    = pre ++ mode_element st m ++ post.
Proof.
  intros Hp Hm.
  destruct (enabled_modes_split st m Hm) as (l1 & l2 & Hl).
  destruct (modes_before st l1
              (Tag (lit "lotus_param") :: render_tokens st ++ [ind 6])
              (lit "physics_engine_interface")) as (pre & n & Hpre).
  destruct (modes_after st l2 (lit "init_state")
              ([Txt (escapeXml (initState st)); Tag (lit "/init_state");
                ind 6; Tag (lit "/physics_engine_interface")]
               ++ follower_block_tokens Number_toString st
               ++ [Tag (lit "/lotus_param")]))
    as (n2 & post & Hpost).
  assert (Tag (lit "lotus_param") :: doc_tokens Number_toString st
                                     ++ [Tag (lit "/lotus_param")]
          = pre ++ Tag n :: (mode_tokens st m ++ [ind 8]) ++ Tag n2 :: post)
    as Hsplit.
  { unfold doc_tokens, physics_tokens. rewrite Hp, Hl.
    rewrite map_app, concat_app. cbn [map List.concat].
    transitivity
      (((Tag (lit "lotus_param") :: render_tokens st ++ [ind 6])
        ++ [Tag (lit "physics_engine_interface")])
       ++ List.concat (map (mode_tokens st) l1)
       ++ mode_tokens st m
       ++ (List.concat (map (mode_tokens st) l2)
           ++ ind 8 :: Tag (lit "init_state")
              :: [Txt (escapeXml (initState st)); Tag (lit "/init_state");
                  ind 6; Tag (lit "/physics_engine_interface")]
                 ++ follower_block_tokens Number_toString st
                 ++ [Tag (lit "/lotus_param")])).
    - unfold elem. cbn [app]. rewrite <- !app_assoc. cbn [app].
      rewrite <- !app_assoc. reflexivity.
    - rewrite Hpost, app_assoc, Hpre.
      rewrite <- !app_assoc. cbn [app]. reflexivity. }
  assert (assembled Number_toString st
          = render (Tag (lit "lotus_param") :: doc_tokens Number_toString st
                    ++ [Tag (lit "/lotus_param")])) as Ha.
  { rewrite assembled_tokens. cbn [render]. rewrite render_app.
    cbn [render]. flatten_app. reflexivity. }
  rewrite generate_replacements, Ha, Hsplit.
  rewrite replacements_render_middle.
  2:{ rewrite forallb_app, mode_tokens_ok. reflexivity. }
  destruct (compact_mode_tokens st m) as [-> ->].
  eexists (_ ++ [c_gt]), _. rewrite <- app_assoc. cbn [app]. reflexivity.
Qed.

(** C6 (as amended). For an enabled physics mode the output contains the
    element of the mode, whose [<thrusters>] child holds exactly
    [<thrusters1>], ..., [<thrustersN>] in the order of the thruster list.
    The content of [<thrustersK>] is the K-th name after escaping and after
    the replacements applied to the whole document; it is the name itself
    when the name is plain (no reserved character, no line break or tab, no
    two adjacent white-space characters, not white space only). *)
Theorem thruster_elements_in_order st m :
  physics_engine (plugins st) = true ->
  physicsModes st m = true ->
  (exists pre post,
      generateLotusParamXML Number_toString st
      = pre ++ mode_element st m ++ post)
  /\ (forall t idx, text_plain t = true ->
        thruster_element t idx
        = lit "<thrusters" ++ index_to_string (idx + 1) ++ lit ">" ++ t
          ++ lit "</thrusters" ++ index_to_string (idx + 1) ++ lit ">")
  /\ List.concat (mapi thruster_element [lit "A"; lit "B"; lit "C"])
     = lit ("<thrusters1>A</thrusters1><thrusters2>B</thrusters2>"
            ++ "<thrusters3>C</thrusters3>").
Proof.
  intros Hp Hm. split; [|split].
  - now apply mode_element_in_output.
  - intros t idx Ht. unfold thruster_element.
    now rewrite text_content_plain.
  - reflexivity.
Qed.

(** *** What the string and number fields contribute to the output *)

Lemma count_nil c : count c [] = 0.
Proof. reflexivity. Qed.

Ltac count_blocks :=
  rewrite ?count_app; cbn [flat_map app]; rewrite ?count_app, ?count_nil;
  try lia.

Lemma count_renderInterface c st :
  count c (renderInterface st)
  = count c (renderInterface (blank_strings st))
    + count c (flat_map escapeXml
                 (if rendering_engine (plugins st)
                  then [rendererType st] else [])).
Proof.
  unfold renderInterface.
  cbn [blank_strings plugins rendererType publishRender].
  destruct (rendering_engine (plugins st)); [|reflexivity].
  change (escapeXml []) with (@nil char). count_blocks.
Qed.

Lemma count_thrusters c i l :
  count c (join nl (mapi_from thrusterLine i l))
  = count c (join nl (mapi_from thrusterLine i (map (fun _ => []) l)))
    + count c (flat_map escapeXml l).
Proof.
  revert i; induction l as [|x [|y r] IH]; intros i.
  - reflexivity.
  - cbn [map mapi_from join]. unfold thrusterLine.
    change (escapeXml []) with (@nil char). count_blocks.
  - change (join nl (mapi_from thrusterLine i (x :: y :: r)))
      with (thrusterLine x i ++ nl
            ++ join nl (mapi_from thrusterLine (S i) (y :: r))).
    change (join nl (mapi_from thrusterLine i
                       (map (fun _ => []) (x :: y :: r))))
      with (thrusterLine [] i ++ nl
            ++ join nl (mapi_from thrusterLine (S i)
                          (map (fun _ : jsstring => @nil char) (y :: r)))).
    cbn [flat_map]. rewrite !count_app, (IH (S i)).
    unfold thrusterLine. change (escapeXml []) with (@nil char).
    count_blocks.
Qed.

Lemma count_physicsPart c st m :
  count c (physicsPart st m)
  = count c (physicsPart (blank_strings st) m)
    + count c (flat_map escapeXml (mode_strings st m)).
Proof.
  unfold physicsPart, mode_strings, mapi.
  cbn [blank_strings physicsConfig connectionType uri thrusters].
  change (escapeXml []) with (@nil char).
  rewrite !count_app, (count_thrusters c 0). cbn [flat_map].
  count_blocks.
Qed.

Lemma count_concat_parts c st l :
  count c (List.concat (map (physicsPart st) l))
  = count c (List.concat (map (physicsPart (blank_strings st)) l))
    + count c (flat_map escapeXml (flat_map (mode_strings st) l)).
Proof.
  induction l as [|m l IH]; [reflexivity|].
  cbn [map List.concat flat_map].
  rewrite flat_map_app, !count_app, IH, count_physicsPart. lia.
Qed.

Lemma count_physicsEngineInterface c st :
  count c (physicsEngineInterface st)
  = count c (physicsEngineInterface (blank_strings st))
    + count c (flat_map escapeXml
                 (if physics_engine (plugins st)
                  then flat_map (mode_strings st) (enabled_modes st)
                       ++ [initState st]
                  else [])).
Proof.
  unfold physicsEngineInterface. cbn [blank_strings plugins initState].
  destruct (physics_engine (plugins st)); [|reflexivity].
  rewrite !physicsParts_concat.
  change (enabled_modes (blank_strings st)) with (enabled_modes st).
  change (escapeXml []) with (@nil char).
  rewrite flat_map_app, !count_app, count_concat_parts. cbn [flat_map].
  count_blocks.
Qed.

Lemma count_commonLimits c wf :
  count c (commonLimits Number_toString wf)
  = count c (commonLimits no_text wf)
    + count c (flat_map Number_toString (limit_numbers wf)).
Proof.
  unfold commonLimits, limit_numbers, no_text. count_blocks.
Qed.

Lemma count_waypoints c l :
  count c (List.concat (map (waypointXml Number_toString) l))
  = count c (List.concat (map (waypointXml no_text) l))
    + count c (flat_map Number_toString
                 (flat_map (fun wp => [lat wp; lng wp]) l)).
Proof.
  induction l as [|wp l IH]; [reflexivity|].
  cbn [map List.concat flat_map]. rewrite !count_app, IH.
  unfold waypointXml, no_text. count_blocks.
Qed.

Lemma count_waypointsFollower c wf :
  count c (waypointsFollower Number_toString wf)
  = count c (waypointsFollower no_text wf)
    + count c (flat_map Number_toString
                 (limit_numbers wf
                  ++ flat_map (fun wp => [lat wp; lng wp]) (waypoints wf))).
Proof.
  unfold waypointsFollower.
  rewrite !join_nil_concat, flat_map_app, !count_app, count_commonLimits,
    count_waypoints. lia.
Qed.

Lemma count_lineFollower c wf :
  count c (lineFollower Number_toString wf)
  = count c (lineFollower no_text wf)
    + count c (flat_map Number_toString
                 (limit_numbers wf ++ [direction (line wf); length (line wf)])).
Proof.
  unfold lineFollower. rewrite flat_map_app, !count_app, count_commonLimits.
  unfold no_text. count_blocks.
Qed.

Lemma count_circleFollower c wf :
  count c (circleFollower Number_toString wf)
  = count c (circleFollower no_text wf)
    + count c (flat_map Number_toString
                 (limit_numbers wf ++ [radius (circle wf)])).
Proof.
  unfold circleFollower. rewrite flat_map_app, !count_app, count_commonLimits.
  unfold no_text. count_blocks.
Qed.

Lemma count_followers c wf :
  count c (join [] (followers Number_toString wf))
  = count c (join [] (followers no_text wf))
    + count c (flat_map Number_toString (follower_numbers wf)).
Proof.
  rewrite !join_nil_concat. unfold followers, follower_numbers.
  destruct (jsstring_eqb (mode wf) (lit "waypoints")
            && (0 <? List.length (waypoints wf)));
    destruct (jsstring_eqb (mode wf) (lit "line"));
    destruct (jsstring_eqb (mode wf) (lit "circle"));
    cbn [app List.concat]; rewrite ?app_nil_r, ?flat_map_app, ?count_app;
    rewrite ?count_waypointsFollower, ?count_lineFollower,
      ?count_circleFollower, ?flat_map_app, ?count_app;
    cbn [flat_map]; rewrite ?count_nil; lia.
Qed.

Lemma count_waypointFollowerInterface c st :
  count c (waypointFollowerInterface Number_toString st)
  = count c (waypointFollowerInterface no_text (blank_strings st))
    + count c (flat_map Number_toString (number_fields st)).
Proof.
  unfold waypointFollowerInterface, number_fields.
  cbn [blank_strings waypointFollower].
  destruct (enabled (waypointFollower st)); [|reflexivity].
  rewrite !count_app, count_followers. lia.
Qed.

Lemma count_assembled c st :
  count c (assembled Number_toString st)
  = count c (assembled no_text (blank_strings st))
    + count c (flat_map escapeXml (string_fields st))
    + count c (flat_map Number_toString (number_fields st)).
Proof.
  unfold assembled, string_fields.
  rewrite flat_map_app, !count_app, count_renderInterface,
    count_physicsEngineInterface, count_waypointFollowerInterface.
  lia.
Qed.

(** *** Every [&] of the document starts an entity *)

Lemma amp_ok_render ts :
  forallb token_amp_ok ts = true -> amp_ok (render ts) = true.
Proof.
  induction ts as [|[n|s] r IH]; intros H; auto;
    cbn [forallb token_amp_ok] in H; apply andb_true_iff in H as [H1 H2];
    cbn [render].
  - change (c_lt :: n ++ c_gt :: render r)
      with ([c_lt] ++ n ++ [c_gt] ++ render r).
    repeat apply amp_ok_app; auto. now apply no_amp_amp_ok.
  - apply amp_ok_app; auto.
Qed.

Lemma amp_ok_escape_char c : amp_ok (escape_char c) = true.
Proof.
  unfold escape_char.
  destruct (char_eqb c c_amp) eqn:E; [reflexivity|].
  destruct (char_eqb c c_lt); [reflexivity|].
  destruct (char_eqb c c_gt); [reflexivity|].
  destruct (char_eqb c c_quot); [reflexivity|].
  destruct (char_eqb c c_apos); [reflexivity|].
  cbn [amp_ok]. now rewrite E.
Qed.

Lemma amp_ok_escapeXml s : amp_ok (escapeXml s) = true.
Proof.
  rewrite escapeXml_flat_map. induction s as [|c s IH]; auto.
  cbn [flat_map]. apply amp_ok_app; auto. apply amp_ok_escape_char.
Qed.

Lemma amp_ok_bool b : amp_ok (bool_to_string b) = true.
Proof. now destruct b. Qed.

Lemma no_amp_spaces k : no_amp (repeat c_sp k) = true.
Proof. induction k; simpl; auto. Qed.

Lemma token_amp_ok_ind k : token_amp_ok (ind k) = true.
Proof.
  unfold ind. cbn [token_amp_ok]. apply no_amp_amp_ok.
  pose proof (no_amp_spaces k) as H. unfold no_amp in *.
  now rewrite forallb_app, H.
Qed.

Lemma token_amp_ok_sp k : token_amp_ok (sp k) = true.
Proof. apply no_amp_amp_ok, no_amp_spaces. Qed.

Lemma no_amp_uint d : no_amp (uint_to_string d) = true.
Proof. induction d; simpl; auto. Qed.

Lemma no_amp_thruster idx : no_amp (thruster_name idx) = true.
Proof.
  pose proof (no_amp_uint (Nat.to_uint (idx + 1))) as H.
  unfold thruster_name, index_to_string, no_amp in *.
  now rewrite forallb_app, H.
Qed.

Lemma no_amp_mode m : no_amp (mode_key m) = true.
Proof. now destruct m. Qed.

Lemma no_amp_close n : no_amp (close_name n) = no_amp n.
Proof. reflexivity. Qed.

Ltac tokens_amp_ok :=
  cbn [forallb app elem token_amp_ok];
  rewrite ?forallb_app; cbn [forallb app elem token_amp_ok];
  rewrite ?token_amp_ok_ind, ?token_amp_ok_sp, ?no_amp_close,
    ?no_amp_mode, ?no_amp_thruster, ?amp_ok_escapeXml, ?amp_ok_bool;
  try reflexivity.

Lemma render_tokens_amp_ok st :
  forallb token_amp_ok (render_tokens st) = true.
Proof.
  unfold render_tokens. destruct (rendering_engine (plugins st));
    tokens_amp_ok.
Qed.

Lemma thruster_tokens_amp_ok t idx :
  forallb token_amp_ok (thruster_tokens t idx) = true.
Proof. unfold thruster_tokens. tokens_amp_ok. Qed.

Lemma mode_tokens_amp_ok st m :
  forallb token_amp_ok (mode_tokens st m) = true.
Proof.
  unfold mode_tokens. rewrite !forallb_app.
  rewrite forallb_join_tokens;
    [| reflexivity | apply forallb_mapi_from, thruster_tokens_amp_ok].
  tokens_amp_ok.
Qed.

Lemma physics_tokens_amp_ok st :
  forallb token_amp_ok (physics_tokens st) = true.
Proof.
  unfold physics_tokens. destruct (physics_engine (plugins st)); auto.
  rewrite !forallb_app. rewrite forallb_concat.
  - tokens_amp_ok.
  - apply forallb_forall. intros x Hx. apply in_map_iff in Hx as [m [<- _]].
    apply mode_tokens_amp_ok.
Qed.

Section AmpFreeNumbers.

Hypothesis Number_toString_no_amp :
  forall x, no_amp (Number_toString x) = true.

Lemma amp_ok_number x : amp_ok (Number_toString x) = true.
Proof. apply no_amp_amp_ok, Number_toString_no_amp. Qed.

Lemma limits_tokens_amp_ok wf :
  forallb token_amp_ok (limits_tokens Number_toString wf) = true.
Proof.
  unfold limits_tokens. tokens_amp_ok. now rewrite !amp_ok_number.
Qed.

Lemma waypoint_tokens_amp_ok wp :
  forallb token_amp_ok (waypoint_tokens Number_toString wp) = true.
Proof.
  unfold waypoint_tokens.
  assert (amp_ok (Number_toString (lat wp) ++ lit " "
                  ++ Number_toString (lng wp)) = true) as H
    by (repeat apply amp_ok_app; auto using amp_ok_number).
  tokens_amp_ok. now rewrite H.
Qed.

Lemma followers_tokens_amp_ok wf :
  forallb token_amp_ok (followers_tokens Number_toString wf) = true.
Proof.
  unfold followers_tokens, waypoints_follower_tokens, line_follower_tokens,
    circle_follower_tokens.
  rewrite !forallb_app.
  destruct (jsstring_eqb (mode wf) (lit "waypoints")
            && (0 <? List.length (waypoints wf)));
    destruct (jsstring_eqb (mode wf) (lit "line"));
    destruct (jsstring_eqb (mode wf) (lit "circle"));
    rewrite ?forallb_app, ?limits_tokens_amp_ok;
    rewrite ?forallb_concat;
    tokens_amp_ok; rewrite ?amp_ok_number; try reflexivity;
    apply forallb_forall; intros x Hx; apply in_map_iff in Hx as [w [<- _]];
    apply waypoint_tokens_amp_ok.
Qed.

Lemma doc_tokens_amp_ok st :
  forallb token_amp_ok (doc_tokens Number_toString st) = true.
Proof.
  unfold doc_tokens, follower_block_tokens.
  rewrite !forallb_app, render_tokens_amp_ok, physics_tokens_amp_ok.
  destruct (enabled (waypointFollower st)); auto.
  rewrite !forallb_app, followers_tokens_amp_ok. reflexivity.
Qed.

Lemma amp_ok_generate st :
  amp_ok (generateLotusParamXML Number_toString st) = true.
Proof.
  rewrite generate_replacements.
  apply (@amp_ok_ws_edit (assembled Number_toString st));
    [apply ws_edit_replacements|].
  rewrite assembled_tokens.
  change (lit "<lotus_param" ++ c_gt :: []
          ++ render (doc_tokens Number_toString st)
          ++ c_lt :: lit "/lotus_param>")
    with (lit "<lotus_param>" ++ render (doc_tokens Number_toString st)
          ++ lit "</lotus_param>").
  repeat apply amp_ok_app; auto.
  apply amp_ok_render, doc_tokens_amp_ok.
Qed.

End AmpFreeNumbers.

Lemma count_absent c s :
  forallb (fun d => negb (char_eqb d c)) s = true -> count c s = 0.
Proof.
  induction s as [|d s IH]; auto. cbn [forallb]. intros H.
  apply andb_true_iff in H as [H1 H2].
  rewrite count_cons_ne; auto.
  intros ->. unfold char_eqb in H1. now rewrite N.eqb_refl in H1.
Qed.

Lemma count_escapeXml_reserved c s :
  In c [c_lt; c_gt; c_quot; c_apos] -> count c (escapeXml s) = 0.
Proof.
  intros Hc. apply count_absent. rewrite escapeXml_flat_map.
  apply forallb_flat_map. intros x.
  pose proof (escape_char_clean x) as H. rewrite forallb_forall in *.
  intros d Hd. specialize (H d Hd).
  apply andb_true_iff in H as [H H4]. apply andb_true_iff in H as [H H3].
  apply andb_true_iff in H as [H1 H2].
  cbn [In] in Hc. destruct Hc as [<-|[<-|[<-|[<-|[]]]]]; assumption.
Qed.

Lemma count_generate c st :
  is_ws c = false ->
  count c (generateLotusParamXML Number_toString st)
  = count c (generateLotusParamXML no_text (blank_strings st))
    + count c (flat_map escapeXml (string_fields st))
    + count c (flat_map Number_toString (number_fields st)).
Proof.
  intros Hc.
  rewrite !generate_replacements_any.
  rewrite !(fun s => @count_ws_edit c s _ Hc (ws_edit_replacements s)).
  apply count_assembled.
Qed.

(** C3. Every string field embedded in the output goes through
    [escapeXml], which replaces each of the five reserved characters
    (ampersand, less-than, greater-than, double quote, apostrophe) by its
    entity and nothing else; number and boolean fields are inserted as they
    are.  In terms of the output: ignoring white space, it is made of the
    output for the same state with all strings emptied and no number text,
    of the escaped string fields and of the unescaped number texts; an
    escaped field holds no less-than, greater-than, double quote or
    apostrophe; the text of a boolean has no reserved character; and every
    ampersand of the output starts an entity (as long as the text of a
    number has no ampersand). *)
Theorem string_fields_escaped st :
  (forall s, escapeXml s = flat_map escape_char s)
  /\ (forall c, is_ws c = false ->
        count c (generateLotusParamXML Number_toString st)
        = count c (generateLotusParamXML no_text (blank_strings st))
          + count c (flat_map escapeXml (string_fields st))
          + count c (flat_map Number_toString (number_fields st)))
  /\ (forall s c, In c [c_lt; c_gt; c_quot; c_apos] ->
        count c (escapeXml s) = 0)
  /\ (forall b, escapeXml (bool_to_string b) = bool_to_string b)
  /\ ((forall x, no_amp (Number_toString x) = true) ->
      amp_ok (generateLotusParamXML Number_toString st) = true).
Proof.
  repeat split.
  - apply escapeXml_flat_map.
  - intros c Hc. now apply count_generate.
  - intros s c Hc. now apply count_escapeXml_reserved.
  - now intros [].
  - intros H. now apply amp_ok_generate.
Qed.

Section PlainNumbers.

(** What is used of [Number::toString]: the text of a number has no [<]
    and no [>]. *)
Hypothesis Number_toString_no_angle :
  forall x, no_angle (Number_toString x) = true.

Lemma limits_tokens_ok wf :
  forallb token_ok (limits_tokens Number_toString wf) = true.
Proof.
  unfold limits_tokens. tokens_ok. now rewrite !Number_toString_no_angle.
Qed.

Lemma waypoint_tokens_ok wp :
  forallb token_ok (waypoint_tokens Number_toString wp) = true.
Proof.
  unfold waypoint_tokens. tokens_ok.
  now rewrite !no_angle_app, !Number_toString_no_angle.
Qed.

Lemma followers_tokens_ok wf :
  forallb token_ok (followers_tokens Number_toString wf) = true.
Proof.
  unfold followers_tokens, waypoints_follower_tokens, line_follower_tokens,
    circle_follower_tokens.
  rewrite !forallb_app.
  destruct (jsstring_eqb (mode wf) (lit "waypoints")
            && (0 <? List.length (waypoints wf)));
    destruct (jsstring_eqb (mode wf) (lit "line"));
    destruct (jsstring_eqb (mode wf) (lit "circle"));
    rewrite ?forallb_app, ?limits_tokens_ok;
    rewrite ?forallb_concat;
    tokens_ok; rewrite ?Number_toString_no_angle; try reflexivity;
    apply forallb_forall; intros x Hx; apply in_map_iff in Hx as [w [<- _]];
    apply waypoint_tokens_ok.
Qed.

Lemma follower_block_tokens_ok st :
  forallb token_ok (follower_block_tokens Number_toString st) = true.
Proof.
  unfold follower_block_tokens.
  destruct (enabled (waypointFollower st)); auto.
  rewrite !forallb_app, followers_tokens_ok. reflexivity.
Qed.

Lemma doc_tokens_ok st :
  forallb token_ok (doc_tokens Number_toString st) = true.
Proof.
  unfold doc_tokens.
  now rewrite !forallb_app, render_tokens_ok, physics_tokens_ok,
    follower_block_tokens_ok.
Qed.

Lemma occurrences_follower st :
  occurrences (lit "<follower>") (generateLotusParamXML Number_toString st)
  = if enabled (waypointFollower st) && follower_emitted (waypointFollower st)
    then 1 else 0.
Proof. apply occurrences_follower_of, doc_tokens_ok. Qed.

(** C4 (as amended). With the waypoint follower enabled, the output has at
    most one [<follower>] element: exactly one when the mode is [line] or
    [circle], or [waypoints] with a non-empty list of waypoints, and none
    otherwise (no mode chosen, or [waypoints] with no waypoint). *)
Theorem follower_count_by_mode st :
  enabled (waypointFollower st) = true ->
  occurrences (lit "<follower>") (generateLotusParamXML Number_toString st) <= 1
  /\ (occurrences (lit "<follower>") (generateLotusParamXML Number_toString st)
    = 1
      <-> (mode (waypointFollower st) = lit "line"
           \/ mode (waypointFollower st) = lit "circle"
           \/ (mode (waypointFollower st) = lit "waypoints"
               /\ waypoints (waypointFollower st) <> []))).
Proof.
  intros He. rewrite occurrences_follower, He. cbn [andb].
  unfold follower_emitted. split.
  - destruct (_ || _); lia.
  - set (wf := waypointFollower st). split.
    + destruct (jsstring_eqb (mode wf) (lit "waypoints")) eqn:E1;
        destruct (jsstring_eqb (mode wf) (lit "line")) eqn:E2;
        destruct (jsstring_eqb (mode wf) (lit "circle")) eqn:E3;
        try (apply jsstring_eqb_eq in E2; now auto);
        try (apply jsstring_eqb_eq in E3; now auto).
      * apply jsstring_eqb_eq in E1.
        destruct (waypoints wf) eqn:W; cbn; [discriminate|].
        intros _. right; right. split; [assumption | discriminate].
      * cbn. discriminate.
    + intros [H | [H | [H W]]]; rewrite H; cbn [jsstring_eqb]; try reflexivity.
      destruct (waypoints wf); [contradiction | reflexivity].
Qed.

End PlainNumbers.

(** C5. The chain of replacements and [trim] at the end of
    [generateLotusParamXML] is idempotent: applied to a string that is its
    own output, it changes nothing. *)
Theorem normalize_idempotent (s : jsstring) :
  normalize (normalize s) = normalize s.
Proof.
  destruct (replacements_clean s) as (H1 & H2 & H3).
  destruct (trim_clean _ H1 H2 H3) as (K1 & K2 & K3).
  unfold normalize at 1.
  change (normalize s) with (trim (replacements s)).
  rewrite (replacements_fixed _ K1 K2 K3).
  apply trim_idem.
Qed.

(** C1. When the rendering engine, the physics engine and the waypoint
    follower are all disabled, [generateLotusParamXML] returns exactly
    [<lotus_param></lotus_param>], whatever the fields of the disabled
    blocks hold. *)
Theorem all_disabled_minimal_document st :
  rendering_engine (plugins st) = false ->
  physics_engine (plugins st) = false ->
  enabled (waypointFollower st) = false ->
  generateLotusParamXML Number_toString st = lit "<lotus_param></lotus_param>".
Proof.
  intros Hr Hp Hw.
  unfold generateLotusParamXML, assembled, renderInterface,
    physicsEngineInterface, waypointFollowerInterface.
  rewrite Hr, Hp, Hw. reflexivity.
Qed.

End SerializerFacts.

(** *** The theorems at sample states *)

Import Samples.

Lemma zero_text_no_angle x : no_angle (zero_text x) = true.
Proof. reflexivity. Qed.

Lemma all_disabled_minimal_document_witness :
  generateLotusParamXML zero_text st_all_off
  = lit "<lotus_param></lotus_param>".
Proof.
  apply (all_disabled_minimal_document zero_text st_all_off); reflexivity.
Defined.

(** The claim C2 as stated fails: with [waypoints] mode and no waypoint the
    output differs from the output of the disabled block. *)
Lemma empty_waypoints_not_as_disabled :
  enabled (waypointFollower st_empty_waypoints) = true
  /\ mode (waypointFollower st_empty_waypoints) = lit "waypoints"
  /\ waypoints (waypointFollower st_empty_waypoints) = []
  /\ generateLotusParamXML zero_text st_empty_waypoints
     = lit "<lotus_param><waypoint_follower></waypoint_follower></lotus_param>"
  /\ generateLotusParamXML zero_text
       (with_follower_enabled false st_empty_waypoints)
     = lit "<lotus_param></lotus_param>"
  /\ generateLotusParamXML zero_text st_empty_waypoints
     <> generateLotusParamXML zero_text
          (with_follower_enabled false st_empty_waypoints).
Proof.
  repeat split; try reflexivity. vm_compute. discriminate.
Qed.

Lemma empty_waypoints_empty_section_witness :
  occurrences (lit "<follower>")
    (generateLotusParamXML zero_text st_empty_waypoints) = 0
  /\ exists prefix,
       generateLotusParamXML zero_text
         (with_follower_enabled false st_empty_waypoints)
       = prefix ++ lit "</lotus_param>"
       /\ generateLotusParamXML zero_text st_empty_waypoints
          = prefix
            ++ lit "<waypoint_follower></waypoint_follower></lotus_param>".
Proof.
  apply (empty_waypoints_empty_section zero_text st_empty_waypoints);
    reflexivity.
Defined.

Lemma string_fields_escaped_witness :
  amp_ok (generateLotusParamXML zero_text st_circle) = true.
Proof.
  destruct (string_fields_escaped zero_text st_circle)
    as (_ & _ & _ & _ & H).
  apply H. intros x. reflexivity.
Defined.

(** The claim C4 as stated fails: with the follower enabled and no mode
    chosen the output has no [<follower>] element. *)
Lemma no_mode_no_follower :
  enabled (waypointFollower st_no_mode) = true
  /\ occurrences (lit "<follower>")
       (generateLotusParamXML zero_text st_no_mode) = 0
  /\ occurrences (lit "<follower>")
       (generateLotusParamXML zero_text st_no_mode) <> 1.
Proof.
  repeat split; try reflexivity. vm_compute. discriminate.
Qed.

Lemma follower_count_by_mode_witness :
  occurrences (lit "<follower>") (generateLotusParamXML zero_text st_circle)
  <= 1
  /\ (occurrences (lit "<follower>")
        (generateLotusParamXML zero_text st_circle) = 1
      <-> (mode (waypointFollower st_circle) = lit "line"
           \/ mode (waypointFollower st_circle) = lit "circle"
           \/ (mode (waypointFollower st_circle) = lit "waypoints"
               /\ waypoints (waypointFollower st_circle) <> []))).
Proof.
  apply (follower_count_by_mode zero_text zero_text_no_angle st_circle).
  reflexivity.
Defined.

(** The claim C6 as stated fails: a thruster name with two spaces in a row
    does not appear as entered; the element holds the name with the spaces
    collapsed. *)
Lemma spaced_thruster_name_is_rewritten :
  physics_engine (plugins st_spaced_name) = true
  /\ physicsModes st_spaced_name surface = true
  /\ thrusters (physicsConfig st_spaced_name surface) = [lit "a  b"]
  /\ contains (lit "<thrusters1>a  b</thrusters1>")
       (generateLotusParamXML zero_text st_spaced_name) = false
  /\ contains (lit "<thrusters><thrusters1>a b</thrusters1></thrusters>")
       (generateLotusParamXML zero_text st_spaced_name) = true.
Proof.
  repeat split; vm_compute; reflexivity.
Qed.

Lemma thruster_elements_in_order_witness :
  exists pre post,
    generateLotusParamXML zero_text st_circle
    = pre ++ mode_element st_circle surface ++ post.
Proof.
  apply (thruster_elements_in_order zero_text st_circle surface); reflexivity.
Defined.

(* ------------------------------------------------------------------ *)
(** ** Facts about the telemetry client *)

Module WebSocketFacts.

Import WebSocket.

Section ClientFacts.

Variable host : Host.

Lemma item_test_valid item :
  item_test item = Normal true <-> valid_item item = true.
Proof.
  unfold item_test, valid_item, has_truthy, member.
  destruct item; try (split; discriminate).
  destruct (truthy (assoc (lit "vessel_name") props)); cbn [andb].
  - destruct (truthy (assoc (lit "pose") props)); split; congruence.
  - split; discriminate.
Qed.

Lemma every_item_test items :
  every item_test items = Normal true <-> forallb valid_item items = true.
Proof.
  induction items as [|item rest IH]; cbn [every forallb].
  - split; reflexivity.
  - pose proof (item_test_valid item) as H.
    destruct (item_test item) as [[|]|e]; destruct (valid_item item);
      cbn [andb]; try exact IH;
      try (split; discriminate);
      try (exfalso; destruct H as [H1 H2];
           (discriminate (H1 eq_refl) || discriminate (H2 eq_refl))).
Qed.

Lemma diagnostics_log l msg w :
  diagnostics (log l msg w)
  = diagnostics w + (if is_diagnostic l then 1 else 0).
Proof.
  unfold diagnostics, log. cbn [console].
  rewrite filter_app, length_app. cbn [filter fst].
  destruct (is_diagnostic l); reflexivity.
Qed.

Lemma handleMessage_cases data w :
  (valid_message host data = true
   /\ exists items, JSON_parse host data = Some (JArray items)
                    /\ handleMessage host data w
                      = vesselDataCallback items w)
  \/ (valid_message host data = false
      /\ exists l msg, is_diagnostic l = true
                       /\ handleMessage host data w = log l msg w).
Proof.
  unfold valid_message, handleMessage.
  destruct (JSON_parse host data) as [parsed|].
  2:{ right. split; auto.
      now exists Error, (lit "Error parsing incoming data:"). }
  destruct parsed;
    try (right; split; auto;
         now exists Warn, (lit "Received unexpected data format:")).
  pose proof (every_item_test items) as H.
  destruct (every item_test items) as [[|]|e].
  - left. split; [now apply H|]. now exists items.
  - right. split.
    + destruct (forallb valid_item items); auto.
      destruct H as [_ H]. discriminate (H eq_refl).
    + now exists Warn, (lit "Received unexpected data format:").
  - right. split.
    + destruct (forallb valid_item items); auto.
      destruct H as [_ H]. discriminate (H eq_refl).
    + now exists Error, (lit "Error parsing incoming data:").
Qed.

(** C7. For every inbound message the vessel-data callback is called if
    and only if the message parses as JSON to an array all of whose elements
    have a truthy [vessel_name] and a truthy [pose]; it is then called once,
    with that array, and nothing is reported.  Any other message is dropped
    with exactly one diagnostic (a warning or an error): the callback is not
    called and the batch on display stays as it was. *)
Theorem handleMessage_validates (data : jsstring) (w : World) :
  (calls (handleMessage host data w) <> calls w
    <-> valid_message host data = true)
  /\ (valid_message host data = true ->
      exists items,
        JSON_parse host data = Some (JArray items)
        /\ forallb valid_item items = true
        /\ calls (handleMessage host data w) = calls w ++ [items]
        /\ vesselData (handleMessage host data w) = items
        /\ diagnostics (handleMessage host data w) = diagnostics w)
  /\ (valid_message host data = false ->
      calls (handleMessage host data w) = calls w
      /\ vesselData (handleMessage host data w) = vesselData w
      /\ diagnostics (handleMessage host data w) = S (diagnostics w)
      /\ exists entry,
           console (handleMessage host data w) = console w ++ [entry]).
Proof.
  destruct (handleMessage_cases data w)
    as [[Hv (items & Hp & ->)] | [Hv (l & msg & Hl & ->)]].
  - split; [|split].
    + split; auto. intros _. cbn [vesselDataCallback calls].
      intros E. apply (f_equal (@List.length _)) in E.
      rewrite length_app in E. cbn in E. lia.
    + intros _. exists items. repeat split; auto.
      * unfold valid_message in Hv. now rewrite Hp in Hv.
      * unfold vesselData. cbn [vesselDataCallback calls]. apply last_last.
    + congruence.
  - split; [|split].
    + split; [|congruence]. intros H. now contradiction H.
    + congruence.
    + intros _. repeat split.
      * rewrite diagnostics_log, Hl. lia.
      * now exists (l, msg).
Qed.

(** *** One socket per client *)

Lemma length_update_socket i f l :
  List.length (update_socket i f l) = List.length l.
Proof.
  revert i; induction l as [|s r IH]; intros [|i]; simpl; auto.
Qed.

Lemma sockets_log l msg w : sockets (log l msg w) = sockets w.
Proof. reflexivity. Qed.

Lemma sockets_sendClientName c w :
  List.length (sockets (sendClientName host c w))
    = List.length (sockets w).
Proof.
  unfold sendClientName. destruct (ws c); auto.
  destruct (is_open _ w); auto.
  cbn [log sockets set_sockets]. apply length_update_socket.
Qed.

Lemma sockets_handleMessage data w :
  sockets (handleMessage host data w) = sockets w.
Proof.
  unfold handleMessage. destruct (JSON_parse host data) as [[]|]; auto.
  destruct (every item_test items) as [[|]|]; auto.
Qed.

(** The stored reference is never cleared. *)
Lemma ws_kept a c w i :
  ws c = Some i ->
  ws (fst (step host a (c, w)))
  = Some i.
Proof.
  intros H. unfold step, connect, disconnect. rewrite H.
  destruct a; cbn [fst]; auto;
    destruct (state_of i w) as [[]|]; cbn [fst]; auto.
Qed.

Lemma sockets_onopen c w :
  List.length (sockets (onopen host c w))
  = List.length (sockets w).
Proof. unfold onopen. now rewrite sockets_sendClientName. Qed.

Lemma sockets_onclose b w : sockets (onclose b w) = sockets w.
Proof. now destruct b. Qed.

(** With a stored reference no action creates a socket. *)
Lemma sockets_kept a c w i :
  ws c = Some i ->
  List.length
    (sockets
       (snd (step host a (c, w))))
  = List.length (sockets w).
Proof.
  intros H. unfold step, connect, disconnect. rewrite H.
  destruct a; cbn [snd]; auto.
  - cbn [log sockets set_sockets]. apply length_update_socket.
  - apply sockets_sendClientName.
  - destruct (state_of i w) as [[]|]; cbn [snd]; auto.
    rewrite sockets_onopen. apply length_update_socket.
  - destruct (state_of i w) as [[]|]; cbn [snd]; auto;
      now rewrite sockets_handleMessage.
  - destruct (state_of i w) as [[]|]; cbn [snd]; auto;
      rewrite sockets_onclose; apply length_update_socket.
Qed.

Lemma one_socket_step a cw : one_socket cw ->
  one_socket (step host a cw).
Proof.
  destruct cw as [c w]. unfold one_socket. cbn [fst snd].
  destruct (ws c) as [i|] eqn:E.
  - intros H. rewrite (@ws_kept a c w i E), (@sockets_kept a c w i E). exact H.
  - intros H.
    destruct a; unfold step, connect, disconnect, sendClientName;
      rewrite ?E; try destruct (url_valid host _);
      cbn [fst snd ws set_sockets sockets log set_item];
      rewrite ?E, ?H; auto.
Qed.

Lemma one_socket_run trace cw : one_socket cw ->
  one_socket (run host trace cw).
Proof.
  revert cw; induction trace as [|a t IH]; intros cw H; auto.
  apply IH, one_socket_step, H.
Qed.

Lemma sockets_run_le_one trace w0 :
  fresh w0 = true ->
  List.length (sockets (snd (run host trace (new_client, w0)))) <= 1.
Proof.
  intros Hf.
  assert (one_socket (new_client, w0)) as H0.
  { unfold one_socket, fresh in *. cbn. now destruct (sockets w0). }
  pose proof (@one_socket_run trace _ H0) as H. unfold one_socket in H.
  destruct (ws (fst (run host trace (new_client, w0)))); rewrite H; cbn; lia.
Qed.

(** C8. Calling [connect] on a client that already holds a connection (its
    [ws] is set) does nothing but log two lines and returns normally: no
    socket is created.  Hence, whatever is done to a client, at most one of
    its connections is active (connecting or open) at any time. *)
Theorem connect_when_connected_is_noop :
  (forall c w i,
      ws c = Some i ->
      connect host c w
      = (Normal tt, c,
         log Log (lit "WebSocket is already connected.")
           (log Log (lit "WebSocket connecting.") w))
      /\ sockets (snd (connect host c w)) = sockets w)
  /\ (forall trace w0,
         fresh w0 = true ->
         List.length
           (filter active (sockets (snd (run host trace (new_client, w0)))))
         <= 1).
Proof.
  split.
  - intros c w i H. unfold connect. rewrite H. split; reflexivity.
  - intros trace w0 Hf.
    pose proof (@sockets_run_le_one trace w0 Hf) as H.
    pose proof (filter_length_le active
                  (sockets (snd (run host trace (new_client, w0))))) as L.
    lia.
Qed.

(** C10. Over the lifetime of a client at most one socket is ever created
    (the list of sockets only grows, and never beyond one).  Once
    [connect] has stored a socket, no action clears the reference, not even
    [disconnect]; so a later [connect], also after [disconnect], creates
    nothing.  A new client is needed to connect again: its [connect] does
    create a socket. *)
Theorem at_most_one_socket_per_client :
  (forall trace w0,
      fresh w0 = true ->
      List.length (sockets (snd (run host trace (new_client, w0)))) <= 1)
  /\ (forall a c w i,
         ws c = Some i ->
         ws (fst (step host a (c, w)))
           = Some i
         /\ List.length (sockets (snd (step host a (c, w))))
            = List.length (sockets w))
  /\ (forall c w i,
         ws c = Some i ->
         let cw := disconnect c w in
         ws (fst cw) = Some i
         /\ connect host (fst cw) (snd cw)
            = (Normal tt, c,
               log Log (lit "WebSocket is already connected.")
                 (log Log (lit "WebSocket connecting.") (snd cw))))
  /\ (forall w,
         url_valid host (lit "ws://" ++ getAddress_ip w ++ lit ":5000")
         = true ->
         List.length (sockets (snd (connect host new_client w)))
         = S (List.length (sockets w))).
Proof.
  split; [|split; [|split]].
  - intros trace w0 Hf. now apply sockets_run_le_one.
  - intros a c w i H.
    split; [now apply ws_kept | now apply (@sockets_kept a c w i)].
  - intros c w i H. cbn zeta. unfold disconnect. rewrite H. cbn [fst snd].
    split; auto. unfold connect. now rewrite H.
  - intros w H. unfold connect. cbn [new_client ws].
    change (getAddress_ip (log Log (lit "WebSocket connecting.") w))
      with (getAddress_ip w).
    rewrite H. cbn [snd set_sockets sockets log].
    rewrite length_app. cbn. lia.
Qed.

End ClientFacts.

(** *** The theorems at sample messages and worlds *)

Lemma handleMessage_validates_witness :
  (calls (handleMessage sample_host (lit "bad") empty_world) = []
   /\ diagnostics (handleMessage sample_host (lit "bad") empty_world) = 1)
  /\ vesselData (handleMessage sample_host (lit "batch") empty_world)
     = sample_batch.
Proof.
  split.
  - destruct (handleMessage_validates sample_host (lit "bad") empty_world)
      as (_ & _ & H).
    destruct (H eq_refl) as (H1 & _ & H3 & _). split; assumption.
  - destruct (handleMessage_validates sample_host (lit "batch") empty_world)
      as (_ & H & _).
    destruct (H eq_refl) as (items & Hp & _ & _ & Hv & _).
    injection Hp as <-. exact Hv.
Defined.

Lemma connect_when_connected_is_noop_witness :
  sockets (snd (connect sample_host connected_client connected_world))
  = sockets connected_world
  /\ List.length
       (filter active
          (sockets
             (snd (run sample_host
                     [Connect; OnOpen; Connect; Disconnect; Connect]
                     (new_client, empty_world))))) <= 1.
Proof.
  destruct (connect_when_connected_is_noop sample_host) as (H1 & H2).
  split.
  - apply (H1 connected_client connected_world 0). reflexivity.
  - apply H2. reflexivity.
Defined.

Lemma at_most_one_socket_per_client_witness :
  List.length
    (sockets
       (snd (run sample_host
               [Connect; OnOpen; Disconnect; OnClose true; Connect]
               (new_client, empty_world)))) <= 1
  /\ ws (fst (disconnect connected_client connected_world)) = Some 0
  /\ List.length
       (sockets (snd (connect sample_host new_client empty_world))) = 1.
Proof.
  destruct (at_most_one_socket_per_client sample_host) as (H1 & _ & H3 & H4).
  split; [|split].
  - apply H1. reflexivity.
  - apply (H3 connected_client connected_world 0). reflexivity.
  - apply (H4 empty_world). reflexivity.
Defined.

End WebSocketFacts.

(* ------------------------------------------------------------------ *)
(** ** Facts about the marker icon *)

Module MarkerFacts.

Import Marker.

#[local] Open Scope float_scope.

(** C9. For every zoom level the icon width is [0.5 + zoomLevel] and the
    icon height is the width times [1.625] (in double arithmetic); the
    width is 0.5 at zoom 0 and 10.5 at zoom 10; at the whole zoom levels 0
    to 30 both are exact. *)
Theorem icon_size_by_zoom :
  (forall z, icon_width z = 0.5 + z /\ icon_height z = icon_width z * 1.625)
  /\ icon_width 0 = 0.5
  /\ icon_width 10 = 10.5
  /\ icon_height 0 = 0.8125
  /\ icon_height 10 = 17.0625
  /\ forallb exact_at (seq 0 31) = true.
Proof.
  repeat split; vm_compute; reflexivity.
Qed.

End MarkerFacts.

(* ------------------------------------------------------------------ *)
(** ** The sections of the document and its white space *)

Module SectionFacts.

Import Markup.

Lemma ws_no_angle w : forallb is_ws w = true -> no_angle w = true.
Proof.
  intros Hw. unfold no_angle. rewrite forallb_forall in *. intros c Hc.
  specialize (Hw c Hc).
  destruct (char_eqb c c_lt) eqn:E1.
  - apply N.eqb_eq in E1. subst c. discriminate.
  - destruct (char_eqb c c_gt) eqn:E2; auto.
    apply N.eqb_eq in E2. subst c. discriminate.
Qed.

(** The replacements work on both sides of a [>] separately. *)
Lemma replacements_app_gt a z :
  replacements (a ++ c_gt :: z) = replacements a ++ replacements (c_gt :: z).
Proof.
  unfold replacements.
  rewrite strip_breaks_app.
  change (c_gt :: z) with ([c_gt] ++ z). rewrite strip_breaks_app.
  change (strip_breaks [c_gt]) with [c_gt]. cbn [app].
  rewrite collapse_ws_app_stop by reflexivity.
  rewrite close_tags_app_gt. reflexivity.
Qed.

(** White space between a [>] and a [<] goes. *)
Lemma replacements_junction w y :
  forallb is_ws w = true ->
  replacements (c_gt :: w ++ c_lt :: y) = c_gt :: c_lt :: replacements y.
Proof.
  intros Hw.
  pose proof (@replacements_between [] w y (ws_no_angle w Hw)) as H.
  cbn [app] in H. rewrite H.
  rewrite text_content_ws by assumption. reflexivity.
Qed.

Lemma forallb_strip_breaks p s :
  forallb p s = true -> forallb p (strip_breaks s) = true.
Proof.
  rewrite strip_breaks_filter. rewrite !forallb_forall.
  intros H c Hc. apply filter_In in Hc. now apply H.
Qed.

Lemma normalize_block w b :
  forallb is_ws w = true ->
  normalize (w ++ c_lt :: b ++ [c_gt]) = c_lt :: replacements b ++ [c_gt].
Proof.
  intros Hw. unfold normalize.
  change (w ++ c_lt :: b ++ [c_gt]) with (w ++ (c_lt :: b) ++ [c_gt]).
  rewrite app_assoc, replacements_snoc_gt.
  assert (replacements (w ++ c_lt :: b)
          = collapse_ws (strip_breaks w) ++ c_lt :: replacements b) as ->.
  { unfold replacements.
    rewrite strip_breaks_app.
    change (c_lt :: b) with ([c_lt] ++ b). rewrite strip_breaks_app.
    change (strip_breaks [c_lt]) with [c_lt]. cbn [app].
    rewrite collapse_ws_app_stop by reflexivity.
    rewrite close_tags_text.
    2:{ apply ws_no_angle, forallb_collapse_ws; [reflexivity|].
        now apply forallb_strip_breaks. }
    now rewrite close_tags_keep by reflexivity. }
  set (w' := collapse_ws (strip_breaks w)).
  assert (forallb is_ws w' = true) as Hw'.
  { apply forallb_collapse_ws; [reflexivity|]. now apply forallb_strip_breaks. }
  unfold trim. rewrite <- app_assoc. cbn [app].
  rewrite drop_ws_app_stop by reflexivity.
  rewrite (@drop_ws_all w' Hw'). cbn [app].
  change (c_lt :: replacements b ++ [c_gt])
    with ((c_lt :: replacements b) ++ [c_gt]).
  rewrite rev_app_distr. cbn [rev app].
  rewrite drop_ws_solid by reflexivity.
  cbn [rev]. rewrite rev_app_distr, rev_involutive. reflexivity.
Qed.

Lemma replacements_sections ss y :
  Forall is_section ss ->
  replacements (c_gt :: List.concat ss ++ c_lt :: y)
  = c_gt :: List.concat (map normalize ss) ++ c_lt :: replacements y.
Proof.
  induction 1 as [|s r Hs _ IH]; cbn [List.concat map app].
  - apply (@replacements_junction [] y). reflexivity.
  - destruct Hs as [->|(w & b & Hw & ->)].
    + exact IH.
    + rewrite normalize_block by assumption.
      rewrite <- !app_assoc. cbn [app]. rewrite <- !app_assoc. cbn [app].
      rewrite replacements_junction by assumption.
      rewrite replacements_app_gt, IH. reflexivity.
Qed.

Lemma is_ws_indent k : forallb is_ws (nl ++ repeat c_sp k) = true.
Proof. cbn [nl app forallb]. induction k; auto. Qed.

Lemma is_section_tokens k n mid m :
  is_section (render (ind k :: Tag n :: mid ++ [Tag m])).
Proof.
  right. exists (nl ++ repeat c_sp k), (n ++ c_gt :: render mid ++ c_lt :: m).
  split; [apply is_ws_indent|].
  unfold ind. cbn [render]. rewrite render_app. cbn [render].
  rewrite <- !app_assoc. cbn [app]. rewrite <- !app_assoc. reflexivity.
Qed.

Lemma is_section_renderInterface st : is_section (renderInterface st).
Proof.
  rewrite <- render_render_tokens. unfold render_tokens.
  destruct (rendering_engine (plugins st)); [|now left].
  apply (is_section_tokens 6 (lit "render_interface")
           ([ind 8]
            ++ elem (lit "publish_render") (bool_to_string (publishRender st))
            ++ [ind 8]
            ++ elem (lit "renderer_type_name") (escapeXml (rendererType st))
            ++ [ind 6])
           (lit "/render_interface")).
Qed.

Lemma is_section_physicsEngineInterface st :
  is_section (physicsEngineInterface st).
Proof.
  rewrite <- render_physics_tokens. unfold physics_tokens.
  destruct (physics_engine (plugins st)); [|now left].
  pose proof (is_section_tokens 6 (lit "physics_engine_interface")
           (List.concat (map (mode_tokens st) (enabled_modes st))
            ++ [ind 8]
            ++ elem (lit "init_state") (escapeXml (initState st))
            ++ [ind 6])
           (lit "/physics_engine_interface")) as H.
  rewrite <- !app_assoc in H. exact H.
Qed.

Lemma is_section_waypointFollowerInterface np st :
  is_section (waypointFollowerInterface np st).
Proof.
  rewrite <- render_follower_block_tokens. unfold follower_block_tokens.
  destruct (enabled (waypointFollower st)); [|now left].
  pose proof (is_section_tokens 6 (lit "waypoint_follower")
           ([ind 8] ++ followers_tokens np (waypointFollower st) ++ [ind 6])
           (lit "/waypoint_follower")) as H.
  rewrite <- !app_assoc in H. exact H.
Qed.

(** X1. The replacements treat the three sections of the document one by one:
    the output is the root element around the normalised sections. *)
Theorem sections_normalized_separately np st :
  generateLotusParamXML np st
  = lit "<lotus_param>"
    ++ normalize (renderInterface st)
    ++ normalize (physicsEngineInterface st)
    ++ normalize (waypointFollowerInterface np st)
    ++ lit "</lotus_param>".
Proof.
  rewrite generate_replacements_any. unfold assembled.
  change (lit "<lotus_param>") with (lit "<lotus_param" ++ [c_gt]).
  change (lit "</lotus_param>") with (c_lt :: lit "/lotus_param>").
  rewrite <- !app_assoc. cbn [app].
  rewrite replacements_app_gt.
  pose proof (@replacements_sections
                [renderInterface st; physicsEngineInterface st;
                 waypointFollowerInterface np st]
                (lit "/lotus_param>")) as H.
  cbn [List.concat map] in H. rewrite !app_nil_r in H.
  rewrite <- !app_assoc in H. rewrite H.
  - reflexivity.
  - apply Forall_cons; [apply is_section_renderInterface|].
    apply Forall_cons; [apply is_section_physicsEngineInterface|].
    apply Forall_cons; [apply is_section_waypointFollowerInterface|].
    apply Forall_nil.
Qed.

(** X2. The output has no line break or tab, no two adjacent white-space
    characters and no white space between [>] and [<]; the final [trim]
    finds nothing to remove. *)
Theorem output_whitespace_normal_form np st :
  no_break (generateLotusParamXML np st) = true
  /\ no_ws_run (generateLotusParamXML np st) = true
  /\ no_tag_gap (generateLotusParamXML np st) = true
  /\ trim (replacements (assembled np st)) = replacements (assembled np st).
Proof.
  pose proof (generate_replacements_any np st) as H.
  rewrite H. destruct (replacements_clean (assembled np st)) as (H1 & H2 & H3).
  repeat split; auto.
Qed.

Lemma ink_ws_edit s s' : ws_edit s s' -> ink s' = ink s.
Proof.
  unfold ink.
  induction 1 as [|c s s' _ IH|c s s' Hc _ IH|c s s' Hc _ IH];
    cbn [filter]; rewrite ?Hc, ?IH; cbn [negb]; auto.
Qed.

Lemma ink_drop_ws s : ink (drop_ws s) = ink s.
Proof.
  unfold ink. induction s as [|c s IH]; auto.
  cbn [drop_ws filter]. destruct (is_ws c) eqn:E; cbn [negb]; auto.
  cbn [filter]. now rewrite E.
Qed.

Lemma ink_trim s : ink (trim s) = ink s.
Proof.
  unfold trim.
  assert (forall x, ink (rev x) = rev (ink x)) as R
    by (intros x; apply filter_rev).
  now rewrite R, ink_drop_ws, R, rev_involutive, ink_drop_ws.
Qed.

(** X3. The replacements and [trim] touch white space only: the code units of
    the document that are not white space come out as they went in, none
    lost, none added, in the same order. *)
Theorem normalization_keeps_ink np st :
  (forall s, ink (normalize s) = ink s)
  /\ ink (generateLotusParamXML np st) = ink (assembled np st).
Proof.
  assert (forall s, ink (normalize s) = ink s) as H.
  { intros s. unfold normalize. rewrite ink_trim.
    apply ink_ws_edit, ws_edit_replacements. }
  split; [exact H | apply H].
Qed.

End SectionFacts.

(* ------------------------------------------------------------------ *)
(** ** The nesting of the document *)

Module MarkupFacts.

Import Markup.

Lemma well_nested_text stack s z :
  no_angle s = true ->
  well_nested_from stack None (s ++ z) = well_nested_from stack None z.
Proof.
  induction s as [|c s IH]; auto.
  cbn [no_angle forallb app well_nested_from]. intros H.
  apply andb_true_iff in H as [H1 H2]. apply andb_true_iff in H1 as [H0 H1].
  apply negb_true_iff in H0, H1. rewrite H0, H1. now apply IH.
Qed.

Lemma well_nested_name stack acc n z :
  tag_name_ok n = true ->
  well_nested_from stack (Some acc) (n ++ c_gt :: z)
  = well_nested_from stack (Some (acc ++ n)) (c_gt :: z).
Proof.
  revert acc. induction n as [|c n IH]; intros acc.
  - now rewrite app_nil_r.
  - cbn [tag_name_ok forallb app well_nested_from]. intros H.
    apply andb_true_iff in H as [H1 H2]. apply andb_true_iff in H1 as [H0 H1].
    apply andb_true_iff in H0 as [_ H0].
    apply negb_true_iff in H0, H1. rewrite H0, H1.
    rewrite IH by assumption. now rewrite <- app_assoc.
Qed.

Lemma well_nested_render stack ts z :
  forallb token_ok ts = true ->
  well_nested_from stack None (render ts ++ z)
  = match nest stack ts with
    | Some stack' => well_nested_from stack' None z
    | None => false
    end.
Proof.
  revert stack. induction ts as [|[n|s] r IH]; intros stack; auto.
  - cbn [forallb token_ok render nest]. intros H.
    apply andb_true_iff in H as [Hn Hr].
    cbn [app well_nested_from].
    change (char_eqb c_lt c_lt) with true. cbv iota.
    rewrite <- app_assoc. cbn [app].
    rewrite well_nested_name by assumption. cbn [app well_nested_from].
    change (char_eqb c_gt c_gt) with true. cbv iota.
    destruct n as [|d m]; auto.
    destruct (char_eqb d c_slash).
    + destruct stack as [|top rest]; auto.
      destruct (jsstring_eqb m top); cbn [andb]; auto.
    + now apply IH.
  - cbn [forallb token_ok render nest]. intros H.
    apply andb_true_iff in H as [Hs Hr].
    rewrite <- app_assoc, well_nested_text by assumption. now apply IH.
Qed.

Lemma nest_app stack a b :
  nest stack (a ++ b)
  = match nest stack a with
    | Some stack' => nest stack' b
    | None => None
    end.
Proof.
  revert stack. induction a as [|[n|s] a IH]; intros stack;
    cbn [app nest]; auto.
  destruct n as [|d m]; auto.
  destruct (char_eqb d c_slash); auto.
  destruct stack as [|top rest]; auto.
  destruct (jsstring_eqb m top); auto.
Qed.

Lemma nest_compact acc stack ts : nest stack (compact acc ts) = nest stack ts.
Proof.
  revert acc stack. induction ts as [|[n|s] r IH]; intros acc stack;
    cbn [compact nest]; auto.
  destruct n as [|d m]; auto.
  destruct (char_eqb d c_slash); auto.
  destruct stack as [|top rest]; auto.
  destruct (jsstring_eqb m top); auto.
Qed.

Lemma jsstring_eqb_refl a : jsstring_eqb a a = true.
Proof.
  induction a as [|c a IH]; auto. cbn [jsstring_eqb].
  unfold char_eqb. now rewrite N.eqb_refl.
Qed.

Lemma neutral_nil : neutral [].
Proof. now intros s. Qed.

Lemma neutral_app a b : neutral a -> neutral b -> neutral (a ++ b).
Proof. intros Ha Hb s. now rewrite nest_app, Ha, Hb. Qed.

Lemma neutral_txt s ts : neutral ts -> neutral (Txt s :: ts).
Proof. intros H st. apply H. Qed.

Lemma neutral_wrap n ts rest :
  opens n = true -> neutral ts -> neutral rest ->
  neutral (Tag n :: ts ++ Tag (close_name n) :: rest).
Proof.
  intros Hn Hts Hr s. cbn [nest].
  destruct n as [|d m]; [discriminate|]. cbn [opens] in Hn.
  apply negb_true_iff in Hn. rewrite Hn.
  rewrite nest_app, Hts. unfold close_name. cbn [nest].
  change (char_eqb c_slash c_slash) with true. cbv iota.
  rewrite jsstring_eqb_refl. apply Hr.
Qed.

Lemma neutral_elem n p rest :
  opens n = true -> neutral rest -> neutral (elem n p ++ rest).
Proof.
  intros Hn Hr. unfold elem. cbn [app].
  apply (@neutral_wrap n [Txt p] rest Hn); auto.
  now intros s.
Qed.

Lemma neutral_concat l : Forall neutral l -> neutral (List.concat l).
Proof.
  induction 1; cbn [List.concat]; [apply neutral_nil|]. now apply neutral_app.
Qed.

Lemma neutral_join_tokens s l :
  Forall neutral l -> neutral (join_tokens [Txt s] l).
Proof.
  induction 1 as [|x r Hx Hr IH]; [apply neutral_nil|].
  cbn [join_tokens]. destruct r as [|y r]; auto.
  apply neutral_app; [assumption|]. apply (@neutral_txt s _ IH).
Qed.

Lemma neutral_render_tokens st : neutral (render_tokens st).
Proof.
  unfold render_tokens.
  destruct (rendering_engine (plugins st)); intros stack; reflexivity.
Qed.

Lemma neutral_thruster_tokens t idx : neutral (thruster_tokens t idx).
Proof.
  unfold thruster_tokens. apply neutral_txt.
  rewrite <- (app_nil_r (elem _ _)).
  apply neutral_elem; [reflexivity | apply neutral_nil].
Qed.

Lemma Forall_mapi_from {A B} (P : B -> Prop) (f : A -> nat -> B) i l :
  (forall x k, P (f x k)) -> Forall P (mapi_from f i l).
Proof.
  intros H. revert i. induction l; intros i; cbn [mapi_from]; auto.
Qed.

Lemma neutral_mode_tokens st m : neutral (mode_tokens st m).
Proof.
  intros stack. unfold mode_tokens. cbn [app elem].
  assert (neutral (join_tokens [Txt nl]
                     (mapi thruster_tokens (thrusters (physicsConfig st m)))))
    as H.
  { apply neutral_join_tokens, Forall_mapi_from, neutral_thruster_tokens. }
  destruct m; cbn; rewrite nest_app, H; cbn; reflexivity.
Qed.

Lemma neutral_modes st l : neutral (List.concat (map (mode_tokens st) l)).
Proof.
  apply neutral_concat, Forall_forall. intros x Hx.
  apply in_map_iff in Hx as [m [<- _]]. apply neutral_mode_tokens.
Qed.

Lemma neutral_physics_tokens st : neutral (physics_tokens st).
Proof.
  unfold physics_tokens.
  destruct (physics_engine (plugins st)); [|apply neutral_nil].
  intros stack. cbn [app nest ind]. cbn.
  rewrite nest_app, neutral_modes. reflexivity.
Qed.

Lemma neutral_waypoints np l :
  neutral (List.concat (map (waypoint_tokens np) l)).
Proof.
  apply neutral_concat, Forall_forall. intros x Hx.
  apply in_map_iff in Hx as [w [<- _]]. intros stack. reflexivity.
Qed.

Lemma neutral_limits_tokens np wf : neutral (limits_tokens np wf).
Proof. intros stack. reflexivity. Qed.

Lemma neutral_followers_tokens np wf : neutral (followers_tokens np wf).
Proof.
  unfold followers_tokens.
  repeat apply neutral_app.
  - destruct (_ && _); [|apply neutral_nil].
    intros stack. unfold waypoints_follower_tokens.
    cbn [app nest ind]. cbn.
    rewrite nest_app, neutral_waypoints. reflexivity.
  - destruct (jsstring_eqb _ _); [|apply neutral_nil].
    intros stack. reflexivity.
  - destruct (jsstring_eqb _ _); [|apply neutral_nil].
    intros stack. reflexivity.
Qed.

Lemma neutral_follower_block_tokens np st :
  neutral (follower_block_tokens np st).
Proof.
  unfold follower_block_tokens.
  destruct (enabled (waypointFollower st)); [|apply neutral_nil].
  intros stack. cbn [app nest ind]. cbn.
  rewrite nest_app, neutral_followers_tokens. reflexivity.
Qed.

Lemma neutral_doc_tokens np st : neutral (doc_tokens np st).
Proof.
  unfold doc_tokens. repeat apply neutral_app.
  - apply neutral_render_tokens.
  - apply neutral_physics_tokens.
  - apply neutral_follower_block_tokens.
Qed.

(** X4. The output is well nested: every tag that opens an element is closed by
    the tag of the same name, innermost first, and the text between the tags
    has no [<] or [>], as long as the text of a number has none. *)
Theorem output_well_nested np st :
  (forall x, no_angle (np x) = true) ->
  well_nested (generateLotusParamXML np st) = true.
Proof.
  intros Hnp.
  pose proof (doc_tokens_ok np Hnp st) as Hok.
  rewrite (generate_tokens np st Hok).
  set (ts := compact [] (doc_tokens np st)).
  set (p := text_content (pending [] (doc_tokens np st))).
  assert (lit "<lotus_param>" ++ render ts ++ p ++ lit "</lotus_param>"
          = render (Tag (lit "lotus_param") :: ts
                    ++ [Txt p; Tag (lit "/lotus_param")]) ++ []) as ->.
  { cbn [render]. rewrite render_app. cbn [render].
    rewrite <- ?app_assoc. cbn [app]. rewrite <- ?app_assoc. cbn [app].
    rewrite ?app_nil_r. reflexivity. }
  unfold well_nested. rewrite well_nested_render.
  - cbn [nest]. cbn. rewrite nest_app. subst ts.
    rewrite nest_compact, neutral_doc_tokens. reflexivity.
  - cbn [forallb token_ok]. rewrite forallb_app. subst ts p.
    rewrite compact_ok by auto.
    cbn [forallb token_ok].
    rewrite no_angle_text_content by (apply pending_ok; auto).
    reflexivity.
Qed.

End MarkupFacts.

(* ------------------------------------------------------------------ *)
(** ** The elements of the document *)

Module CountFacts.

Import Markup.

Lemma count_tag_thrusters n i l :
  not_thruster n ->
  count_tag n (join_tokens [Txt nl] (mapi_from thruster_tokens i l)) = 0.
Proof.
  intros Hn.
  assert (forall x k, count_tag n (thruster_tokens x k) = 0) as H1.
  { intros x k. destruct (Hn k) as [Ha Hb].
    unfold thruster_tokens, elem, sp. cbn [count_tag]. now rewrite Ha, Hb. }
  revert i; induction l as [|x [|y r] IH]; intros i; auto.
  - cbn [mapi_from join_tokens]. apply H1.
  - change (mapi_from thruster_tokens i (x :: y :: r))
      with (thruster_tokens x i :: mapi_from thruster_tokens (S i) (y :: r)).
    change (join_tokens [Txt nl] (?a :: ?b))
      with (a ++ [Txt nl]
            ++ join_tokens [Txt nl] (mapi_from thruster_tokens (S i) (y :: r))).
    rewrite !count_tag_app, IH, H1. reflexivity.
Qed.

Lemma count_tag_mode n st m :
  not_thruster n ->
  count_tag n (mode_tokens st m) = count_tag n (mode_frame m).
Proof.
  intros Hn. unfold mode_tokens, mapi, mode_frame.
  rewrite !count_tag_app, count_tag_thrusters by assumption.
  cbn [count_tag elem ind sp app].
  change (close_name (lit "ConnectionType")) with (lit "/ConnectionType").
  change (close_name (lit "uri")) with (lit "/uri").
  lia.
Qed.

Lemma count_tag_modes n st l :
  not_thruster n ->
  count_tag n (List.concat (map (mode_tokens st) l))
  = count_tag n (List.concat (map mode_frame l)).
Proof.
  intros Hn. induction l as [|m l IH]; auto.
  cbn [map List.concat]. now rewrite !count_tag_app, IH, count_tag_mode.
Qed.

Lemma count_tag_waypoints n np l :
  count_tag n (List.concat (map (waypoint_tokens np) l))
  = List.length l * count_tag n (elem (lit "waypoint") []).
Proof.
  induction l as [|w l IH]; auto.
  cbn [map List.concat List.length]. rewrite count_tag_app, IH.
  cbn [waypoint_tokens elem count_tag]. lia.
Qed.

Lemma count_tag_enabled_modes n st :
  count_tag n (List.concat (map mode_frame (enabled_modes st)))
  = b2n (physicsModes st aerial) * count_tag n (mode_frame aerial)
    + b2n (physicsModes st surface) * count_tag n (mode_frame surface)
    + b2n (physicsModes st underwater) * count_tag n (mode_frame underwater).
Proof.
  unfold enabled_modes, physicsModes_entries. cbn [map filter snd].
  destruct (physicsModes st aerial), (physicsModes st surface),
    (physicsModes st underwater);
    cbn [map fst List.concat b2n filter snd]; rewrite ?count_tag_app;
    cbn [List.concat count_tag]; lia.
Qed.

(** The tags of the document, for a name that no thruster element has. *)
Lemma count_tag_doc n np st :
  not_thruster n ->
  count_tag n (doc_tokens np st)
  = b2n (rendering_engine (plugins st))
    * count_tag n (Tag (lit "render_interface")
                   :: elem (lit "publish_render") []
                   ++ elem (lit "renderer_type_name") []
                   ++ [Tag (lit "/render_interface")])
    + b2n (physics_engine (plugins st))
      * (count_tag n (Tag (lit "physics_engine_interface")
                      :: elem (lit "init_state") []
                      ++ [Tag (lit "/physics_engine_interface")])
         + b2n (physicsModes st aerial) * count_tag n (mode_frame aerial)
         + b2n (physicsModes st surface) * count_tag n (mode_frame surface)
         + b2n (physicsModes st underwater)
           * count_tag n (mode_frame underwater))
    + b2n (enabled (waypointFollower st))
      * (count_tag n (elem (lit "waypoint_follower") [])
         + count_tag n (followers_tokens np (waypointFollower st))).
Proof.
  intros Hn. unfold doc_tokens, render_tokens, physics_tokens,
    follower_block_tokens.
  rewrite !count_tag_app.
  destruct (rendering_engine (plugins st)),
    (physics_engine (plugins st)), (enabled (waypointFollower st));
    rewrite ?count_tag_app, ?count_tag_modes, ?count_tag_enabled_modes
      by assumption;
    cbn [b2n count_tag elem ind sp app];
    change (close_name (lit "waypoint_follower"))
      with (lit "/waypoint_follower");
    lia.
Qed.

Lemma occurrences_tag np st n :
  (forall x, no_angle (np x) = true) ->
  tag_name_ok n = true ->
  occurrences (c_lt :: n ++ [c_gt]) (generateLotusParamXML np st)
  = count_tag n [Tag (lit "lotus_param"); Tag (lit "/lotus_param")]
    + count_tag n (doc_tokens np st).
Proof.
  intros Hnp Hn.
  pose proof (doc_tokens_ok np Hnp st) as Hok.
  rewrite (generate_tokens np st Hok).
  set (ts := compact [] (doc_tokens np st)).
  set (p := text_content (pending [] (doc_tokens np st))).
  assert (lit "<lotus_param>" ++ render ts ++ p ++ lit "</lotus_param>"
          = render (Tag (lit "lotus_param") :: ts
                    ++ [Txt p; Tag (lit "/lotus_param")])) as ->.
  { cbn [render]. rewrite render_app. cbn [render].
    rewrite <- ?app_assoc. cbn [app]. rewrite <- ?app_assoc. reflexivity. }
  rewrite occurrences_render; [|assumption|].
  - cbn [count_tag]. rewrite count_tag_app. subst ts.
    rewrite count_tag_compact. cbn [count_tag]. lia.
  - cbn [forallb token_ok]. rewrite forallb_app. subst ts p.
    rewrite compact_ok by auto.
    cbn [forallb token_ok].
    rewrite no_angle_text_content by (apply pending_ok; auto).
    reflexivity.
Qed.

Ltac plain_name := intros idx; split; reflexivity.

Lemma count_tag_followers_other n np wf :
  In n [lit "render_interface"; lit "physics_engine_interface";
        lit "init_state"; lit "waypoint_follower";
        lit "aerial"; lit "surface"; lit "underwater"] ->
  count_tag n (followers_tokens np wf) = 0.
Proof.
  intros Hn. unfold followers_tokens, waypoints_follower_tokens.
  rewrite !count_tag_app.
  destruct (_ && _), (jsstring_eqb (mode wf) (lit "line")),
    (jsstring_eqb (mode wf) (lit "circle"));
    rewrite ?count_tag_app, ?count_tag_waypoints;
    cbn [In] in Hn;
    repeat (destruct Hn as [<-|Hn]; [cbn; lia|]); contradiction.
Qed.

Section Counts.

Variable np : num -> jsstring.
Hypothesis np_no_angle : forall x, no_angle (np x) = true.
Variable st : DialogState.

(** X5. Each section of the document is there once when its check box is
    ticked and not at all otherwise; [<init_state>] comes with the physics
    section, whatever the modes are. *)
Theorem section_elements_by_flag :
  occurrences (lit "<render_interface>") (generateLotusParamXML np st)
  = b2n (rendering_engine (plugins st))
  /\ occurrences (lit "<physics_engine_interface>")
       (generateLotusParamXML np st)
     = b2n (physics_engine (plugins st))
  /\ occurrences (lit "<init_state>") (generateLotusParamXML np st)
     = b2n (physics_engine (plugins st))
  /\ occurrences (lit "<waypoint_follower>") (generateLotusParamXML np st)
     = b2n (enabled (waypointFollower st)).
Proof.
  repeat split.
  - change (lit "<render_interface>")
      with (c_lt :: lit "render_interface" ++ [c_gt]).
    rewrite occurrences_tag by (assumption || reflexivity).
    rewrite count_tag_doc by plain_name.
    rewrite count_tag_followers_other by (cbn; tauto).
    cbn. lia.
  - change (lit "<physics_engine_interface>")
      with (c_lt :: lit "physics_engine_interface" ++ [c_gt]).
    rewrite occurrences_tag by (assumption || reflexivity).
    rewrite count_tag_doc by plain_name.
    rewrite count_tag_followers_other by (cbn; tauto).
    cbn. lia.
  - change (lit "<init_state>")
      with (c_lt :: lit "init_state" ++ [c_gt]).
    rewrite occurrences_tag by (assumption || reflexivity).
    rewrite count_tag_doc by plain_name.
    rewrite count_tag_followers_other by (cbn; tauto).
    cbn. lia.
  - change (lit "<waypoint_follower>")
      with (c_lt :: lit "waypoint_follower" ++ [c_gt]).
    rewrite occurrences_tag by (assumption || reflexivity).
    rewrite count_tag_doc by plain_name.
    rewrite count_tag_followers_other by (cbn; tauto).
    cbn. lia.
Qed.

(** X6. The element of a physics mode is in the output once when the physics
    engine and the mode are enabled, and not at all otherwise. *)
Theorem mode_element_by_flag (m : PhysicsMode) :
  occurrences (lit "<" ++ mode_key m ++ lit ">") (generateLotusParamXML np st)
  = b2n (physics_engine (plugins st) && physicsModes st m).
Proof.
  change (lit "<" ++ mode_key m ++ lit ">")
    with (c_lt :: mode_key m ++ [c_gt]).
  rewrite occurrences_tag by (assumption || now destruct m).
  rewrite count_tag_doc by (destruct m; plain_name).
  rewrite count_tag_followers_other by (destruct m; cbn; tauto).
  destruct m; cbn;
    destruct (rendering_engine (plugins st)),
      (physics_engine (plugins st)), (enabled (waypointFollower st)),
      (physicsModes st aerial), (physicsModes st surface),
      (physicsModes st underwater); reflexivity.
Qed.

Lemma count_tag_followers_payload wf :
  count_tag (lit "waypoint") (followers_tokens np wf)
  = (if jsstring_eqb (mode wf) (lit "waypoints")
     then List.length (waypoints wf) else 0)
  /\ count_tag (lit "waypoints") (followers_tokens np wf)
     = b2n (jsstring_eqb (mode wf) (lit "waypoints")
            && (0 <? List.length (waypoints wf)))
  /\ count_tag (lit "line") (followers_tokens np wf)
     = b2n (jsstring_eqb (mode wf) (lit "line"))
  /\ count_tag (lit "circle") (followers_tokens np wf)
     = b2n (jsstring_eqb (mode wf) (lit "circle")).
Proof.
  unfold followers_tokens, waypoints_follower_tokens.
  rewrite !count_tag_app.
  destruct (jsstring_eqb (mode wf) (lit "waypoints")),
    (jsstring_eqb (mode wf) (lit "line")),
    (jsstring_eqb (mode wf) (lit "circle"));
    cbn [andb];
    destruct (waypoints wf) as [|w l] eqn:E; cbn [List.length Nat.ltb Nat.leb];
    rewrite ?count_tag_app, ?count_tag_waypoints;
    repeat split; cbn; lia.
Qed.

(** X7. What the follower section holds follows the mode: [<line>] in mode
    [line], [<circle>] in mode [circle], and in mode [waypoints] one
    [<waypoint>] for each waypoint of the list, inside [<waypoints>] when
    there is one. *)
Theorem follower_payload_by_mode :
  occurrences (lit "<waypoint>") (generateLotusParamXML np st)
  = (if enabled (waypointFollower st)
        && jsstring_eqb (mode (waypointFollower st)) (lit "waypoints")
     then List.length (waypoints (waypointFollower st)) else 0)
  /\ occurrences (lit "<waypoints>") (generateLotusParamXML np st)
     = b2n (enabled (waypointFollower st)
            && jsstring_eqb (mode (waypointFollower st)) (lit "waypoints")
            && (0 <? List.length (waypoints (waypointFollower st))))
  /\ occurrences (lit "<line>") (generateLotusParamXML np st)
     = b2n (enabled (waypointFollower st)
            && jsstring_eqb (mode (waypointFollower st)) (lit "line"))
  /\ occurrences (lit "<circle>") (generateLotusParamXML np st)
     = b2n (enabled (waypointFollower st)
            && jsstring_eqb (mode (waypointFollower st)) (lit "circle")).
Proof.
  destruct (count_tag_followers_payload (waypointFollower st))
    as (H1 & H2 & H3 & H4).
  repeat split.
  - change (lit "<waypoint>") with (c_lt :: lit "waypoint" ++ [c_gt]).
    rewrite occurrences_tag by (assumption || reflexivity).
    rewrite count_tag_doc by plain_name. rewrite H1.
    destruct (enabled (waypointFollower st)),
      (jsstring_eqb (mode (waypointFollower st)) (lit "waypoints"));
      cbn; lia.
  - change (lit "<waypoints>") with (c_lt :: lit "waypoints" ++ [c_gt]).
    rewrite occurrences_tag by (assumption || reflexivity).
    rewrite count_tag_doc by plain_name. rewrite H2.
    destruct (enabled (waypointFollower st)),
      (jsstring_eqb (mode (waypointFollower st)) (lit "waypoints")),
      (0 <? List.length (waypoints (waypointFollower st)));
      cbn; lia.
  - change (lit "<line>") with (c_lt :: lit "line" ++ [c_gt]).
    rewrite occurrences_tag by (assumption || reflexivity).
    rewrite count_tag_doc by plain_name. rewrite H3.
    destruct (enabled (waypointFollower st)),
      (jsstring_eqb (mode (waypointFollower st)) (lit "line"));
      cbn; lia.
  - change (lit "<circle>") with (c_lt :: lit "circle" ++ [c_gt]).
    rewrite occurrences_tag by (assumption || reflexivity).
    rewrite count_tag_doc by plain_name. rewrite H4.
    destruct (enabled (waypointFollower st)),
      (jsstring_eqb (mode (waypointFollower st)) (lit "circle"));
      cbn; lia.
Qed.

Lemma occurrences_waypoint :
  occurrences (lit "<waypoint>") (generateLotusParamXML np st)
  = (if enabled (waypointFollower st)
        && jsstring_eqb (mode (waypointFollower st)) (lit "waypoints")
     then List.length (waypoints (waypointFollower st)) else 0).
Proof.
  destruct (count_tag_followers_payload (waypointFollower st)) as (H1 & _).
  change (lit "<waypoint>") with (c_lt :: lit "waypoint" ++ [c_gt]).
  rewrite occurrences_tag by (assumption || reflexivity).
  rewrite count_tag_doc by plain_name. rewrite H1.
  destruct (enabled (waypointFollower st)),
    (jsstring_eqb (mode (waypointFollower st)) (lit "waypoints"));
    cbn; lia.
Qed.

End Counts.

End CountFacts.

(* ------------------------------------------------------------------ *)
(** ** The controls of the dialog *)

Module DialogFacts.

Import Dialog.

Lemma split_comma_cons c t :
  split_comma (c :: t)
  = if char_eqb c c_comma then [] :: split_comma t
    else match split_comma t with
         | piece :: rest => (c :: piece) :: rest
         | [] => [[c]]
         end.
Proof. reflexivity. Qed.

Lemma split_comma_not_nil s : split_comma s <> [].
Proof.
  destruct s as [|c t]; [discriminate|].
  rewrite split_comma_cons.
  destruct (char_eqb c c_comma); [discriminate|].
  destruct (split_comma t); discriminate.
Qed.

Lemma split_comma_length s :
  List.length (split_comma s) = S (count c_comma s).
Proof.
  induction s as [|c t IH]; auto.
  rewrite split_comma_cons. unfold count in *. cbn [count_occ].
  destruct (N.eq_dec c c_comma) as [->|Hc].
  - change (char_eqb c_comma c_comma) with true. cbn [List.length].
    now rewrite IH.
  - assert (char_eqb c c_comma = false) as -> by now apply N.eqb_neq.
    destruct (split_comma t); cbn [List.length] in *; [discriminate|auto].
Qed.

Lemma split_comma_no_comma s :
  Forall (fun p => no_comma p = true) (split_comma s).
Proof.
  induction s as [|c t IH]; [repeat constructor|].
  rewrite split_comma_cons.
  destruct (char_eqb c c_comma) eqn:E; [constructor; auto|].
  destruct (split_comma t) as [|p r].
  - repeat constructor. cbn [no_comma forallb]. now rewrite E.
  - inversion IH; subst. constructor; auto.
    cbn [no_comma forallb]. now rewrite E.
Qed.

Lemma split_comma_app a z :
  no_comma a = true ->
  split_comma (a ++ z)
  = match split_comma z with
    | p :: ps => (a ++ p) :: ps
    | [] => [a]
    end.
Proof.
  induction a as [|c a IH]; intros H.
  - cbn [app]. destruct (split_comma z) eqn:E; auto.
    now apply split_comma_not_nil in E.
  - cbn [no_comma forallb] in H. apply andb_true_iff in H as [Hc Ha].
    apply negb_true_iff in Hc.
    cbn [app]. rewrite split_comma_cons, Hc, (IH Ha).
    destruct (split_comma z); reflexivity.
Qed.

Lemma forallb_rev {A} (p : A -> bool) l :
  forallb p l = true -> forallb p (rev l) = true.
Proof.
  rewrite !forallb_forall. intros H x Hx. apply H. now apply in_rev.
Qed.

Lemma no_comma_trim t : no_comma t = true -> no_comma (trim t) = true.
Proof.
  intros H. unfold trim, no_comma.
  apply forallb_rev, forallb_drop_ws, forallb_rev, forallb_drop_ws, H.
Qed.

Lemma trim_cons_ws c t : is_ws c = true -> trim (c :: t) = trim t.
Proof. intros H. unfold trim. cbn [drop_ws]. now rewrite H. Qed.

Lemma split_comma_join l :
  Forall (fun t => no_comma t = true) l -> l <> [] ->
  split_comma (thrusters_value l)
  = match l with
    | x :: r => x :: map (fun t => c_sp :: t) r
    | [] => []
    end.
Proof.
  unfold thrusters_value.
  induction 1 as [|x r Hx Hr IH]; intros Hne; [contradiction|].
  destruct r as [|y r].
  - cbn [join map]. rewrite <- (app_nil_r x) at 1.
    rewrite split_comma_app by assumption. cbn [split_comma].
    now rewrite !app_nil_r.
  - change (join (lit ", ") (x :: y :: r))
      with (x ++ c_comma :: c_sp :: join (lit ", ") (y :: r)).
    rewrite split_comma_app by assumption.
    rewrite split_comma_cons. change (char_eqb c_comma c_comma) with true.
    cbv iota. rewrite app_nil_r.
    rewrite split_comma_cons. change (char_eqb c_sp c_comma) with false.
    cbv iota. rewrite IH by discriminate. reflexivity.
Qed.

(** X8. What the thruster field stores has one name for each comma of the text
    and one more, so at least one, even for an empty text; every name is
    trimmed and has no comma. *)
Theorem thruster_field_names (value : jsstring) :
  List.length (thrusters_of_input value) = S (count c_comma value)
  /\ Forall stored_name (thrusters_of_input value).
Proof.
  unfold thrusters_of_input. split.
  - now rewrite length_map, split_comma_length.
  - apply Forall_forall. intros t Ht. apply in_map_iff in Ht as (p & <- & Hp).
    split; [apply trim_idem|].
    apply no_comma_trim.
    pose proof (split_comma_no_comma value) as H.
    rewrite Forall_forall in H. now apply H.
Qed.

(** X9. The text the field shows is read back as the list that is stored, for a
    list that is not empty and whose names are trimmed without a comma (as
    every list the field has stored is). *)
Theorem thruster_field_round_trip (l : list jsstring) :
  l <> [] -> Forall stored_name l ->
  thrusters_of_input (thrusters_value l) = l.
Proof.
  intros Hne Hl. unfold thrusters_of_input.
  rewrite split_comma_join; auto.
  2:{ eapply Forall_impl; [|exact Hl]. now intros t [_ H]. }
  destruct l as [|x r]; [contradiction|].
  inversion Hl as [|? ? [Hx _] Hr]; subst. cbn [map]. rewrite Hx. f_equal.
  clear - Hr. induction Hr as [|y r [Hy _] _ IH]; auto.
  cbn [map]. rewrite trim_cons_ws by reflexivity. now rewrite Hy, IH.
Qed.

Lemma trim_ws value : forallb is_ws value = true -> trim value = [].
Proof. intros H. unfold trim. now rewrite (@drop_ws_all value H). Qed.

Lemma ws_no_comma value : forallb is_ws value = true -> no_comma value = true.
Proof.
  unfold no_comma. rewrite !forallb_forall. intros H c Hc.
  specialize (H c Hc). destruct (char_eqb c c_comma) eqn:E; auto.
  apply N.eqb_eq in E. subst c. discriminate.
Qed.

Lemma thrusters_of_blank value :
  forallb is_ws value = true -> thrusters_of_input value = [[]].
Proof.
  intros H. unfold thrusters_of_input.
  rewrite <- (app_nil_r value).
  rewrite split_comma_app by (apply ws_no_comma; assumption).
  cbn [split_comma map]. now rewrite app_nil_r, trim_ws.
Qed.

(** X10. A thruster field that was emptied, or left with white space only, gives
    the element of an enabled mode one thruster element without a name. *)
Theorem emptied_thruster_field np st m value :
  physics_engine (plugins st) = true ->
  physicsModes st m = true ->
  forallb is_ws value = true ->
  thrusters (physicsConfig st m) = thrusters_of_input value ->
  exists pre post,
    generateLotusParamXML np st
    = pre ++ lit "<thrusters><thrusters1></thrusters1></thrusters>" ++ post.
Proof.
  intros Hp Hm Hv Ht.
  destruct (mode_element_in_output np st m Hp Hm) as (pre & post & H).
  rewrite H. unfold mode_element. rewrite Ht, thrusters_of_blank by assumption.
  exists (pre ++ lit "<" ++ mode_key m ++ lit ">"
          ++ lit "<ConnectionType>"
          ++ text_content (escapeXml (connectionType (physicsConfig st m)))
          ++ lit "</ConnectionType>"
          ++ lit "<uri>" ++ text_content (escapeXml (uri (physicsConfig st m)))
          ++ lit "</uri>"),
    (lit "</" ++ mode_key m ++ lit ">" ++ post).
  rewrite <- !app_assoc. reflexivity.
Qed.

Lemma init_state_in_output np st :
  physics_engine (plugins st) = true ->
  exists pre post,
    generateLotusParamXML np st
    = pre ++ lit "<init_state>" ++ text_content (escapeXml (initState st))
        ++ lit "</init_state>" ++ post.
Proof.
  intros Hp.
  destruct (modes_before st (enabled_modes st)
              (Tag (lit "lotus_param") :: render_tokens st ++ [ind 6])
              (lit "physics_engine_interface")) as (pre & n & Hpre).
  set (ts := [ind 8] ++ elem (lit "init_state") (escapeXml (initState st))
             ++ [ind 6]).
  assert (Tag (lit "lotus_param") :: doc_tokens np st
                                     ++ [Tag (lit "/lotus_param")]
          = pre ++ Tag n :: ts
              ++ Tag (lit "/physics_engine_interface")
                 :: follower_block_tokens np st ++ [Tag (lit "/lotus_param")])
    as Hsplit.
  { unfold doc_tokens, physics_tokens. rewrite Hp.
    transitivity
      (((Tag (lit "lotus_param") :: render_tokens st ++ [ind 6])
        ++ [Tag (lit "physics_engine_interface")])
       ++ List.concat (map (mode_tokens st) (enabled_modes st))
       ++ ts ++ Tag (lit "/physics_engine_interface")
          :: follower_block_tokens np st ++ [Tag (lit "/lotus_param")]).
    - subst ts. unfold elem. cbn [app]. rewrite <- !app_assoc. cbn [app].
      rewrite <- !app_assoc. reflexivity.
    - rewrite app_assoc, Hpre. rewrite <- !app_assoc. reflexivity. }
  assert (assembled np st
          = render (Tag (lit "lotus_param") :: doc_tokens np st
                    ++ [Tag (lit "/lotus_param")])) as Ha.
  { rewrite assembled_tokens. cbn [render]. rewrite render_app.
    cbn [render]. rewrite <- ?app_assoc. cbn [app]. rewrite <- ?app_assoc.
    reflexivity. }
  rewrite generate_replacements_any, Ha, Hsplit.
  rewrite replacements_render_middle.
  2:{ subst ts. cbn. now rewrite no_angle_escapeXml. }
  subst ts. cbn [app elem compact pending render ind].
  rewrite (@text_content_ws (nl ++ repeat c_sp 8)),
    (@text_content_ws (nl ++ repeat c_sp 6))
    by apply SectionFacts.is_ws_indent.
  cbn [app].
  exists (replacements (render pre ++ c_lt :: n) ++ [c_gt]),
    (c_lt
     :: replacements
          (lit "/physics_engine_interface"
           ++ c_gt :: render (follower_block_tokens np st
                              ++ [Tag (lit "/lotus_param")]))).
  change (lit "<init_state>") with (c_lt :: lit "init_state" ++ [c_gt]).
  change (lit "</init_state>")
    with (c_lt :: close_name (lit "init_state") ++ [c_gt]).
  repeat (rewrite <- ?app_assoc; cbn [app]). reflexivity.
Qed.

Section OptionFacts.

Variable toUpperCase : jsstring -> jsstring.
Hypothesis toUpperCase_latin_ok : upper_latin toUpperCase.

Lemma capitalized_mode m :
  toUpperCase (charAt0 (mode_key m)) ++ slice1 (mode_key m) = mode_label m.
Proof.
  destruct m; cbn [mode_key charAt0 lit list_ascii_of_string map];
    rewrite toUpperCase_latin_ok by reflexivity; reflexivity.
Qed.

Lemma initStateOptions_labels st :
  initStateOptions toUpperCase st = map mode_label (enabled_modes st).
Proof.
  unfold initStateOptions, enabled_modes. rewrite map_map.
  apply map_ext. intros e. apply capitalized_mode.
Qed.

Lemma text_plain_label m : text_plain (mode_label m) = true.
Proof. now destruct m. Qed.

(** X11. The select [Initial State] offers the capitalised names of the enabled
    modes, in the order aerial, surface, underwater; the option that is
    chosen stands in [<init_state>] as it is. *)
Theorem initial_state_options np st :
  initStateOptions toUpperCase st = map mode_label (enabled_modes st)
  /\ (forall m, In (mode_label m) (initStateOptions toUpperCase st)
                <-> physicsModes st m = true)
  /\ (physics_engine (plugins st) = true ->
      In (initState st) (initStateOptions toUpperCase st) ->
      exists pre post,
        generateLotusParamXML np st
        = pre ++ lit "<init_state>" ++ initState st ++ lit "</init_state>"
            ++ post).
Proof.
  rewrite initStateOptions_labels. repeat split.
  - intros H. apply in_map_iff in H as (m' & Hl & Hm').
    assert (m' = m) as -> by (destruct m, m'; try discriminate; reflexivity).
    unfold enabled_modes in Hm'. apply in_map_iff in Hm' as ([k b] & Hk & He).
    apply filter_In in He as [He Hb]. cbn in Hk, Hb. subst k b.
    unfold physicsModes_entries in He. apply in_map_iff in He as (k & Hk & _).
    now inversion Hk.
  - intros H. apply in_map. unfold enabled_modes.
    apply in_map_iff. exists (m, true). split; auto.
    apply filter_In. split; auto.
    unfold physicsModes_entries. apply in_map_iff. exists m.
    rewrite H. split; auto. destruct m; cbn; auto.
  - intros Hp Hin.
    destruct (init_state_in_output np st Hp) as (pre & post & H).
    exists pre, post. rewrite H.
    apply in_map_iff in Hin as (m & Hm & _).
    rewrite <- Hm, text_content_plain by apply text_plain_label.
    reflexivity.
Qed.

End OptionFacts.

Lemma toUpperCase_latin_ok : upper_latin toUpperCase_latin.
Proof.
  intros c H. unfold toUpperCase_latin. cbn [map]. now rewrite H.
Qed.

(** *** The inputs of the waypoint follower *)

Section InputFacts.

Variable parseFloat : jsstring -> num.

Lemma parsed_or_zero_number value :
  PrimFloat.is_nan (parsed_or_zero parseFloat value) = false.
Proof.
  unfold parsed_or_zero.
  destruct (PrimFloat.eqb (parseFloat value) 0) eqn:E1; cbn [orb]; auto.
  destruct (PrimFloat.is_nan (parseFloat value)) eqn:E2; auto.
Qed.

Lemma set_waypoint_spec idx f l l' :
  set_waypoint idx f l = Some l' ->
  (forall wp, Forall (fun x => PrimFloat.is_nan x = false) [lat wp; lng wp] ->
              Forall (fun x => PrimFloat.is_nan x = false)
                [lat (f wp); lng (f wp)]) ->
  Forall (fun x => PrimFloat.is_nan x = false)
    (flat_map (fun wp => [lat wp; lng wp]) l) ->
  Forall (fun x => PrimFloat.is_nan x = false)
    (flat_map (fun wp => [lat wp; lng wp]) l')
  /\ List.length l' = List.length l.
Proof.
  revert idx l'. induction l as [|wp r IH]; intros [|k] l' H Hf Hl;
    cbn [set_waypoint] in H; try discriminate.
  - inversion H; subst l'. cbn [flat_map app] in *.
    inversion Hl as [|? ? H1 Hl']; subst. inversion Hl' as [|? ? H2 Hr]; subst.
    split; auto.
    assert (Forall (fun x => PrimFloat.is_nan x = false)
              [lat (f wp); lng (f wp)]) as K by (apply Hf; auto).
    inversion K as [|? ? K1 K']; subst. inversion K' as [|? ? K2 _]; subst.
    auto.
  - destruct (set_waypoint k f r) as [r'|] eqn:E; [|discriminate].
    cbn [option_map] in H. inversion H; subst l'.
    cbn [flat_map app] in *.
    inversion Hl as [|? ? H1 Hl']; subst. inversion Hl' as [|? ? H2 Hr]; subst.
    destruct (IH k r' E Hf Hr) as [I1 I2].
    split; [auto | cbn [List.length]; now rewrite I2].
Qed.

Lemma set_waypoint_none idx f l :
  set_waypoint idx f l = None <-> List.length l <= idx.
Proof.
  revert idx. induction l as [|wp r IH]; intros [|k];
    cbn [set_waypoint List.length].
  - split; auto.
  - split; auto. intros _. lia.
  - split; [discriminate | lia].
  - specialize (IH k). destruct (set_waypoint k f r); cbn [option_map].
    + split; [discriminate|]. intros H.
      assert (List.length r <= k) as H' by lia. apply IH in H'. discriminate.
    + split; auto. intros _. destruct IH as [IH _].
      specialize (IH eq_refl). lia.
Qed.

Lemma setWaypointFollower_ok i prev wf :
  setWaypointFollower parseFloat i prev = Some wf ->
  numbers_ok prev ->
  numbers_ok wf
  /\ List.length (waypoints wf)
     = List.length (waypoints prev) + (if is_add i then 1 else 0).
Proof.
  unfold numbers_ok, all_numbers. intros H Hp.
  pose proof parsed_or_zero_number as Hz.
  cbn [app] in Hp.
  inversion Hp as [|? ? P1 Hp1]; subst. inversion Hp1 as [|? ? P2 Hp2]; subst.
  inversion Hp2 as [|? ? P3 Hp3]; subst. inversion Hp3 as [|? ? P4 Hp4]; subst.
  inversion Hp4 as [|? ? P5 Hp5]; subst. inversion Hp5 as [|? ? P6 Hp6]; subst.
  destruct i as [b|b|v|v|v|v|idx v|idx v| |v|v|v];
    cbn [setWaypointFollower] in H; cbn [is_add];
    try (inversion H; subst wf; clear H;
         cbn [all_numbers app linearAccLimit angularAccLimit angularVelLimit
                line circle direction length radius waypoints];
         split; [repeat (constructor; auto) | lia]).
  - destruct (set_waypoint idx _ (waypoints prev)) as [l'|] eqn:E;
      [|discriminate].
    cbn [option_map] in H. inversion H; subst wf; clear H.
    cbn [app linearAccLimit angularAccLimit angularVelLimit
           line circle direction length radius waypoints].
    apply set_waypoint_spec in E; auto.
    + destruct E as [E1 E2]. split; [repeat (constructor; auto) | lia].
    + intros wp K. cbn [lat lng]. inversion K as [|? ? K1 K']; subst.
      inversion K' as [|? ? K2 _]; subst. auto.
  - destruct (set_waypoint idx _ (waypoints prev)) as [l'|] eqn:E;
      [|discriminate].
    cbn [option_map] in H. inversion H; subst wf; clear H.
    cbn [app linearAccLimit angularAccLimit angularVelLimit
           line circle direction length radius waypoints].
    apply set_waypoint_spec in E; auto.
    + destruct E as [E1 E2]. split; [repeat (constructor; auto) | lia].
    + intros wp K. cbn [lat lng]. inversion K as [|? ? K1 K']; subst.
      inversion K' as [|? ? K2 _]; subst. auto.
  - inversion H; subst wf; clear H.
    cbn [app linearAccLimit angularAccLimit angularVelLimit
           line circle direction length radius waypoints].
    split.
    + repeat (constructor; auto). rewrite flat_map_app. apply Forall_app.
      split; auto. cbn. repeat constructor.
    + rewrite length_app. cbn. lia.
Qed.

Lemma follower_after_ok inputs prev wf :
  follower_after parseFloat inputs prev = Some wf ->
  numbers_ok prev ->
  numbers_ok wf
  /\ List.length (waypoints wf)
     = List.length (waypoints prev) + List.length (filter is_add inputs).
Proof.
  revert prev. induction inputs as [|i r IH]; intros prev H Hp.
  - cbn in H. inversion H; subst. split; [assumption | cbn; lia].
  - cbn [follower_after] in H.
    destruct (setWaypointFollower parseFloat i prev) as [wf'|] eqn:E;
      [|discriminate].
    destruct (@setWaypointFollower_ok i prev wf' E Hp) as [H1 H2].
    destruct (IH wf' H H1) as [I1 I2]. split; auto.
    rewrite I2, H2. cbn [filter]. destruct (is_add i); cbn [List.length]; lia.
Qed.

(** X12. Whatever is typed into the controls of the waypoint follower, none of
    its numbers is ever NaN, and its list of waypoints has one waypoint for
    each click on [+ Add Waypoint]: no input removes one.  An updater throws
    only when it edits a waypoint that the list does not have. *)
Theorem follower_numbers_never_nan (inputs : list follower_input)
        (wf : WaypointFollower) :
  follower_after parseFloat inputs initial_follower = Some wf ->
  Forall (fun x => PrimFloat.is_nan x = false) (all_numbers wf)
  /\ List.length (waypoints wf) = List.length (filter is_add inputs)
  /\ (forall i, setWaypointFollower parseFloat i wf = None
                <-> out_of_range i wf = true).
Proof.
  intros H.
  assert (numbers_ok initial_follower) as H0.
  { unfold numbers_ok. cbn. repeat constructor. }
  destruct (@follower_after_ok inputs initial_follower wf H H0) as [H1 H2].
  split; [exact H1|]. split; [exact H2|].
  intros i. destruct i as [b|b|v|v|v|v|idx value|idx value| |v|v|v];
    cbn [setWaypointFollower out_of_range];
    try (split; discriminate).
  - pose proof (set_waypoint_none idx
                  (fun wp => {| lat := parsed_or_zero parseFloat value;
                                lng := lng wp |}) (waypoints wf)) as K.
    destruct (set_waypoint idx _ (waypoints wf)); cbn [option_map].
    + split; [discriminate|]. intros L. apply Nat.leb_le in L.
      apply K in L. discriminate.
    + split; auto. intros _. apply Nat.leb_le. now apply K.
  - pose proof (set_waypoint_none idx
                  (fun wp => {| lat := lat wp;
                                lng := parsed_or_zero parseFloat value |})
                  (waypoints wf)) as K.
    destruct (set_waypoint idx _ (waypoints wf)); cbn [option_map].
    + split; [discriminate|]. intros L. apply Nat.leb_le in L.
      apply K in L. discriminate.
    + split; auto. intros _. apply Nat.leb_le. now apply K.
Qed.

(** *** The position and the command *)





(** X14. With the follower enabled in mode [waypoints], the document has one
    [<waypoint>] element for each click on [+ Add Waypoint]. *)
Theorem waypoint_elements_count_clicks (np : num -> jsstring)
        (inputs : list follower_input) (st : DialogState) :
  (forall x, no_angle (np x) = true) ->
  follower_after parseFloat inputs initial_follower
  = Some (waypointFollower st) ->
  enabled (waypointFollower st) = true ->
  mode (waypointFollower st) = lit "waypoints" ->
  occurrences (lit "<waypoint>") (generateLotusParamXML np st)
  = List.length (filter is_add inputs).
Proof.
  intros Hnp H He Hm.
  rewrite (@CountFacts.occurrences_waypoint np Hnp st), He, Hm.
  rewrite MarkupFacts.jsstring_eqb_refl. cbn [andb].
  assert (numbers_ok initial_follower) as H0.
  { unfold numbers_ok. cbn. repeat constructor. }
  destruct (@follower_after_ok inputs initial_follower (waypointFollower st)
              H H0) as [_ H2].
  rewrite H2. reflexivity.
Qed.

End InputFacts.

End DialogFacts.

(* ------------------------------------------------------------------ *)
(** ** The dashboard and its telemetry clients *)

Module DashboardFacts.

Import WebSocket Dashboard.

Lemma nth_error_update_socket i f l j :
  nth_error (update_socket i f l) j
  = if Nat.eqb i j then option_map f (nth_error l j) else nth_error l j.
Proof.
  revert i j. induction l as [|s r IH]; intros [|i] [|j]; cbn; auto.
  - now destruct (Nat.eqb _ _).
Qed.

Lemma mono_refl w : mono w w.
Proof. intros j x H A. now exists x. Qed.

Lemma mono_trans a b c : mono a b -> mono b c -> mono a c.
Proof.
  intros H1 H2 j x H A. destruct (H2 j x H A) as (y & Hy & Ay).
  now apply (H1 j y).
Qed.

Lemma mono_same w w' : sockets w' = sockets w -> mono w w'.
Proof. intros E j x H A. rewrite E in H. now exists x. Qed.

(** Changing a socket by a function that does not make it live. *)
Lemma mono_update i f w w' :
  sockets w' = update_socket i f (sockets w) ->
  (forall x, nth_error (sockets w) i = Some x -> active (f x) = true ->
             active x = true) ->
  mono w w'.
Proof.
  intros E Hf j x' H A. rewrite E, nth_error_update_socket in H.
  destruct (Nat.eqb_spec i j) as [->|Hij].
  - destruct (nth_error (sockets w) j) as [x|] eqn:Ex; [|discriminate].
    cbn in H. inversion H; subst x'. exists x. split; auto.
  - now exists x'.
Qed.

Lemma active_close x : active (close x) = false.
Proof.
  unfold close, active.
  destruct (readyState x) eqn:E; cbn [set_state readyState]; now rewrite ?E.
Qed.

Section LifecycleFacts.

Variable host : Host.

Lemma mono_sendClientName c w : mono w (sendClientName host c w).
Proof.
  unfold sendClientName. destruct (ws c) as [i|]; [|now apply mono_same].
  destruct (is_open c w); [|now apply mono_same].
  apply (@mono_update i (send (JSON_stringify_instance host (getInstance w))));
    auto.
Qed.

Lemma mono_handleMessage data w : mono w (handleMessage host data w).
Proof. apply mono_same, WebSocketFacts.sockets_handleMessage. Qed.

(** No action of a client that holds a socket makes a socket live. *)
Lemma mono_step a c w i :
  ws c = Some i -> mono w (snd (step host a (c, w))).
Proof.
  intros Hc. unfold step, connect, disconnect. rewrite Hc.
  destruct a; cbn [snd].
  - now apply mono_same.
  - apply (@mono_update i close); auto.
    intros x _ A. now rewrite active_close in A.
  - apply mono_sendClientName.
  - unfold state_of.
    destruct (nth_error (sockets w) i) as [x|] eqn:Ex; cbn [option_map];
      [|apply mono_refl].
    destruct (readyState x) eqn:Er; cbn [snd]; try apply mono_refl.
    unfold onopen.
    eapply mono_trans; [|apply mono_sendClientName].
    eapply mono_trans; [|now apply mono_same].
    apply (@mono_update i (set_state OPEN)); auto.
    intros y Hy _. rewrite Ex in Hy. inversion Hy; subst y.
    unfold active. now rewrite Er.
  - unfold state_of.
    destruct (nth_error (sockets w) i) as [x|]; cbn [option_map];
      [|apply mono_refl].
    destruct (readyState x); cbn [snd];
      try apply mono_refl; apply mono_handleMessage.
  - now apply mono_same.
  - unfold state_of.
    destruct (nth_error (sockets w) i) as [x|]; cbn [option_map];
      [|apply mono_refl].
    assert (mono w (onclose wasClean
                      (set_sockets
                         (update_socket i (set_state CLOSED) (sockets w)) w)))
      as H.
    { eapply mono_trans;
        [|apply mono_same, WebSocketFacts.sockets_onclose].
      apply (@mono_update i (set_state CLOSED)); auto.
      intros y _ A. discriminate A. }
    destruct (readyState x); cbn [snd]; auto. apply mono_refl.
  - now apply mono_same.
Qed.

Lemma mono_run trace c w i :
  ws c = Some i -> mono w (snd (run host trace (c, w))).
Proof.
  revert c w. induction trace as [|a t IH]; intros c w Hc; [apply mono_refl|].
  unfold run. cbn [fold_left]. fold (run host t (step host a (c, w))).
  pose proof (@mono_step a c w i Hc) as H1.
  pose proof (@WebSocketFacts.ws_kept host a c w i Hc) as H2.
  destruct (step host a (c, w)) as [c' w']. cbn [fst snd] in *.
  eapply mono_trans; [exact H1|]. now apply IH.
Qed.

Lemma filter_active_nil l :
  (forall j x, nth_error l j = Some x -> active x = false) ->
  filter active l = [].
Proof.
  induction l as [|s r IH]; intros H; auto. cbn [filter].
  rewrite (H 0 s eq_refl). apply IH. intros j x Hj. now apply (H (S j)).
Qed.

Lemma filter_active_in l j x :
  nth_error l j = Some x -> active x = true -> filter active l <> [].
Proof.
  intros Hj A E.
  assert (In x (filter active l)) as Hin.
  { apply filter_In. split; auto. now apply nth_error_In with j. }
  now rewrite E in Hin.
Qed.

Lemma not_live_nil l :
  filter active l = [] ->
  forall j x, nth_error l j = Some x -> active x = false.
Proof.
  intros E j x Hj. destruct (active x) eqn:A; auto.
  now destruct (@filter_active_in l j x Hj A).
Qed.

Lemma live_at_most_one l :
  (forall j1 j2 x1 x2,
      nth_error l j1 = Some x1 -> active x1 = true ->
      nth_error l j2 = Some x2 -> active x2 = true -> j1 = j2) ->
  List.length (filter active l) <= 1.
Proof.
  induction l as [|s r IH]; intros H; cbn [filter]; auto.
  destruct (active s) eqn:A.
  - rewrite filter_active_nil; auto.
    intros j x Hj. destruct (active x) eqn:Ax; auto.
    discriminate (H 0 (S j) s x eq_refl A Hj Ax).
  - apply IH. intros j1 j2 x1 x2 H1 A1 H2 A2.
    pose proof (H (S j1) (S j2) x1 x2 H1 A1 H2 A2) as E. now inversion E.
Qed.

Lemma owned_live s : owned s -> List.length (live (snd s)) <= 1.
Proof.
  intros H. apply live_at_most_one. intros j1 j2 x1 x2 H1 A1 H2 A2.
  destruct (H j1 x1 H1 A1) as (c1 & E1 & W1).
  destruct (H j2 x2 H2 A2) as (c2 & E2 & W2).
  rewrite E1 in E2. inversion E2; subst c2. rewrite W1 in W2.
  now inversion W2.
Qed.

Lemma owned_none_live w : owned (None, w) -> live w = [].
Proof.
  intros H. apply filter_active_nil. intros j x Hj.
  destruct (active x) eqn:A; auto.
  destruct (H j x Hj A) as (c & E & _). discriminate E.
Qed.

Lemma owned_mono d w w' : mono w w' -> owned (d, w) -> owned (d, w').
Proof.
  intros Hm H j x' Hj A. destruct (Hm j x' Hj A) as (x & Hx & Ax).
  apply (H j x Hx Ax).
Qed.

Lemma owned_effect d w : owned (d, w) -> owned (effect host d w).
Proof.
  intros H. unfold effect. destruct d as [c|]; auto.
  pose proof (owned_none_live H) as Hl.
  unfold connect. cbn [new_client ws].
  destruct (url_valid host _).
  - intros j x Hj A. cbn [fst snd set_sockets sockets log] in *.
    destruct (Nat.lt_ge_cases j (List.length (sockets w))) as [Hlt|Hge].
    + rewrite nth_error_app1 in Hj by assumption.
      rewrite (not_live_nil _ Hl j Hj) in A. discriminate.
    + eexists. split; [reflexivity|]. cbn [ws]. f_equal.
      apply Nat.le_antisymm; auto.
      assert (j < List.length (sockets w ++
                [{| url := lit "ws://"
                     ++ getAddress_ip (log Log (lit "WebSocket connecting.") w)
                     ++ lit ":5000";
                    readyState := CONNECTING; sent := [] |}])) as Hb
        by (apply nth_error_Some; now rewrite Hj).
      rewrite length_app in Hb. cbn in Hb. lia.
  - intros j x Hj A. cbn [fst snd log sockets] in *.
    rewrite (not_live_nil _ Hl j Hj) in A. discriminate.
Qed.

Lemma owned_cleanup d w : owned (d, w) -> owned (cleanup d w).
Proof.
  intros H. unfold cleanup. destruct d as [c|]; auto.
  unfold disconnect. destruct (ws c) as [i|] eqn:Hc; cbn [snd].
  - intros j x' Hj A. exfalso.
    cbn [snd fst log set_sockets sockets] in Hj.
    rewrite nth_error_update_socket in Hj.
    destruct (Nat.eqb_spec i j) as [->|Hij].
    + destruct (nth_error (sockets w) j); [|discriminate].
      cbn in Hj. inversion Hj; subst x'. now rewrite active_close in A.
    + destruct (H j x' Hj A) as (c' & E & W). cbn [fst] in E.
      inversion E; subst c'. rewrite Hc in W. inversion W. contradiction.
  - intros j x Hj A. exfalso.
    destruct (H j x Hj A) as (c' & E & W). cbn [fst] in E.
    inversion E; subst c'. rewrite Hc in W. discriminate.
Qed.

Lemma owned_step e s : owned s -> owned (dashboard_step host e s).
Proof.
  destruct s as [d w]. intros H. unfold dashboard_step.
  destruct e as [| |i ev|k v].
  - now apply owned_effect.
  - now apply owned_cleanup.
  - apply (@owned_mono d w); auto.
    now apply (@mono_step (to_action ev) {| ws := Some i |} w i).
  - apply (@owned_mono d w); auto. now apply mono_same.
Qed.

Lemma owned_run trace s : owned s -> owned (dashboard_run host trace s).
Proof.
  revert s. induction trace as [|e t IH]; intros s H; auto.
  apply IH, owned_step, H.
Qed.

(** X15. However often the effect of the dashboard and its clean-up run, and
    whatever the sockets do in between, at most one socket is connecting or
    open at any time, and none while the ref is [null]. *)
Theorem dashboard_one_live_socket (trace : list lifecycle) (w0 : World) :
  fresh w0 = true ->
  List.length (live (snd (dashboard_run host trace (None, w0)))) <= 1
  /\ (fst (dashboard_run host trace (None, w0)) = None ->
      live (snd (dashboard_run host trace (None, w0))) = []).
Proof.
  intros Hf.
  assert (owned (None : option Client, w0)) as H0.
  { intros j x Hj _. unfold fresh in Hf. cbn [snd] in Hj.
    destruct (sockets w0); [|discriminate]. now destruct j. }
  pose proof (owned_run trace H0) as H.
  split; [now apply owned_live|].
  intros E. destruct (dashboard_run host trace (None, w0)) as [d w].
  cbn [fst snd] in *. subst d. now apply owned_none_live.
Qed.

(** X16. A client does not reconnect: once it holds a socket and no socket is
    live, no method call and no event makes a socket live again. *)
Theorem client_never_reconnects (trace : list action) (c : Client)
        (w : World) (i : nat) :
  ws c = Some i ->
  filter active (sockets w) = [] ->
  filter active (sockets (snd (run host trace (c, w)))) = [].
Proof.
  intros Hc Hl. apply filter_active_nil. intros j x Hj.
  destruct (active x) eqn:A; auto.
  destruct (@mono_run trace c w i Hc j x Hj A) as (y & Hy & Ay).
  rewrite (not_live_nil _ Hl j Hy) in Ay. discriminate.
Qed.

(** *** What is sent *)








(** *** The batch on display *)

Lemma latest_valid_from acc msgs :
  fold_left
    (fun acc data =>
       match JSON_parse host data with
       | Some (JArray items) =>
           if forallb valid_item items then Some items else acc
       | _ => acc
       end)
    msgs acc
  = match latest_valid host msgs with
    | Some items => Some items
    | None => acc
    end.
Proof.
  unfold latest_valid. revert acc.
  induction msgs as [|d r IH]; intros acc; auto.
  cbn [fold_left]. rewrite IH. symmetry. rewrite IH.
  destruct (fold_left _ r None); auto.
  destruct (JSON_parse host d) as [[]|]; auto.
  destruct (forallb valid_item items); auto.
Qed.

Lemma latest_valid_cons d r :
  latest_valid host (d :: r)
  = match latest_valid host r with
    | Some items => Some items
    | None =>
        match JSON_parse host d with
        | Some (JArray items) =>
            if forallb valid_item items then Some items else None
        | _ => None
        end
    end.
Proof.
  unfold latest_valid at 1. cbn [fold_left]. apply latest_valid_from.
Qed.

Lemma every_first_invalid items :
  every item_test items
  = match first_invalid items with
    | None => Normal true
    | Some JNull => Thrown (lit "TypeError")
    | Some _ => Normal false
    end.
Proof.
  unfold first_invalid.
  induction items as [|item rest IH]; cbn [every find]; auto.
  pose proof (WebSocketFacts.item_test_valid item) as H.
  destruct (valid_item item) eqn:V; cbn [negb].
  - destruct H as [_ H]. now rewrite (H eq_refl).
  - destruct item; try reflexivity.
    unfold item_test, member in *. unfold valid_item, has_truthy in V.
    destruct (truthy (assoc (lit "vessel_name") props)); cbn [andb] in V;
      [|reflexivity].
    now rewrite V.
Qed.

(** X19. A message that is not valid is reported once, by [console.error]
    when [JSON.parse] throws or when an element [null] is reached before any
    other element that is not valid (reading its [vessel_name] throws and
    the error is caught), and by [console.warn] in every other case; nothing
    else changes. *)
Theorem dropped_message_level (data : jsstring) (w : World) :
  valid_message host data = false ->
  exists msg,
    handleMessage host data w = log (dropped_level host data) msg w
    /\ is_diagnostic (dropped_level host data) = true.
Proof.
  unfold valid_message, handleMessage, dropped_level.
  destruct (JSON_parse host data) as [parsed|]; [|intros _; eexists; eauto].
  destruct parsed; try (intros _; eexists; split; reflexivity).
  rewrite every_first_invalid. unfold first_invalid. intros Hv.
  destruct (find (fun item => negb (valid_item item)) items) as [bad|] eqn:F.
  - destruct bad; eexists; split; reflexivity.
  - exfalso.
    assert (forallb valid_item items = true) as K.
    { apply forallb_forall. intros x Hx.
      pose proof (find_none _ _ F x Hx) as N. cbn in N.
      now apply negb_false_iff in N. }
    rewrite K in Hv. discriminate.
Qed.

(** X18. After any sequence of messages the batch on display is the array of the
    last valid message, or the batch shown before when no message was
    valid; each message that is not valid has added one diagnostic and
    nothing else. *)
Theorem latest_valid_batch_shown (msgs : list jsstring) (w : World) :
  vesselData (receive host msgs w)
  = match latest_valid host msgs with
    | Some items => items
    | None => vesselData w
    end
  /\ diagnostics (receive host msgs w)
     = diagnostics w + invalid_count host msgs
  /\ sockets (receive host msgs w) = sockets w.
Proof.
  revert w. induction msgs as [|d r IH]; intros w.
  - cbn. repeat split. unfold invalid_count. cbn. lia.
  - unfold receive. cbn [fold_left].
    fold (receive host r (handleMessage host d w)).
    destruct (IH (handleMessage host d w)) as (I1 & I2 & I3).
    rewrite I1, I2, I3. clear IH I1 I2 I3.
    rewrite latest_valid_cons.
    unfold invalid_count. cbn [filter].
    destruct (WebSocketFacts.handleMessage_cases host d w)
      as [(Hv & items & Hp & Hh)|(Hv & l & msg & Hl & Hh)];
      rewrite Hh, Hv; cbn [negb].
    + split; [|split; reflexivity].
      rewrite Hp. unfold valid_message in Hv. rewrite Hp in Hv. rewrite Hv.
      destruct (latest_valid host r); auto.
      unfold vesselData, vesselDataCallback. cbn [calls].
      now rewrite last_last.
    + split; [|split; [|reflexivity]].
      * assert (match JSON_parse host d with
                | Some (JArray items) =>
                    if forallb valid_item items then Some items else None
                | _ => None
                end = None) as ->.
        { unfold valid_message in Hv.
          destruct (JSON_parse host d) as [[]|]; auto. now rewrite Hv. }
        now destruct (latest_valid host r).
      * rewrite WebSocketFacts.diagnostics_log, Hl. cbn [List.length]. lia.
Qed.

End LifecycleFacts.

End DashboardFacts.

(** *** The theorems at sample states, inputs and traces *)

Module MoreWitnesses.

Import Samples MoreSamples Markup Dialog WebSocket Dashboard.

Lemma output_well_nested_witness :
  well_nested (generateLotusParamXML zero_text st_circle) = true.
Proof.
  apply (MarkupFacts.output_well_nested zero_text st_circle).
  intros x. reflexivity.
Defined.

Lemma section_elements_by_flag_witness :
  occurrences (lit "<render_interface>")
    (generateLotusParamXML zero_text st_spaced_name) = 0
  /\ occurrences (lit "<init_state>")
       (generateLotusParamXML zero_text st_spaced_name) = 1.
Proof.
  destruct (@CountFacts.section_elements_by_flag zero_text
              (fun x => eq_refl) st_spaced_name) as (H1 & _ & H3 & _).
  split; [exact H1 | exact H3].
Defined.

Lemma mode_element_by_flag_witness :
  occurrences (lit "<surface>") (generateLotusParamXML zero_text st_circle) = 1
  /\ occurrences (lit "<aerial>") (generateLotusParamXML zero_text st_circle)
     = 0.
Proof.
  split.
  - apply (@CountFacts.mode_element_by_flag zero_text (fun x => eq_refl)
             st_circle surface).
  - apply (@CountFacts.mode_element_by_flag zero_text (fun x => eq_refl)
             st_circle aerial).
Defined.

Lemma follower_payload_by_mode_witness :
  occurrences (lit "<waypoint>")
    (generateLotusParamXML zero_text st_two_waypoints) = 2
  /\ occurrences (lit "<circle>")
       (generateLotusParamXML zero_text st_two_waypoints) = 0.
Proof.
  destruct (@CountFacts.follower_payload_by_mode zero_text
              (fun x => eq_refl) st_two_waypoints) as (H1 & _ & _ & H4).
  split; [exact H1 | exact H4].
Defined.

Lemma thruster_field_round_trip_witness :
  thrusters_of_input (thrusters_value [lit "A"; lit "B 2"; []])
  = [lit "A"; lit "B 2"; []].
Proof.
  apply DialogFacts.thruster_field_round_trip.
  - discriminate.
  - repeat constructor.
Defined.

Lemma emptied_thruster_field_witness :
  exists pre post,
    generateLotusParamXML zero_text st_blank_thruster
    = pre ++ lit "<thrusters><thrusters1></thrusters1></thrusters>" ++ post.
Proof.
  apply (@DialogFacts.emptied_thruster_field zero_text st_blank_thruster
           surface (lit "  ")); reflexivity.
Defined.

Lemma initial_state_options_witness :
  initStateOptions toUpperCase_latin st_circle = [lit "Surface"]
  /\ exists pre post,
       generateLotusParamXML zero_text st_circle
       = pre ++ lit "<init_state>Surface</init_state>" ++ post.
Proof.
  destruct (@DialogFacts.initial_state_options toUpperCase_latin
              DialogFacts.toUpperCase_latin_ok zero_text st_circle)
    as (H1 & _ & H3).
  split; [exact H1|].
  apply H3; [reflexivity|]. rewrite H1. now left.
Defined.

Lemma follower_numbers_never_nan_witness :
  Forall (fun x => PrimFloat.is_nan x = false)
    (all_numbers sample_follower_after)
  /\ List.length (waypoints sample_follower_after) = 2
  /\ setWaypointFollower parse_nothing (SetWaypointLng 2 (lit "1"))
       sample_follower_after = None.
Proof.
  destruct (@DialogFacts.follower_numbers_never_nan parse_nothing
              sample_inputs sample_follower_after eq_refl) as (H1 & H2 & H3).
  split; [exact H1|]. split; [exact H2|].
  apply H3. reflexivity.
Defined.

Lemma waypoint_elements_count_clicks_witness :
  occurrences (lit "<waypoint>")
    (generateLotusParamXML zero_text st_two_waypoints) = 2.
Proof.
  apply (@DialogFacts.waypoint_elements_count_clicks parse_nothing zero_text
           sample_inputs st_two_waypoints); reflexivity.
Defined.


Lemma dashboard_one_live_socket_witness :
  List.length
    (live (snd (dashboard_run sample_host sample_lifecycle
                  (None, empty_world)))) <= 1.
Proof.
  apply (@DashboardFacts.dashboard_one_live_socket sample_host
           sample_lifecycle empty_world eq_refl).
Defined.

Lemma client_never_reconnects_witness :
  filter active
    (sockets (snd (run sample_host [Connect; OnOpen; SendClientName]
                     (connected_client, closed_world)))) = [].
Proof.
  apply (@DashboardFacts.client_never_reconnects sample_host
           [Connect; OnOpen; SendClientName] connected_client closed_world 0);
    reflexivity.
Defined.


Lemma dropped_message_level_witness :
  (exists msg,
      handleMessage sample_host_null (lit "nulls") empty_world
      = log Error msg empty_world)
  /\ (exists msg,
         handleMessage sample_host_null (lit "bad") empty_world
         = log Warn msg empty_world).
Proof.
  split.
  - destruct (@DashboardFacts.dropped_message_level sample_host_null
                (lit "nulls") empty_world eq_refl) as (msg & H & _).
    exists msg. exact H.
  - destruct (@DashboardFacts.dropped_message_level sample_host_null
                (lit "bad") empty_world eq_refl) as (msg & H & _).
    exists msg. exact H.
Defined.

End MoreWitnesses.
